(** * NEvoPy, NEAT core: genomes, crossover and the id handler

    A shallow embedding of [nevopy/neat/id_handler.py] and
    [nevopy/neat/genome.py].

    Conventions of the embedding.
    - Python integers (ids, counters) are [Z]; lengths and positions are [nat].
    - Python floats (weights, activations, fitness) are exact rationals [Q];
      rounding is outside the model.
    - A Python object that is mutated through several names is kept in one
      place and named by a reference: the connection genes of a genome live
      in [connections] and a node's adjacency lists hold positions in it;
      node genes live in the genome's four containers and are named by a
      [NodeRef].  Genes are only ever appended, so references stay stable.
    - A call either returns ([Ok]) or raises ([Raise]); both carry the state
      the call leaves behind, because an exception does not undo mutations.
    - The pseudo-random source is a stream of raw words, one per draw. *)

From Stdlib Require Import ZArith QArith Qabs Lia Sorted.
From stdpp Require Import gmap list.

Set Default Proof Using "Type".

(* ================================================================== *)
(** * Part I: definitions                                               *)
(* ================================================================== *)

(** ** Exceptions and outcomes *)

(** The exceptions a call can end with.  [BadReference] and [OutOfFuel] have
    no Python counterpart: they mark a dangling reference and an exhausted
    recursion budget in the model; the theorems show they do not occur. *)
Inductive Exn :=
  | ConnectionExistsError
  | ConnectionToBiasNodeError
  | AssertionError
  | KeyError
  | RuntimeError
  | ValueError
  | ZeroDivisionError
  | AttributeError
  | BadReference
  | OutOfFuel.

Global Instance Exn_eq_dec : EqDecision Exn.
Proof. solve_decision. Defined.

Inductive Outcome (S A : Type) :=
  | Ok (a : A) (s : S)
  | Raise (e : Exn) (s : S).
Arguments Ok {S A} a s.
Arguments Raise {S A} e s.

Definition bind {S A B} (m : S -> Outcome S A) (k : A -> S -> Outcome S B)
  : S -> Outcome S B :=
  fun s => match m s with
           | Ok a s' => k a s'
           | Raise e s' => Raise e s'
           end.

Definition ret {S A} (a : A) : S -> Outcome S A := fun s => Ok a s.
Definition raise {S A} (e : Exn) : S -> Outcome S A := fun s => Raise e s.

Declare Scope outcome_scope.
Delimit Scope outcome_scope with outcome.
Notation "x <- m ;; k" := (bind m (fun x => k))
  (at level 100, m at next level, right associativity) : outcome_scope.
Notation "m ;;; k" := (bind m (fun _ => k))
  (at level 100, right associativity) : outcome_scope.

(** The state an outcome ends in. *)
Definition final_state {S A} (o : Outcome S A) : S :=
  match o with Ok _ s => s | Raise _ s => s end.

Definition raised {S A} (o : Outcome S A) : option Exn :=
  match o with Ok _ _ => None | Raise e _ => Some e end.

(** ** The pseudo-random source *)

(** [np.random]: the generator is the stream of raw words it is going to
    produce; each draw consumes one word. *)
Record Rng := { words : nat -> nat; cursor : nat }.

Definition next_word (r : Rng) : nat * Rng :=
  (words r (cursor r), {| words := words r; cursor := S (cursor r) |}).

(** Resolution of a uniform draw in [0, 1). *)
Definition resolution : positive := 9007199254740992.

Definition unit_draw (w : nat) : Q :=
  (Z.of_nat w mod Z.pos resolution)%Z # resolution.

(** [np.random.uniform(low, high)]. *)
Definition uniform (low high : Q) (r : Rng) : Q * Rng :=
  let (w, r') := next_word r in ((low + (high - low) * unit_draw w)%Q, r').

(** [np.random.choice(seq)]: the position drawn in a sequence of [n > 0]
    items; on an empty sequence numpy raises [ValueError]. *)
Definition choice_index (n : nat) (r : Rng) : nat * Rng :=
  let (w, r') := next_word r in (w mod n, r').

(** Modelled from the spec: [utils.chance(p)] is in [nevopy/utils.py], which is
    not among the sources; it answers [True] "with the configured
    probability" [p], here: when a uniform draw in [0, 1) falls below [p]. *)
Definition chance (p : Q) (r : Rng) : bool * Rng :=
  let (w, r') := next_word r in
  (match (unit_draw w ?= p)%Q with Lt => true | _ => false end, r').

Arguments uniform : simpl never.
Arguments choice_index : simpl never.
Arguments chance : simpl never.

(** ** id_handler.py *)

Module IdHandler.

Record t := {
  _node_counter : Z;
  _connection_counter : Z;
  _genome_counter : Z;
  _species_counter : Z;
  _new_connections_ids : gmap Z (gmap Z Z);
  _new_nodes_ids : gmap Z (gmap Z Z);
  reset_counter : Z
}.

(** [IdHandler.__init__].  The first assignment is the conditional
    expression [(num_inputs + num_outputs + 1) if has_bias else 0]: in
    Python the conditional binds weaker than [+]. *)
Definition __init__ (num_inputs num_outputs : Z) (has_bias : bool) : t :=
  {| _node_counter := if has_bias then num_inputs + num_outputs + 1 else 0;
     _connection_counter := num_inputs * num_outputs;
     _genome_counter := 0;
     _species_counter := 0;
     _new_connections_ids := ∅;
     _new_nodes_ids := ∅;
     reset_counter := 0 |}%Z.

Definition reset (h : t) : t :=
  {| _node_counter := _node_counter h;
     _connection_counter := _connection_counter h;
     _genome_counter := _genome_counter h;
     _species_counter := _species_counter h;
     _new_connections_ids := ∅;
     _new_nodes_ids := ∅;
     reset_counter := 0 |}.

Definition next_genome_id (h : t) : Outcome t Z :=
  Ok (_genome_counter h)
     {| _node_counter := _node_counter h;
        _connection_counter := _connection_counter h;
        _genome_counter := _genome_counter h + 1;
        _species_counter := _species_counter h;
        _new_connections_ids := _new_connections_ids h;
        _new_nodes_ids := _new_nodes_ids h;
        reset_counter := reset_counter h |}%Z.

Definition next_species_id (h : t) : Outcome t Z :=
  Ok (_species_counter h)
     {| _node_counter := _node_counter h;
        _connection_counter := _connection_counter h;
        _genome_counter := _genome_counter h;
        _species_counter := _species_counter h + 1;
        _new_connections_ids := _new_connections_ids h;
        _new_nodes_ids := _new_nodes_ids h;
        reset_counter := reset_counter h |}%Z.

(** The tail of [next_hidden_node_id]: a fresh id is taken from the node
    counter and cached under [src_id][dest_id]; [row] is the inner
    dictionary of [src_id] (just created when it was missing). *)
Definition alloc_node (s d : Z) (row : gmap Z Z) (h : t) : Outcome t Z :=
  let hid := _node_counter h in
  Ok hid
     {| _node_counter := hid + 1;
        _connection_counter := _connection_counter h;
        _genome_counter := _genome_counter h;
        _species_counter := _species_counter h;
        _new_connections_ids := _new_connections_ids h;
        _new_nodes_ids := <[s := <[d := hid]> row]> (_new_nodes_ids h);
        reset_counter := reset_counter h |}%Z.

Definition next_hidden_node_id (src_id dest_id : option Z) (h : t)
  : Outcome t Z :=
  match src_id, dest_id with
  | Some s, Some d =>
      match _new_nodes_ids h !! s with
      | Some row =>
          match row !! d with
          | Some hid => Ok hid h
          | None => alloc_node s d row h
          end
      | None => alloc_node s d ∅ h
      end
  | _, _ => Raise RuntimeError h
  end.

Definition alloc_connection (s d : Z) (row : gmap Z Z) (h : t)
  : Outcome t Z :=
  let cid := _connection_counter h in
  Ok cid
     {| _node_counter := _node_counter h;
        _connection_counter := cid + 1;
        _genome_counter := _genome_counter h;
        _species_counter := _species_counter h;
        _new_connections_ids := <[s := <[d := cid]> row]> (_new_connections_ids h);
        _new_nodes_ids := _new_nodes_ids h;
        reset_counter := reset_counter h |}%Z.

Definition next_connection_id (src_id dest_id : Z) (h : t) : Outcome t Z :=
  match _new_connections_ids h !! src_id with
  | Some row =>
      match row !! dest_id with
      | Some cid => Ok cid h
      | None => alloc_connection src_id dest_id row h
      end
  | None => alloc_connection src_id dest_id ∅ h
  end.

End IdHandler.

(** ** genes.py: node and connection genes *)

(** [NodeGene.Type]. *)
Inductive NodeType := INPUT | OUTPUT | HIDDEN | BIAS.

Global Instance NodeType_eq_dec : EqDecision NodeType.
Proof. solve_decision. Defined.

(** A reference to a node gene of a genome: the container it was appended
    to and its position there ([_bias_node] holds at most one node). *)
Inductive NodeRef :=
  | InputRef (i : nat)
  | BiasRef
  | OutputRef (i : nat)
  | HiddenRef (i : nat).

Global Instance NodeRef_eq_dec : EqDecision NodeRef.
Proof. solve_decision. Defined.

(** Modelled from the spec: [NodeGene] is declared in [nevopy/neat/genes.py],
    which is not among the sources.  "Attributes: identifier, type,
    activation function, current activation value, list of incoming
    connection genes, list of outgoing connection genes"; a new node starts
    at its initial activation with empty connection lists. *)
Record NodeGene := {
  node_id : Z;                      (* [.id] *)
  node_type : NodeType;             (* [.type] *)
  activation_func : Q -> Q;
  initial_activation : Q;
  activation : Q;
  in_connections : list nat;
  out_connections : list nat
}.

Definition new_NodeGene (nid : Z) (ty : NodeType) (f : Q -> Q) (init : Q)
  : NodeGene :=
  {| node_id := nid; node_type := ty; activation_func := f;
     initial_activation := init; activation := init;
     in_connections := []; out_connections := [] |}.

(** Modelled from the spec: [NodeGene.activate], "applies the activation
    function to the sum and stores the result". *)
Definition activate (x : Q) (n : NodeGene) : NodeGene :=
  {| node_id := node_id n; node_type := node_type n;
     activation_func := activation_func n;
     initial_activation := initial_activation n;
     activation := activation_func n x;
     in_connections := in_connections n;
     out_connections := out_connections n |}.

(** Modelled from the spec: [NodeGene.reset_activation], "restores the value
    to a configured initial activation". *)
Definition reset_activation (n : NodeGene) : NodeGene :=
  {| node_id := node_id n; node_type := node_type n;
     activation_func := activation_func n;
     initial_activation := initial_activation n;
     activation := initial_activation n;
     in_connections := in_connections n;
     out_connections := out_connections n |}.

(** Modelled from the spec: [NodeGene.shallow_copy], "a new node with the
    same identifier, type, activation function and initial value, but empty
    connection lists". *)
Definition node_shallow_copy (n : NodeGene) : NodeGene :=
  new_NodeGene (node_id n) (node_type n) (activation_func n)
               (initial_activation n).

Definition append_out (ci : nat) (n : NodeGene) : NodeGene :=
  {| node_id := node_id n; node_type := node_type n;
     activation_func := activation_func n;
     initial_activation := initial_activation n;
     activation := activation n;
     in_connections := in_connections n;
     out_connections := out_connections n ++ [ci] |}.

Definition append_in (ci : nat) (n : NodeGene) : NodeGene :=
  {| node_id := node_id n; node_type := node_type n;
     activation_func := activation_func n;
     initial_activation := initial_activation n;
     activation := activation n;
     in_connections := in_connections n ++ [ci];
     out_connections := out_connections n |}.

(** Modelled from the spec: [ConnectionGene] is declared in [genes.py] too.
    "Attributes: innovation identifier, source node reference, destination
    node reference, weight, enabled flag". *)
Record ConnectionGene := {
  conn_id : Z;                      (* [.id] *)
  from_node : NodeRef;
  to_node : NodeRef;
  weight : Q;
  enabled : bool
}.

Definition set_enabled (b : bool) (c : ConnectionGene) : ConnectionGene :=
  {| conn_id := conn_id c; from_node := from_node c; to_node := to_node c;
     weight := weight c; enabled := b |}.

Definition set_weight (x : Q) (c : ConnectionGene) : ConnectionGene :=
  {| conn_id := conn_id c; from_node := from_node c; to_node := to_node c;
     weight := x; enabled := enabled c |}.

(** [activations.linear]. *)
Definition linear (x : Q) : Q := x.

(** ** The configuration read by the genome *)

Record Config := {
  out_nodes_activation : Q -> Q;
  hidden_nodes_activation : Q -> Q;
  initial_node_activation : Q;
  bias_value : option Q;
  new_weight_interval : Q * Q;
  weight_reset_chance : Q;
  weight_perturbation_pc : Q;
  excess_genes_coefficient : Q;
  disjoint_genes_coefficient : Q;
  weight_difference_coefficient : Q;
  allow_self_connections : bool;
  disable_inherited_connection_chance : Q
}.

(** ** genome.py: the genome *)

(** The id handler is one object shared by all genomes, so it is not a
    field here: it is part of the [World] a method runs in. *)
Record Genome := {
  config : Config;
  _id : Z;
  species_id : option Z;
  fitness : Q;
  adj_fitness : Q;
  _input_nodes : list NodeGene;
  _hidden_nodes : list NodeGene;
  _output_nodes : list NodeGene;
  _bias_node : option NodeGene;
  connections : list ConnectionGene;
  _activated_nodes : option (gmap Z bool)
}.

Definition with_input_nodes (l : list NodeGene) (g : Genome) : Genome :=
  {| config := config g; _id := _id g; species_id := species_id g;
     fitness := fitness g; adj_fitness := adj_fitness g;
     _input_nodes := l; _hidden_nodes := _hidden_nodes g;
     _output_nodes := _output_nodes g; _bias_node := _bias_node g;
     connections := connections g; _activated_nodes := _activated_nodes g |}.

Definition with_hidden_nodes (l : list NodeGene) (g : Genome) : Genome :=
  {| config := config g; _id := _id g; species_id := species_id g;
     fitness := fitness g; adj_fitness := adj_fitness g;
     _input_nodes := _input_nodes g; _hidden_nodes := l;
     _output_nodes := _output_nodes g; _bias_node := _bias_node g;
     connections := connections g; _activated_nodes := _activated_nodes g |}.

Definition with_output_nodes (l : list NodeGene) (g : Genome) : Genome :=
  {| config := config g; _id := _id g; species_id := species_id g;
     fitness := fitness g; adj_fitness := adj_fitness g;
     _input_nodes := _input_nodes g; _hidden_nodes := _hidden_nodes g;
     _output_nodes := l; _bias_node := _bias_node g;
     connections := connections g; _activated_nodes := _activated_nodes g |}.

Definition with_bias_node (b : option NodeGene) (g : Genome) : Genome :=
  {| config := config g; _id := _id g; species_id := species_id g;
     fitness := fitness g; adj_fitness := adj_fitness g;
     _input_nodes := _input_nodes g; _hidden_nodes := _hidden_nodes g;
     _output_nodes := _output_nodes g; _bias_node := b;
     connections := connections g; _activated_nodes := _activated_nodes g |}.

Definition with_connections (l : list ConnectionGene) (g : Genome) : Genome :=
  {| config := config g; _id := _id g; species_id := species_id g;
     fitness := fitness g; adj_fitness := adj_fitness g;
     _input_nodes := _input_nodes g; _hidden_nodes := _hidden_nodes g;
     _output_nodes := _output_nodes g; _bias_node := _bias_node g;
     connections := l; _activated_nodes := _activated_nodes g |}.

Definition with_activated_nodes (a : option (gmap Z bool)) (g : Genome)
  : Genome :=
  {| config := config g; _id := _id g; species_id := species_id g;
     fitness := fitness g; adj_fitness := adj_fitness g;
     _input_nodes := _input_nodes g; _hidden_nodes := _hidden_nodes g;
     _output_nodes := _output_nodes g; _bias_node := _bias_node g;
     connections := connections g; _activated_nodes := a |}.

(** Dereferencing and in-place update of a node gene. *)
Definition get_node (g : Genome) (r : NodeRef) : option NodeGene :=
  match r with
  | InputRef i => _input_nodes g !! i
  | BiasRef => _bias_node g
  | OutputRef i => _output_nodes g !! i
  | HiddenRef i => _hidden_nodes g !! i
  end.

Definition set_node (r : NodeRef) (n : NodeGene) (g : Genome) : Genome :=
  match r with
  | InputRef i => with_input_nodes (<[i := n]> (_input_nodes g)) g
  | BiasRef => with_bias_node (Some n) g
  | OutputRef i => with_output_nodes (<[i := n]> (_output_nodes g)) g
  | HiddenRef i => with_hidden_nodes (<[i := n]> (_hidden_nodes g)) g
  end.

(** [Genome.nodes]: "Order: inputs, bias, outputs and hidden"; as
    references and as the genes they name. *)
Definition node_refs (g : Genome) : list NodeRef :=
  map InputRef (seq 0 (length (_input_nodes g)))
  ++ (match _bias_node g with Some _ => [BiasRef] | None => [] end)
  ++ map OutputRef (seq 0 (length (_output_nodes g)))
  ++ map HiddenRef (seq 0 (length (_hidden_nodes g))).

Definition nodes (g : Genome) : list NodeGene :=
  _input_nodes g
  ++ (match _bias_node g with Some b => [b] | None => [] end)
  ++ _output_nodes g
  ++ _hidden_nodes g.

(** What a method of a genome runs in: the genome itself, the shared id
    handler and the random source. *)
Record World := {
  gen : Genome;
  handler : IdHandler.t;
  random : Rng
}.

Definition with_gen (g : Genome) (w : World) : World :=
  {| gen := g; handler := handler w; random := random w |}.

(** Modelled from the spec: [connection_exists(src, dest)] is a free function
    of [genes.py]; it "scans src's outgoing connections for a matching
    destination", a destination matching when it carries the identifier of
    [dest]. *)
Fixpoint scan_out_connections (g : Genome) (outs : list nat) (dest_id : Z)
  : option bool :=
  match outs with
  | [] => Some false
  | ci :: rest =>
      c ← connections g !! ci;
      n ← get_node g (to_node c);
      if decide (node_id n = dest_id) then Some true
      else scan_out_connections g rest dest_id
  end.

Definition connection_exists (g : Genome) (src dest : NodeGene)
  : option bool :=
  scan_out_connections g (out_connections src) (node_id dest).

(** The id handler as the genome calls it.  [genome.py] asks its id handler
    for [genome_id()], [connection_id(src, dest)] and
    [hidden_node_id(src, dest)]; the class of [id_handler.py] names its
    allocators [next_genome_id], [next_connection_id] and
    [next_hidden_node_id] and has no method of the shorter names, so with
    that class as it stands these calls end in [AttributeError].  The calls
    are read here as the allocators the class has: the model of a method of
    the genome goes on with the id the allocator hands out. *)
Definition on_handler {A} (m : IdHandler.t -> Outcome IdHandler.t A)
  : World -> Outcome World A :=
  fun w =>
    match m (handler w) with
    | Ok a h => Ok a {| gen := gen w; handler := h; random := random w |}
    | Raise e h => Raise e {| gen := gen w; handler := h; random := random w |}
    end.

Definition on_random {A} (m : Rng -> A * Rng) : World -> Outcome World A :=
  fun w =>
    let (a, r) := m (random w) in
    Ok a {| gen := gen w; handler := handler w; random := r |}.

Definition is_sink (ty : NodeType) : bool :=
  match ty with BIAS | INPUT => true | _ => false end.

(** The three appends that end [add_connection]: the new gene goes to the
    genome's connection sequence, to the outgoing list of its source and to
    the incoming list of its destination. *)
Definition link_connection (connection : ConnectionGene) (g : Genome)
  : Genome :=
  let ci := length (connections g) in
  let g1 := with_connections (connections g ++ [connection]) g in
  let g2 := match get_node g1 (from_node connection) with
            | Some s => set_node (from_node connection) (append_out ci s) g1
            | None => g1
            end in
  match get_node g2 (to_node connection) with
  | Some d => set_node (to_node connection) (append_in ci d) g2
  | None => g2
  end.

(** [Genome.add_connection] (the [delme] argument only prints). *)
Definition add_connection (src_node dest_node : NodeRef) (enabled : bool)
    (cid : option Z) (weight : option Q) : World -> Outcome World unit :=
  fun w =>
    match get_node (gen w) src_node, get_node (gen w) dest_node with
    | Some src, Some dest =>
        match connection_exists (gen w) src dest with
        | None => Raise BadReference w
        | Some true => Raise ConnectionExistsError w
        | Some false =>
            if is_sink (node_type dest) then Raise ConnectionToBiasNodeError w
            else
              (inov_id <- match cid with
                          | None => on_handler (IdHandler.next_connection_id
                                                  (node_id src) (node_id dest))
                          | Some i => ret i
                          end ;;
               wt <- match weight with
                     | None => on_random (uniform (new_weight_interval (config (gen w))).1
                                                  (new_weight_interval (config (gen w))).2)
                     | Some x => ret x
                     end ;;
               fun w1 =>
                 let connection :=
                   {| conn_id := inov_id; from_node := src_node;
                      to_node := dest_node; weight := wt;
                      enabled := enabled |} in
                 Ok tt (with_gen (link_connection connection (gen w1)) w1))%outcome w
        end
    | _, _ => Raise BadReference w
    end.

(** A [for] loop whose body may raise. *)
Fixpoint for_each {S A} (l : list A) (body : A -> S -> Outcome S unit)
  : S -> Outcome S unit :=
  match l with
  | [] => ret tt
  | x :: rest => (body x ;;; for_each rest body)%outcome
  end.

(** The genome as [__init__] has it before any node is created. *)
Definition blank_genome (cfg : Config) (gid : Z) : Genome :=
  {| config := cfg; _id := gid; species_id := None;
     fitness := 0; adj_fitness := 0;
     _input_nodes := []; _hidden_nodes := []; _output_nodes := [];
     _bias_node := None; connections := []; _activated_nodes := None |}.

(** The node counter of [__init__] once the inputs and the bias node exist. *)
Definition outputs_base (num_inputs : nat) (cfg : Config) : Z :=
  Z.of_nat num_inputs + (match bias_value cfg with Some _ => 1 | None => 0 end).

(** One round of the output loop of [__init__]: the [k]-th output node is
    created and, with [initial_connections], linked to every input node. *)
Definition init_output (num_inputs : nat) (initial_connections : bool)
    (k : nat) : World -> Outcome World unit :=
  fun w =>
    let g := gen w in
    let out_node :=
      new_NodeGene (outputs_base num_inputs (config g) + Z.of_nat k) OUTPUT
                   (out_nodes_activation (config g))
                   (initial_node_activation (config g)) in
    let w1 := with_gen (with_output_nodes (_output_nodes g ++ [out_node]) g) w in
    if initial_connections then
      for_each (seq 0 (length (_input_nodes g)))
               (fun i => add_connection (InputRef i) (OutputRef k) true None None)
               w1
    else Ok tt w1.

(** [Genome.__init__]; the new genome is the [gen] of the world it ends in. *)
Definition Genome__init__ (num_inputs num_outputs : nat) (cfg : Config)
    (genome_id : option Z) (initial_connections : bool)
    (h : IdHandler.t) (r : Rng) : Outcome World unit :=
  let start := {| gen := blank_genome cfg 0; handler := h; random := r |} in
  (gid <- match genome_id with
          | Some i => ret i
          | None => on_handler IdHandler.next_genome_id
          end ;;
   fun w =>
     let inputs :=
       map (fun i => new_NodeGene (Z.of_nat i) INPUT linear
                                  (initial_node_activation cfg))
           (seq 0 num_inputs) in
     let bias :=
       match bias_value cfg with
       | Some b => Some (new_NodeGene (Z.of_nat num_inputs) BIAS linear b)
       | None => None
       end in
     let g := with_bias_node bias
                (with_input_nodes inputs (blank_genome cfg gid)) in
     for_each (seq 0 num_outputs)
              (init_output num_inputs initial_connections)
              (with_gen g w))%outcome start.

(** [Genome.shallow_copy]. *)
Definition shallow_copy (self : Genome) (h : IdHandler.t) (r : Rng)
  : Outcome World unit :=
  Genome__init__ (length (_input_nodes self)) (length (_output_nodes self))
                 (config self) None false h r.

(** [Genome.enable_random_connection]. *)
Definition enable_random_connection : World -> Outcome World unit :=
  fun w =>
    let g := gen w in
    let disabled :=
      List.filter (fun ci => match connections g !! ci with
                             | Some c => negb (enabled c)
                             | None => false
                             end)
                  (seq 0 (length (connections g))) in
    match disabled with
    | [] => Ok tt w
    | _ :: _ =>
        let (k, r) := choice_index (length disabled) (random w) in
        let g' := match disabled !! k with
                  | Some ci => with_connections
                                 (alter (set_enabled true) ci (connections g)) g
                  | None => g
                  end in
        Ok tt {| gen := g'; handler := handler w; random := r |}
    end.

(** [Genome.add_random_hidden_node]; it returns (a reference to) the node
    it created. *)
Definition add_random_hidden_node : World -> Outcome World NodeRef :=
  fun w =>
    let g := gen w in
    match connections g with
    | [] => Raise ValueError w
    | _ :: _ =>
        let (k, r) := choice_index (length (connections g)) (random w) in
        match connections g !! k with
        | None => Raise BadReference w
        | Some original_connection =>
            let g1 := with_connections
                        (<[k := set_enabled false original_connection]>
                           (connections g)) g in
            let w1 := {| gen := g1; handler := handler w; random := r |} in
            let src_node := from_node original_connection in
            let dest_node := to_node original_connection in
            match get_node g1 src_node, get_node g1 dest_node with
            | Some src, Some dest =>
                (hid <- on_handler (IdHandler.next_hidden_node_id
                                      (Some (node_id src)) (Some (node_id dest))) ;;
                 fun w2 =>
                   let g2 := gen w2 in
                   let new_node := HiddenRef (length (_hidden_nodes g2)) in
                   let g3 :=
                     with_hidden_nodes
                       (_hidden_nodes g2 ++
                          [new_NodeGene hid HIDDEN
                             (hidden_nodes_activation (config g2))
                             (initial_node_activation (config g2))]) g2 in
                   (add_connection src_node new_node true None (Some 1%Q) ;;;
                    add_connection new_node dest_node true None
                                   (Some (weight original_connection)) ;;;
                    ret new_node) (with_gen g3 w2))%outcome w1
            | _, _ => Raise BadReference w1
            end
        end
    end.

(** The loop of [Genome.mutate_weights] over the connection genes. *)
Fixpoint mutate_weights_loop (cfg : Config) (cs : list ConnectionGene)
    (r : Rng) : list ConnectionGene * Rng :=
  match cs with
  | [] => ([], r)
  | connection :: rest =>
      let (reset, r1) := chance (weight_reset_chance cfg) r in
      let (connection', r2) :=
        if reset then
          let (x, r2) := uniform (new_weight_interval cfg).1
                                 (new_weight_interval cfg).2 r1 in
          (set_weight x connection, r2)
        else
          let (u, r2) := uniform (- weight_perturbation_pc cfg)
                                 (weight_perturbation_pc cfg) r1 in
          let d := (weight connection * u)%Q in
          (set_weight (weight connection + d) connection, r2) in
      let (rest', r3) := mutate_weights_loop cfg rest r2 in
      (connection' :: rest', r3)
  end.

(** [Genome.mutate_weights]. *)
Definition mutate_weights : World -> Outcome World unit :=
  fun w =>
    let g := gen w in
    let (cs, r) := mutate_weights_loop (config g) (connections g) (random w) in
    Ok tt {| gen := with_connections cs g; handler := handler w; random := r |}.

(** ** Forward evaluation *)

(** [self._activated_nodes[n.id]]. *)
Definition is_activated (g : Genome) (nid : Z) : option bool :=
  a ← _activated_nodes g; a !! nid.

Definition mark_activated (nid : Z) (g : Genome) : Genome :=
  with_activated_nodes
    (match _activated_nodes g with
     | Some a => Some (<[nid := true]> a)
     | None => None
     end) g.

(** The loop [for connection in n.in_connections] of [_process_node];
    [visit] is the recursive call. *)
Fixpoint sum_inputs (visit : NodeRef -> Genome -> Outcome Genome Q)
    (cs : list nat) (zsum : Q) (g : Genome) : Outcome Genome Q :=
  match cs with
  | [] => Ok zsum g
  | ci :: rest =>
      match connections g !! ci with
      | None => Raise BadReference g
      | Some connection =>
          if enabled connection then
            match visit (from_node connection) g with
            | Ok v g' => sum_inputs visit rest (zsum + weight connection * v)%Q g'
            | Raise e g' => Raise e g'
            end
          else sum_inputs visit rest zsum g
      end
  end.

(** [Genome._process_node].  The recursion of the source is bounded by
    [fuel]; [process] supplies one more than the number of nodes that can be
    marked, which is enough (see [process_node_returns]). *)
Fixpoint _process_node (fuel : nat) (n : NodeRef) (g : Genome)
  : Outcome Genome Q :=
  match fuel with
  | O => Raise OutOfFuel g
  | S fuel' =>
      match get_node g n with
      | None => Raise BadReference g
      | Some node =>
          if is_sink (node_type node) then Ok (activation node) g
          else
            match is_activated g (node_id node) with
            | None => Raise KeyError g
            | Some true => Ok (activation node) g
            | Some false =>
                match sum_inputs (_process_node fuel') (in_connections node)
                        0%Q (mark_activated (node_id node) g) with
                | Ok zsum g' =>
                    match get_node g' n with
                    | Some node' =>
                        let node'' := activate zsum node' in
                        Ok (activation node'') (set_node n node'' g')
                    | None => Raise BadReference g'
                    end
                | Raise e g' => Raise e g'
                end
            end
      end
  end.

(** A loop that collects what its body returns. *)
Fixpoint collect {S A B} (l : list A) (body : A -> S -> Outcome S B)
  : S -> Outcome S (list B) :=
  match l with
  | [] => ret []
  | x :: rest =>
      (y <- body x ;; ys <- collect rest body ;; ret (y :: ys))%outcome
  end.

(** The dictionary [{n.id: False for n in ns}]. *)
Definition all_unmarked (ns : list NodeGene) : gmap Z bool :=
  foldl (fun a n => <[node_id n := false]> a) ∅ ns.

(** [Genome.process]. *)
Definition process (X : list Q) (g : Genome) : Outcome Genome (list Q) :=
  if negb (length X =? length (_input_nodes g))%nat then Raise AssertionError g
  else
    let g1 := with_input_nodes
                (zip_with (fun n x => activate x n) (_input_nodes g) X) g in
    let g2 := with_activated_nodes
                (Some (all_unmarked (_output_nodes g1 ++ _hidden_nodes g1))) g1 in
    collect (seq 0 (length (_output_nodes g2)))
            (fun i => _process_node
                        (S (length (_output_nodes g2) + length (_hidden_nodes g2)))
                        (OutputRef i))
            g2.

(** ** Gene alignment *)

(** Modelled from the spec: [align_connections] is a free function of
    [genes.py].  "A linear merge (two-pointer walk comparable to merge-sort
    merging) by ascending identifier": equal identifiers share a slot, an
    identifier present on one side only gets a slot whose other side is
    absent.  [align_slots] is the walk, [align_connections] the "two parallel
    sequences of equal length" it returns. *)
Fixpoint align_slots (l1 : list ConnectionGene)
  : list ConnectionGene -> list (option ConnectionGene * option ConnectionGene) :=
  fix walk (l2 : list ConnectionGene) :=
    match l1, l2 with
    | [], _ => map (fun c => (None, Some c)) l2
    | _, [] => map (fun c => (Some c, None)) l1
    | a :: l1', b :: l2' =>
        if (conn_id a <? conn_id b)%Z then (Some a, None) :: align_slots l1' l2
        else if (conn_id b <? conn_id a)%Z then (None, Some b) :: walk l2'
        else (Some a, Some b) :: align_slots l1' l2'
    end.

Definition align_connections (l1 l2 : list ConnectionGene)
  : list (option ConnectionGene) * list (option ConnectionGene) :=
  (map fst (align_slots l1 l2), map snd (align_slots l1 l2)).

(** ** The distance between two genomes *)

(** [np.amax] of a list of ids; it raises [ValueError] on an empty list. *)
Definition amax (l : list Z) : option Z :=
  match l with
  | [] => None
  | x :: rest => Some (foldl Z.max x rest)
  end.

(** The counters of the loop of [Genome.distance]. *)
Record Tally := {
  excess : nat;
  disjoint : nat;
  weight_diff : Q;
  num_matches : nat
}.

(** One round of the loop of [Genome.distance]. *)
Definition tally_slot (g1_max_innov g2_max_innov : Z) (t : Tally)
    (slot : option ConnectionGene * option ConnectionGene) : Exn + Tally :=
  match slot with
  | (None, None) => inl AttributeError
  | (None, Some c2) =>
      inr (if (conn_id c2 >? g1_max_innov)%Z
           then {| excess := S (excess t); disjoint := disjoint t;
                   weight_diff := weight_diff t; num_matches := num_matches t |}
           else {| excess := excess t; disjoint := S (disjoint t);
                   weight_diff := weight_diff t; num_matches := num_matches t |})
  | (Some c1, None) =>
      inr (if (conn_id c1 >? g2_max_innov)%Z
           then {| excess := S (excess t); disjoint := disjoint t;
                   weight_diff := weight_diff t; num_matches := num_matches t |}
           else {| excess := excess t; disjoint := S (disjoint t);
                   weight_diff := weight_diff t; num_matches := num_matches t |})
  | (Some c1, Some c2) =>
      inr {| excess := excess t; disjoint := disjoint t;
             weight_diff := weight_diff t + Qabs (weight c1 - weight c2);
             num_matches := S (num_matches t) |}
  end.

Fixpoint tally_slots (g1_max_innov g2_max_innov : Z) (t : Tally)
    (slots : list (option ConnectionGene * option ConnectionGene))
  : Exn + Tally :=
  match slots with
  | [] => inr t
  | slot :: rest =>
      match tally_slot g1_max_innov g2_max_innov t slot with
      | inl e => inl e
      | inr t' => tally_slots g1_max_innov g2_max_innov t' rest
      end
  end.

Definition count_Q (n : nat) : Q := inject_Z (Z.of_nat n).

(** [Genome.distance]. *)
Definition distance (self other : Genome) : Exn + Q :=
  let genes := align_connections (connections self) (connections other) in
  match amax (map conn_id (connections self)),
        amax (map conn_id (connections other)) with
  | Some g1_max_innov, Some g2_max_innov =>
      match tally_slots g1_max_innov g2_max_innov
              {| excess := 0; disjoint := 0; weight_diff := 0;
                 num_matches := 0 |}
              (zip genes.1 genes.2) with
      | inl e => inl e
      | inr t =>
          let c1 := excess_genes_coefficient (config self) in
          let c2 := disjoint_genes_coefficient (config self) in
          let c3 := weight_difference_coefficient (config self) in
          let n := Nat.max (length (connections self))
                           (length (connections other)) in
          if (n =? 0)%nat then inl ZeroDivisionError
          else if (num_matches t =? 0)%nat then inl ZeroDivisionError
          else inr (((c1 * count_Q (excess t) + c2 * count_Q (disjoint t))
                     / count_Q n)
                    + c3 * weight_diff t / count_Q (num_matches t))%Q
      end
  | _, _ => inl ValueError
  end.

(** ** Crossover *)

Definition Qgtb (a b : Q) : bool :=
  match (a ?= b)%Q with Gt => true | _ => false end.

(** The body of [for n in (c.from_node, c.to_node)] in [mate_genomes]:
    a hidden endpoint whose id is not yet in [added_nodes] is copied into
    the offspring.  [parent] is the genome that owns the chosen gene. *)
Definition adopt_endpoint (parent : Genome) (n : NodeRef)
    (added_nodes : gmap Z NodeRef) (new_gen : Genome)
  : option (gmap Z NodeRef * Genome) :=
  node ← get_node parent n;
  if decide (node_type node = HIDDEN ∧ added_nodes !! node_id node = None)
  then
    Some (<[node_id node := HiddenRef (length (_hidden_nodes new_gen))]> added_nodes,
          with_hidden_nodes (_hidden_nodes new_gen ++ [node_shallow_copy node])
                            new_gen)
  else Some (added_nodes, new_gen).

Definition is_disabled (c : option ConnectionGene) : bool :=
  match c with
  | Some c => negb (enabled c)
  | None => false
  end.

(** The value [mate_genomes] binds to [enabled]:
    [(disabled in c1 or disabled in c2) and utils.chance(...)]; the draw is
    made only when the left operand holds. *)
Definition inherited_enabled (c1 c2 : option ConnectionGene) (p : Q)
    (r : Rng) : bool * Rng :=
  if is_disabled c1 || is_disabled c2 then chance p r else (false, r).

(** What [mate_genomes] does with the gene [c] it chose from [parent]. *)
Definition inherit_gene (gen1 parent : Genome)
    (c1 c2 : option ConnectionGene) (c : ConnectionGene)
    (added_nodes : gmap Z NodeRef) : World -> Outcome World (gmap Z NodeRef) :=
  fun w =>
    match adopt_endpoint parent (from_node c) added_nodes (gen w) with
    | None => Raise BadReference w
    | Some (added1, g1) =>
        match adopt_endpoint parent (to_node c) added1 g1 with
        | None => Raise BadReference (with_gen g1 w)
        | Some (added2, g2) =>
            let (en, r) :=
              inherited_enabled c1 c2
                (disable_inherited_connection_chance (config gen1))
                (random w) in
            let w2 := {| gen := g2; handler := handler w; random := r |} in
            match get_node parent (from_node c), get_node parent (to_node c) with
            | Some src, Some dest =>
                match added2 !! node_id src, added2 !! node_id dest with
                | Some src_node, Some dest_node =>
                    match add_connection src_node dest_node en
                            (Some (conn_id c)) (Some (weight c)) w2 with
                    | Ok _ w3 => Ok added2 w3
                    | Raise ConnectionExistsError w3 => Ok added2 w3
                    | Raise e w3 => Raise e w3
                    end
                | _, _ => Raise KeyError w2
                end
            | _, _ => Raise BadReference w2
            end
        end
    end.

(** One round of the loop of [mate_genomes]. *)
Definition mate_slot (gen1 gen2 : Genome)
    (slot : option ConnectionGene * option ConnectionGene)
    (added_nodes : gmap Z NodeRef) : World -> Outcome World (gmap Z NodeRef) :=
  fun w =>
    let (c1, c2) := slot in
    if (if c1 is None then Qgtb (adj_fitness gen1) (adj_fitness gen2) else false)
    then Ok added_nodes w
    else if (if c2 is None then Qgtb (adj_fitness gen2) (adj_fitness gen1) else false)
    then Ok added_nodes w
    else
      let (k, r) := choice_index 2 (random w) in
      let w1 := {| gen := gen w; handler := handler w; random := r |} in
      match (if decide (k = 0%nat) then (c1, gen1) else (c2, gen2)) with
      | (Some c, parent) => inherit_gene gen1 parent c1 c2 c added_nodes w1
      | (None, _) => Ok added_nodes w1
      end.

Fixpoint mate_loop (gen1 gen2 : Genome)
    (slots : list (option ConnectionGene * option ConnectionGene))
    (added_nodes : gmap Z NodeRef) : World -> Outcome World (gmap Z NodeRef) :=
  match slots with
  | [] => ret added_nodes
  | slot :: rest =>
      (added <- mate_slot gen1 gen2 slot added_nodes ;;
       mate_loop gen1 gen2 rest added)%outcome
  end.

(** The dictionary [{n.id: n for n in new_gen.nodes()}]. *)
Definition index_nodes (g : Genome) : gmap Z NodeRef :=
  foldl (fun a r => match get_node g r with
                    | Some n => <[node_id n := r]> a
                    | None => a
                    end) ∅ (node_refs g).

(** [mate_genomes]; the offspring is the [gen] of the world it ends in. *)
Definition mate_genomes (gen1 gen2 : Genome) (h : IdHandler.t) (r : Rng)
  : Outcome World unit :=
  let genes := align_connections (connections gen1) (connections gen2) in
  match shallow_copy gen1 h r with
  | Raise e w => Raise e w
  | Ok _ w =>
      match mate_loop gen1 gen2 (zip genes.1 genes.2) (index_nodes (gen w)) w with
      | Ok _ w' => Ok tt w'
      | Raise e w' => Raise e w'
      end
  end.

(** ** Properties of genomes used by the statements *)

(** The node counter of [__init__] once every initial node exists. *)
Definition hidden_base (g : Genome) : Z :=
  Z.of_nat (length (_input_nodes g))
  + (match _bias_node g with Some _ => 1 | None => 0 end)
  + Z.of_nat (length (_output_nodes g)).

Definition sink_base (g : Genome) : Z :=
  Z.of_nat (length (_input_nodes g))
  + (match _bias_node g with Some _ => 1 | None => 0 end).

Definition ref_in_range (g : Genome) (r : NodeRef) : Prop :=
  match r with
  | InputRef i => (i < length (_input_nodes g))%nat
  | BiasRef => _bias_node g <> None
  | OutputRef i => (i < length (_output_nodes g))%nat
  | HiddenRef i => (i < length (_hidden_nodes g))%nat
  end.

Definition is_sink_ref (r : NodeRef) : bool :=
  match r with InputRef _ | BiasRef => true | _ => false end.

(** A valid genome: the initial nodes are the ones [__init__] creates
    (inputs numbered from 0, then the bias node when the configuration has a
    bias value, then the outputs), hidden nodes carry ids outside that range,
    every connection gene joins two nodes of the genome and does not lead
    into an input or bias node. *)
Definition valid_genome (g : Genome) : Prop :=
  map node_id (_input_nodes g)
    = map Z.of_nat (seq 0 (length (_input_nodes g)))
  /\ Forall (fun n => node_type n = INPUT) (_input_nodes g)
  /\ match _bias_node g, bias_value (config g) with
     | Some b, Some _ =>
         node_id b = Z.of_nat (length (_input_nodes g)) /\ node_type b = BIAS
     | None, None => True
     | _, _ => False
     end
  /\ map node_id (_output_nodes g)
       = map (fun k => sink_base g + Z.of_nat k)%Z
             (seq 0 (length (_output_nodes g)))
  /\ Forall (fun n => node_type n = OUTPUT) (_output_nodes g)
  /\ Forall (fun n => node_type n = HIDDEN
                      /\ (node_id n < 0 \/ hidden_base g <= node_id n)%Z)
            (_hidden_nodes g)
  /\ Forall (fun c => ref_in_range g (from_node c)
                      /\ ref_in_range g (to_node c)
                      /\ is_sink_ref (to_node c) = false)
            (connections g).

(** The adjacency lists agree with the connection sequence: a node lists
    as outgoing (incoming) only genes that leave (reach) it, and every gene
    is listed by both of its endpoints. *)
Definition lists_only (g : Genome) (r : NodeRef) (n : NodeGene) : Prop :=
  Forall (fun ci => match connections g !! ci with
                    | Some c => from_node c = r
                    | None => False
                    end) (out_connections n)
  /\ Forall (fun ci => match connections g !! ci with
                       | Some c => to_node c = r
                       | None => False
                       end) (in_connections n).

Definition listed (g : Genome) (ci : nat) (c : ConnectionGene) : Prop :=
  match get_node g (from_node c), get_node g (to_node c) with
  | Some s, Some d => ci ∈ out_connections s /\ ci ∈ in_connections d
  | _, _ => False
  end.

Definition adjacency_consistent (g : Genome) : Prop :=
  Forall (fun r => match get_node g r with
                   | Some n => lists_only g r n
                   | None => True
                   end) (node_refs g)
  /\ Forall (fun p => listed g p.1 p.2) (imap pair (connections g)).

Global Instance ref_in_range_dec g r : Decision (ref_in_range g r).
Proof. destruct r; simpl; apply _. Defined.

Global Instance lists_only_dec g r n : Decision (lists_only g r n).
Proof.
  unfold lists_only. apply and_dec; apply Forall_dec; intros ci;
    destruct (connections g !! ci); apply _.
Defined.

Global Instance listed_dec g ci c : Decision (listed g ci c).
Proof.
  unfold listed.
  destruct (get_node g (from_node c)), (get_node g (to_node c)); apply _.
Defined.

Global Instance adjacency_consistent_dec g : Decision (adjacency_consistent g).
Proof.
  unfold adjacency_consistent. apply and_dec; apply Forall_dec.
  - intros r. destruct (get_node g r); apply _.
  - intros p. apply _.
Defined.

Global Instance valid_genome_dec g : Decision (valid_genome g).
Proof.
  unfold valid_genome.
  destruct (_bias_node g), (bias_value (config g)); apply _.
Defined.

(** Two genomes of one population: the same numbers of input and output
    nodes, and a bias node in both or in neither. *)
Definition same_layout (g1 g2 : Genome) : Prop :=
  length (_input_nodes g1) = length (_input_nodes g2)
  /\ length (_output_nodes g1) = length (_output_nodes g2)
  /\ (_bias_node g1 = None <-> _bias_node g2 = None).

(** The (source id, destination id) pair of a connection gene of [g]. *)
Definition endpoint_ids (g : Genome) (c : ConnectionGene) : option (Z * Z) :=
  s ← get_node g (from_node c);
  d ← get_node g (to_node c);
  Some (node_id s, node_id d).

(** What [mutate_weights] must leave alone in a connection gene. *)
Definition skeleton (c : ConnectionGene) : Z * NodeRef * NodeRef * bool :=
  (conn_id c, from_node c, to_node c, enabled c).

(** ** The slots of an alignment, by class *)

(** A matching slot holds a gene on both sides. *)
Definition is_matching (slot : option ConnectionGene * option ConnectionGene)
  : bool :=
  match slot with (Some _, Some _) => true | _ => false end.

(** A non-matching slot is excess when the identifier of its gene is
    strictly greater than the maximum identifier of the genome that lacks
    the gene ([max1] for the first genome, [max2] for the second). *)
Definition is_excess (max1 max2 : Z)
    (slot : option ConnectionGene * option ConnectionGene) : bool :=
  match slot with
  | (None, Some c2) => bool_decide (max1 < conn_id c2)%Z
  | (Some c1, None) => bool_decide (max2 < conn_id c1)%Z
  | _ => false
  end.

(** Disjoint: every other non-matching slot. *)
Definition is_disjoint (max1 max2 : Z)
    (slot : option ConnectionGene * option ConnectionGene) : bool :=
  negb (is_matching slot) && negb (is_excess max1 max2 slot).

Definition slot_weight_difference
    (slot : option ConnectionGene * option ConnectionGene) : Q :=
  match slot with
  | (Some c1, Some c2) => Qabs (weight c1 - weight c2)
  | _ => 0
  end.

Definition Qsum (l : list Q) : Q := foldr Qplus 0%Q l.

(** The maximum identifier of a non-empty sequence of genes. *)
Definition max_id (cs : list ConnectionGene) : Z :=
  foldr Z.max (match cs with c :: _ => conn_id c | [] => 0%Z end)
        (map conn_id cs).



(** ** The distance, as the specification words it *)









(** What the appends of [link_connection] do to the node named [r]. *)
Definition touch (c : ConnectionGene) (ci : nat) (r : NodeRef) (n : NodeGene)
  : NodeGene :=
  let n1 := if decide (r = from_node c) then append_out ci n else n in
  if decide (r = to_node c) then append_in ci n1 else n1.

(** The parent that lacks the gene of a slot is strictly fitter. *)
Definition lacking_parent_dominates (gen1 gen2 : Genome)
    (slot : option ConnectionGene * option ConnectionGene) : Prop :=
  match slot with
  | (None, Some _) => (adj_fitness gen2 < adj_fitness gen1)%Q
  | (Some _, None) => (adj_fitness gen1 < adj_fitness gen2)%Q
  | _ => False
  end.

(** ** Invariants of the forward evaluation *)

(** The nodes that are still to be activated. *)
Definition unvisited (g : Genome) : nat :=
  match _activated_nodes g with
  | Some a => size (filter (fun p : Z * bool => p.2 = false) a)
  | None => 0
  end.

(** A node whose activation the evaluation will not touch any more. *)
Definition frozen (g : Genome) (n : NodeGene) : Prop :=
  is_sink (node_type n) = true \/ is_activated g (node_id n) = Some true.

Definition same_shape (n n' : NodeGene) : Prop :=
  node_id n' = node_id n /\ node_type n' = node_type n
  /\ in_connections n' = in_connections n.

(** What the evaluation may change between two states: activations of
    nodes that are not frozen, and marks from unmarked to marked. *)
Record evolves (g g' : Genome) : Prop := {
  ev_connections : connections g' = connections g;
  ev_shape : forall r,
    match get_node g r, get_node g' r with
    | Some n, Some n' => same_shape n n'
    | None, None => True
    | _, _ => False
    end;
  ev_marks : forall k,
    is_activated g k = Some true -> is_activated g' k = Some true;
  ev_keys : forall k,
    is_Some (is_activated g k) <-> is_Some (is_activated g' k);
  ev_frozen : forall r n,
    get_node g r = Some n -> frozen g n -> get_node g' r = Some n
}.

(** What the evaluation relies on: every node that can be activated has a
    mark, and incoming lists name connections that leave a node. *)
Definition processable (g : Genome) : Prop :=
  (forall r n, get_node g r = Some n -> is_sink (node_type n) = false ->
               is_Some (is_activated g (node_id n)))
  /\ (forall r n ci, get_node g r = Some n -> ci ∈ in_connections n ->
        exists c, connections g !! ci = Some c
                  /\ is_Some (get_node g (from_node c))).

(** What a visit of the node [n] from the state [g] delivers: a value, a
    state that [g] evolves to with no more unvisited nodes than before, and
    the value is the activation of [n], now frozen. *)
Definition visit_ok (g : Genome) (n : NodeRef) (o : Outcome Genome Q) : Prop :=
  exists v g',
    o = Ok v g' /\ evolves g g' /\ (unvisited g' <= unvisited g)%nat
    /\ exists node', get_node g' n = Some node'
                     /\ activation node' = v /\ frozen g' node'.

(** The state [process] hands to the first visit. *)
Definition fed (X : list Q) (g : Genome) : Genome :=
  let g1 := with_input_nodes
              (zip_with (fun n x => activate x n) (_input_nodes g) X) g in
  with_activated_nodes
    (Some (all_unmarked (_output_nodes g1 ++ _hidden_nodes g1))) g1.

(** ** Invariants of the crossover *)

(** What [shallow_copy] builds. *)
Definition copied (self : Genome) (gid : Z) : Genome :=
  {| config := config self; _id := gid; species_id := None;
     fitness := 0; adj_fitness := 0;
     _input_nodes :=
       map (fun i => new_NodeGene (Z.of_nat i) INPUT linear
                                  (initial_node_activation (config self)))
           (seq 0 (length (_input_nodes self)));
     _hidden_nodes := [];
     _output_nodes :=
       map (fun k =>
              new_NodeGene
                (outputs_base (length (_input_nodes self)) (config self)
                 + Z.of_nat k)
                OUTPUT (out_nodes_activation (config self))
                (initial_node_activation (config self)))
           (seq 0 (length (_output_nodes self)));
     _bias_node :=
       match bias_value (config self) with
       | Some b => Some (new_NodeGene (Z.of_nat (length (_input_nodes self)))
                                      BIAS linear b)
       | None => None
       end;
     connections := [];
     _activated_nodes := None |}.

(** In a valid genome the id of an initial node is fixed by its
    reference. *)
Definition initial_id (g : Genome) (r : NodeRef) : Z :=
  match r with
  | InputRef i => Z.of_nat i
  | BiasRef => Z.of_nat (length (_input_nodes g))
  | OutputRef k => sink_base g + Z.of_nat k
  | HiddenRef _ => 0
  end.

(** The invariant of the loop of [mate_genomes]: [added_nodes] names the
    nodes of the offspring by id, one node per id and every initial id
    taken; input and bias nodes carry ids below [sinks]; every connection
    gene is listed by its source, outgoing lists name connection genes, and
    no two genes join the same pair of ids. *)
Record mate_inv (base sinks : Z) (added_nodes : gmap Z NodeRef)
    (g : Genome) : Prop := {
  inv_sound : forall k r,
    added_nodes !! k = Some r ->
    exists n, get_node g r = Some n /\ node_id n = k;
  inv_complete : forall r n,
    get_node g r = Some n -> added_nodes !! node_id n = Some r;
  inv_initial : forall k, (0 <= k < base)%Z -> is_Some (added_nodes !! k);
  inv_sinks : forall r n,
    get_node g r = Some n -> is_sink (node_type n) = true ->
    (0 <= node_id n < sinks)%Z;
  inv_listed : forall ci c,
    connections g !! ci = Some c ->
    exists s, get_node g (from_node c) = Some s
              /\ ci ∈ out_connections s
              /\ is_Some (get_node g (to_node c));
  inv_outs : forall r s ci,
    get_node g r = Some s -> ci ∈ out_connections s ->
    is_Some (connections g !! ci);
  inv_nodup : NoDup (map (endpoint_ids g) (connections g))
}.

(** What the loop needs to know about a gene of a parent: its endpoints
    are nodes of the parent, an endpoint that is not hidden carries an
    initial id, and the destination does not carry the id of an input or
    bias node. *)
Definition parent_gene_ok (base sinks : Z) (parent : Genome)
    (c : ConnectionGene) : Prop :=
  exists src dest,
    get_node parent (from_node c) = Some src
    /\ get_node parent (to_node c) = Some dest
    /\ (node_type src = HIDDEN \/ (0 <= node_id src < base)%Z)
    /\ (node_type dest = HIDDEN \/ (0 <= node_id dest < base)%Z)
    /\ (node_id dest < 0 \/ sinks <= node_id dest)%Z.

(** ** Invariants of the id handler *)

(** The id a two-level cache holds for a pair. *)
Definition cached (cache : gmap Z (gmap Z Z)) (s d : Z) : option Z :=
  row ← cache !! s; row !! d.

(** Every cached id lies below the counter it was taken from, and no id is
    cached for two pairs. *)
Definition cache_ok (cache : gmap Z (gmap Z Z)) (counter : Z) : Prop :=
  (forall s d i, cached cache s d = Some i -> (i < counter)%Z)
  /\ (forall s d s' d' i,
         cached cache s d = Some i -> cached cache s' d' = Some i ->
         s = s' /\ d = d').

Definition handler_ok (h : IdHandler.t) : Prop :=
  cache_ok (IdHandler._new_nodes_ids h) (IdHandler._node_counter h)
  /\ cache_ok (IdHandler._new_connections_ids h)
              (IdHandler._connection_counter h).

(** The states an id handler goes through: it is created by [__init__] and
    then only touched by its methods. *)
Inductive handler_run : IdHandler.t -> Prop :=
  | run_init ni no b : handler_run (IdHandler.__init__ ni no b)
  | run_reset h : handler_run h -> handler_run (IdHandler.reset h)
  | run_genome h :
      handler_run h -> handler_run (final_state (IdHandler.next_genome_id h))
  | run_species h :
      handler_run h -> handler_run (final_state (IdHandler.next_species_id h))
  | run_hidden h s d :
      handler_run h ->
      handler_run (final_state (IdHandler.next_hidden_node_id s d h))
  | run_connection h s d :
      handler_run h ->
      handler_run (final_state (IdHandler.next_connection_id s d h)).

(** ** The invariant of the loops of [__init__] *)

(** While the [k]-th output node is being linked and the inputs before the
    [i]-th are done: the genome is valid and consistent, has [ni] inputs and
    no hidden node, and every connection gene is enabled and joins an input
    to an output handled so far. *)
Definition init_inv (cfg : Config) (ni : nat) (initial_connections : bool)
    (k i : nat) (g : Genome) : Prop :=
  valid_genome g /\ adjacency_consistent g
  /\ config g = cfg
  /\ length (_input_nodes g) = ni
  /\ _hidden_nodes g = []
  /\ length (connections g)
     = (if initial_connections then ni * k + i else 0)%nat
  /\ Forall (fun c =>
               enabled c = true
               /\ exists i' j,
                    from_node c = InputRef i' /\ to_node c = OutputRef j
                    /\ (j < k \/ (j = k /\ i' < i))%nat)
            (connections g).

(** ** [Genome.deep_copy] *)

(** One round of the loop of [deep_copy]: hidden endpoints of [c] that the
    copy does not have yet are copied into it, then the gene is added between
    the copies of its endpoints.  Nothing is caught: an error of
    [add_connection] ends the copy. *)
Definition copy_gene (self : Genome) (c : ConnectionGene)
    (added_nodes : gmap Z NodeRef) : World -> Outcome World (gmap Z NodeRef) :=
  fun w =>
    match adopt_endpoint self (from_node c) added_nodes (gen w) with
    | None => Raise BadReference w
    | Some (added1, g1) =>
        match adopt_endpoint self (to_node c) added1 g1 with
        | None => Raise BadReference (with_gen g1 w)
        | Some (added2, g2) =>
            let w2 := with_gen g2 w in
            match get_node self (from_node c), get_node self (to_node c) with
            | Some src, Some dest =>
                match added2 !! node_id src, added2 !! node_id dest with
                | Some src_node, Some dest_node =>
                    (add_connection src_node dest_node (enabled c)
                                    (Some (conn_id c)) (Some (weight c)) ;;;
                     ret added2)%outcome w2
                | _, _ => Raise KeyError w2
                end
            | _, _ => Raise BadReference w2
            end
        end
    end.

Fixpoint deep_copy_loop (self : Genome) (cs : list ConnectionGene)
    (added_nodes : gmap Z NodeRef) : World -> Outcome World (gmap Z NodeRef) :=
  match cs with
  | [] => ret added_nodes
  | c :: rest =>
      (added <- copy_gene self c added_nodes ;;
       deep_copy_loop self rest added)%outcome
  end.

(** [Genome.deep_copy]; the copy is the [gen] of the world it ends in. *)
Definition deep_copy (self : Genome) (h : IdHandler.t) (r : Rng)
  : Outcome World unit :=
  match shallow_copy self h r with
  | Raise e w => Raise e w
  | Ok _ w =>
      match deep_copy_loop self (connections self) (index_nodes (gen w)) w with
      | Ok _ w' => Ok tt w'
      | Raise e w' => Raise e w'
      end
  end.

(** What a copy of a connection gene keeps whatever its endpoints are
    called. *)
Definition gene_payload (c : ConnectionGene) : Z * Q * bool :=
  (conn_id c, weight c, enabled c).

(** The invariant of the loop of [deep_copy] once the genes [done] have been
    copied. *)
Record copy_inv (self : Genome) (done : list ConnectionGene)
    (added_nodes : gmap Z NodeRef) (g : Genome) : Prop := {
  cinv_mate : mate_inv (hidden_base self) (sink_base self) added_nodes g;
  cinv_valid : valid_genome g;
  cinv_consistent : adjacency_consistent g;
  cinv_base : hidden_base g = hidden_base self;
  cinv_genes : map gene_payload (connections g) = map gene_payload done;
  cinv_ends : map (endpoint_ids g) (connections g)
              = map (endpoint_ids self) done
}.

(** ** [Genome.add_random_connection] *)

(** The inner loop of [add_random_connection] for one source: the first
    destination [add_connection] accepts ends the search;
    [ConnectionExistsError] is the only error caught.  Nodes are compared as
    objects, here by reference. *)
Fixpoint try_dests (src_node : NodeRef) (dests : list NodeRef)
  : World -> Outcome World (option (NodeRef * NodeRef)) :=
  match dests with
  | [] => ret None
  | dest_node :: rest =>
      fun w =>
        if bool_decide (src_node <> dest_node)
           || allow_self_connections (config (gen w))
        then
          match add_connection src_node dest_node true None None w with
          | Ok _ w' => Ok (Some (src_node, dest_node)) w'
          | Raise ConnectionExistsError w' => try_dests src_node rest w'
          | Raise e w' => Raise e w'
          end
        else try_dests src_node rest w
  end.

(** The outer loop. *)
Fixpoint try_srcs (srcs dests : list NodeRef)
  : World -> Outcome World (option (NodeRef * NodeRef)) :=
  match srcs with
  | [] => ret None
  | src_node :: rest =>
      fun w =>
        match try_dests src_node dests w with
        | Ok (Some found) w' => Ok (Some found) w'
        | Ok None w' => try_srcs rest dests w'
        | Raise e w' => Raise e w'
        end
  end.

(** Not an input and not a bias node: a node that can be a destination. *)
Definition can_receive (g : Genome) (r : NodeRef) : bool :=
  match get_node g r with
  | Some n => negb (is_sink (node_type n))
  | None => false
  end.

(** [Genome.add_random_connection].  [np.random.shuffle] belongs to NumPy;
    it is the argument [shuffle], which reorders a list using the random
    source.  The result is the pair (source, destination), or [None] when no
    pair was accepted. *)
Definition add_random_connection
    (shuffle : list NodeRef -> Rng -> list NodeRef * Rng)
  : World -> Outcome World (option (NodeRef * NodeRef)) :=
  fun w =>
    let (all_src_nodes, r1) := shuffle (node_refs (gen w)) (random w) in
    let (all_dest_nodes, r2) :=
      shuffle (List.filter (can_receive (gen w)) all_src_nodes) r1 in
    try_srcs all_src_nodes all_dest_nodes
             {| gen := gen w; handler := handler w; random := r2 |}.

(** ** Concrete genomes *)

Module Examples.

Definition cfg : Config :=
  {| out_nodes_activation := linear;
     hidden_nodes_activation := linear;
     initial_node_activation := 0;
     bias_value := Some 1%Q;
     new_weight_interval := ((-1)%Q, 1%Q);
     weight_reset_chance := 1 # 10;
     weight_perturbation_pc := 1 # 10;
     excess_genes_coefficient := 1;
     disjoint_genes_coefficient := 1;
     weight_difference_coefficient := 1 # 2;
     allow_self_connections := true;
     disable_inherited_connection_chance := 3 # 4 |}.

(** A source whose every word is [k]. *)
Definition constant_rng (k : nat) : Rng :=
  {| words := fun _ => k; cursor := 0 |}.

(** [IdHandler(2, 1, True)]. *)
Definition handler0 : IdHandler.t := IdHandler.__init__ 2 1 true.

(** [Genome(2, 1, handler, cfg)]: two inputs, a bias node, one output and
    the two initial connections. *)
Definition world0 : World :=
  final_state (Genome__init__ 2 1 cfg None true handler0 (constant_rng 0)).
Definition genome0 : Genome := gen world0.

(** The same genome with every weight set to [1.0]. *)
Definition unit_weights (g : Genome) : Genome :=
  with_connections (map (set_weight 1) (connections g)) g.

(** [genome0] after one call of [add_random_hidden_node] that drew its
    first connection. *)
Definition world1 : World := final_state (add_random_hidden_node world0).
Definition genome1 : Genome := gen world1.

(** A genome of the same layout without connections and a fitter one with
    the two initial connections. *)
Definition bare : Genome :=
  gen (final_state
         (Genome__init__ 2 1 cfg None false handler0 (constant_rng 0))).

Definition fitter (g : Genome) : Genome :=
  {| config := config g; _id := _id g; species_id := species_id g;
     fitness := 1; adj_fitness := 1;
     _input_nodes := _input_nodes g; _hidden_nodes := _hidden_nodes g;
     _output_nodes := _output_nodes g; _bias_node := _bias_node g;
     connections := connections g;
     _activated_nodes := _activated_nodes g |}.

(** A connection gene from the first input to the output. *)
Definition gene0 : ConnectionGene :=
  {| conn_id := 2; from_node := InputRef 0; to_node := OutputRef 0;
     weight := 1; enabled := true |}.

(** A shuffle: the list is rotated by a drawn number of places. *)
Definition rotate (l : list NodeRef) (r : Rng) : list NodeRef * Rng :=
  let (k, r') := choice_index (length l) r in (drop k l ++ take k l, r').

(** [cfg] without self-connections. *)
Definition cfg_strict : Config :=
  {| out_nodes_activation := linear;
     hidden_nodes_activation := linear;
     initial_node_activation := 0;
     bias_value := Some 1%Q;
     new_weight_interval := ((-1)%Q, 1%Q);
     weight_reset_chance := 1 # 10;
     weight_perturbation_pc := 1 # 10;
     excess_genes_coefficient := 1;
     disjoint_genes_coefficient := 1;
     weight_difference_coefficient := 1 # 2;
     allow_self_connections := false;
     disable_inherited_connection_chance := 3 # 4 |}.

(** [Genome(2, 1, handler, cfg_strict)] with the bias node connected to the
    output as well: every connection the configuration admits is there. *)
Definition full_world : World :=
  final_state
    (add_connection BiasRef (OutputRef 0) true None None
       (final_state
          (Genome__init__ 2 1 cfg_strict None true handler0 (constant_rng 0)))).




End Examples.

(* ================================================================== *)
(** * Part II: theorems                                                 *)
(* ================================================================== *)

Import Examples.

(** ** The id handler *)

Lemma next_connection_id_returns (s d : Z) (h : IdHandler.t) :
  exists cid h', IdHandler.next_connection_id s d h = Ok cid h'.
Proof.
  unfold IdHandler.next_connection_id, IdHandler.alloc_connection.
  destruct (IdHandler._new_connections_ids h !! s) as [row|]; [|eauto].
  destruct (row !! d); eauto.
Qed.

Lemma next_hidden_node_id_returns (s d : Z) (h : IdHandler.t) :
  exists hid h',
    IdHandler.next_hidden_node_id (Some s) (Some d) h = Ok hid h'.
Proof.
  unfold IdHandler.next_hidden_node_id, IdHandler.alloc_node.
  destruct (IdHandler._new_nodes_ids h !! s) as [row|]; [|eauto].
  destruct (row !! d); eauto.
Qed.

(** C2.  With a bias node the node counter of a new id handler starts at
    [num_inputs + num_outputs + 1], and the connection counter starts at
    [num_inputs * num_outputs] with or without one; but without a bias node
    the node counter starts at [0], not at [num_inputs + num_outputs]:
    [IdHandler(2, 1, False)] starts its node counter at 0 instead of 3. *)
Theorem C2_initial_counters :
  (forall ni no : Z,
      IdHandler._node_counter (IdHandler.__init__ ni no true) = ni + no + 1)%Z
  /\ (forall (ni no : Z) (b : bool),
         IdHandler._connection_counter (IdHandler.__init__ ni no b) = ni * no)%Z
  /\ (forall ni no : Z,
         IdHandler._node_counter (IdHandler.__init__ ni no false) = 0)%Z
  /\ (IdHandler._node_counter (IdHandler.__init__ 2 1 false) <> 2 + 1)%Z.
Proof. repeat split; intros; simpl; lia. Qed.

(** ** Weight mutation *)

Lemma mutate_weights_loop_skeleton (cfg : Config) (cs : list ConnectionGene)
    (r : Rng) :
  map skeleton (mutate_weights_loop cfg cs r).1 = map skeleton cs.
Proof.
  revert r. induction cs as [|c cs IH]; intros r; [reflexivity|].
  cbn [mutate_weights_loop].
  destruct (chance (weight_reset_chance cfg) r) as [[] r1].
  - destruct (uniform _ _ r1) as [x r2].
    specialize (IH r2). destruct (mutate_weights_loop cfg cs r2) as [rest r3].
    simpl in *. by rewrite IH.
  - destruct (uniform _ _ r1) as [u r2].
    specialize (IH r2). destruct (mutate_weights_loop cfg cs r2) as [rest r3].
    simpl in *. by rewrite IH.
Qed.

(** C10.  [mutate_weights] returns, and afterwards the node genes, the
    number of connection genes and the identifier, source, destination and
    enabled flag of every connection gene are what they were. *)
Theorem C10_mutate_weights_changes_weights_only (w : World) :
  exists w',
    mutate_weights w = Ok tt w'
    /\ _input_nodes (gen w') = _input_nodes (gen w)
    /\ _bias_node (gen w') = _bias_node (gen w)
    /\ _output_nodes (gen w') = _output_nodes (gen w)
    /\ _hidden_nodes (gen w') = _hidden_nodes (gen w)
    /\ length (connections (gen w')) = length (connections (gen w))
    /\ map skeleton (connections (gen w')) = map skeleton (connections (gen w)).
Proof.
  unfold mutate_weights.
  pose proof (mutate_weights_loop_skeleton (config (gen w))
                (connections (gen w)) (random w)) as Hs.
  destruct (mutate_weights_loop _ _ _) as [cs r]. simpl in Hs.
  eexists. split; [reflexivity|]. simpl. repeat split; [|exact Hs].
  rewrite <- (length_map skeleton cs), Hs. apply length_map.
Qed.

(** ** Crossover: the enabled flag and dominance *)

(** When the gene is disabled in neither parent, the flag [mate_genomes]
    hands to [add_connection] is [False] and no draw is made. *)
Lemma inherited_enabled_neither_disabled c1 c2 p r :
  is_disabled c1 = false -> is_disabled c2 = false ->
  inherited_enabled c1 c2 p r = (false, r).
Proof. intros H1 H2. unfold inherited_enabled. by rewrite H1, H2. Qed.

(** C1.  Crossing [Genome(2, 1)] with itself: both parents hold the two
    initial connections, enabled; the offspring is returned with the same
    two connections, both disabled, although the claim has them enabled. *)
Theorem C1_offspring_of_enabled_genes_is_disabled :
  map enabled (connections genome0) = [true; true]
  /\ raised (mate_genomes genome0 genome0 (handler world0) (constant_rng 0))
     = None
  /\ map enabled
       (connections
          (gen (final_state
                  (mate_genomes genome0 genome0 (handler world0)
                                (constant_rng 0)))))
     = [false; false].
Proof. repeat split; vm_compute; reflexivity. Qed.

Lemma Qgtb_lt (a b : Q) : (b < a)%Q -> Qgtb a b = true.
Proof.
  intros H. unfold Qgtb. apply Qgt_alt in H. by rewrite H.
Qed.

(** C4, as the code has it.  A gene that is absent in one parent is dropped
    when the parent that lacks it has the strictly higher adjusted fitness:
    the round leaves the offspring, [added_nodes] and the random source as
    they were. *)
Theorem C4_gene_dropped_when_lacking_parent_dominates
    (gen1 gen2 : Genome) (slot : option ConnectionGene * option ConnectionGene)
    (added_nodes : gmap Z NodeRef) (w : World) :
  lacking_parent_dominates gen1 gen2 slot ->
  mate_slot gen1 gen2 slot added_nodes w = Ok added_nodes w.
Proof.
  destruct slot as [[c1|] [c2|]]; simpl; intros H; try done.
  - by rewrite (Qgtb_lt _ _ H).
  - by rewrite (Qgtb_lt _ _ H).
Qed.

Lemma C4_gene_dropped_witness :
  lacking_parent_dominates (fitter genome0) bare (None, Some gene0)
  /\ mate_slot (fitter genome0) bare (None, Some gene0) ∅ world0
     = Ok ∅ world0.
Proof.
  split; [reflexivity|].
  apply (C4_gene_dropped_when_lacking_parent_dominates
           (fitter genome0) bare (None, Some gene0) ∅ world0).
  reflexivity.
Defined.

(** C4, as the claim has it, fails: [bare] has no connection, the fitter
    parent owns both genes, and with the draws all 1 the offspring inherits
    both of them. *)
Lemma C4_counterexample :
  connections bare = []
  /\ (adj_fitness bare < adj_fitness (fitter genome0))%Q
  /\ raised (mate_genomes bare (fitter genome0) (handler world0)
                          (constant_rng 1)) = None
  /\ map conn_id
       (connections
          (gen (final_state
                  (mate_genomes bare (fitter genome0) (handler world0)
                                (constant_rng 1)))))
     = map conn_id (connections (fitter genome0))
  /\ connections (fitter genome0) <> [].
Proof.
  split_and!.
  - vm_compute; reflexivity.
  - vm_compute; reflexivity.
  - vm_compute; reflexivity.
  - vm_compute; reflexivity.
  - vm_compute; discriminate.
Qed.

(** ** [add_connection] *)

(** A failed [add_connection] leaves the genome, the id handler and the
    random source as they were. *)
Lemma add_connection_raise_unchanged sr dr en cid wt w e w' :
  add_connection sr dr en cid wt w = Raise e w' -> w' = w.
Proof.
  unfold add_connection.
  destruct (get_node (gen w) sr) as [s|]; [|congruence].
  destruct (get_node (gen w) dr) as [d|]; [|congruence].
  destruct (connection_exists (gen w) s d) as [[]|]; try congruence.
  destruct (is_sink (node_type d)); [congruence|].
  unfold bind, ret, on_handler, on_random.
  destruct cid as [i|].
  - destruct wt as [y|]; [discriminate|].
    destruct (uniform _ _ _); discriminate.
  - destruct (next_connection_id_returns (node_id s) (node_id d) (handler w))
      as (i & h' & ->).
    destruct wt as [y|]; cbn; [discriminate|].
    destruct (uniform _ _ _); discriminate.
Qed.

(** What a successful [add_connection] does. *)
Lemma add_connection_return_inv sr dr en cid wt w w' :
  add_connection sr dr en cid wt w = Ok tt w' ->
  exists s d c,
    get_node (gen w) sr = Some s
    /\ get_node (gen w) dr = Some d
    /\ connection_exists (gen w) s d = Some false
    /\ is_sink (node_type d) = false
    /\ gen w' = link_connection c (gen w)
    /\ from_node c = sr /\ to_node c = dr /\ enabled c = en
    /\ (forall i, cid = Some i -> conn_id c = i /\ handler w' = handler w)
    /\ (forall y, wt = Some y -> weight c = y /\ random w' = random w).
Proof.
  unfold add_connection.
  destruct (get_node (gen w) sr) as [s|]; [|congruence].
  destruct (get_node (gen w) dr) as [d|]; [|congruence].
  destruct (connection_exists (gen w) s d) as [[]|] eqn:Hex; try congruence.
  destruct (is_sink (node_type d)) eqn:Hsink; [congruence|].
  unfold bind, ret, on_handler, on_random.
  assert (Hfin : forall (i : Z) (x : Q) (h' : IdHandler.t) (r' : Rng),
             (forall j, cid = Some j -> i = j /\ h' = handler w) ->
             (forall y, wt = Some y -> x = y /\ r' = random w) ->
             Ok tt (with_gen
                      (link_connection
                         {| conn_id := i; from_node := sr; to_node := dr;
                            weight := x; enabled := en |} (gen w))
                      {| gen := gen w; handler := h'; random := r' |}) = Ok tt w' ->
             exists s0 d0 c,
               Some s = Some s0 /\ Some d = Some d0
               /\ connection_exists (gen w) s0 d0 = Some false
               /\ is_sink (node_type d0) = false
               /\ gen w' = link_connection c (gen w)
               /\ from_node c = sr /\ to_node c = dr /\ enabled c = en
               /\ (forall i, cid = Some i -> conn_id c = i /\ handler w' = handler w)
               /\ (forall y, wt = Some y -> weight c = y /\ random w' = random w)).
  { intros i x h' r' Hc Hw [= <-]. eexists s, d, _.
    split_and!; try reflexivity; try assumption; cbn; assumption. }
  destruct cid as [i|].
  - destruct wt as [y|].
    + destruct w as [g0 h0 r0]. apply (Hfin i y h0 r0); intros ? [= <-]; done.
    + destruct (uniform _ _ _) as [x r']. apply (Hfin i x (handler w) r'); [|done].
      intros ? [= <-]; done.
  - destruct (next_connection_id_returns (node_id s) (node_id d) (handler w))
      as (i & h' & ->).
    destruct wt as [y|]; cbn.
    + apply (Hfin i y h' (random w)); [done|]. intros ? [= <-]; done.
    + destruct (uniform _ _ _) as [x r']. apply (Hfin i x h' r'); done.
Qed.

(** When nothing stands in its way, [add_connection] returns. *)
Lemma add_connection_returns sr dr en cid wt w s d :
  get_node (gen w) sr = Some s ->
  get_node (gen w) dr = Some d ->
  connection_exists (gen w) s d = Some false ->
  is_sink (node_type d) = false ->
  exists w', add_connection sr dr en cid wt w = Ok tt w'.
Proof.
  intros Hs Hd Hex Hsink. unfold add_connection.
  rewrite Hs, Hd, Hex, Hsink.
  unfold bind, ret, on_handler, on_random.
  destruct cid as [i|].
  - destruct wt as [y|]; [eauto|]. destruct (uniform _ _ _); eauto.
  - destruct (next_connection_id_returns (node_id s) (node_id d) (handler w))
      as (i & h' & ->).
    destruct wt as [y|]; cbn; [eauto|]. destruct (uniform _ _ _); eauto.
Qed.

(** ** Forward evaluation of the initial genome *)

(** [Genome(2, 1, ...)] with a bias value: the constructor returns whatever
    the id handler and the random source hold, and the two genes it creates
    join the inputs to the output. *)
Lemma initial_genome_2_1 (cfg : Config) (b : Q) (h : IdHandler.t) (r : Rng) :
  bias_value cfg = Some b ->
  exists w c0 c1,
    Genome__init__ 2 1 cfg None true h r = Ok tt w
    /\ gen w =
       link_connection c1
         (link_connection c0
            (with_output_nodes
               [new_NodeGene 3 OUTPUT (out_nodes_activation cfg)
                             (initial_node_activation cfg)]
               (with_bias_node
                  (Some (new_NodeGene 2 BIAS linear b))
                  (with_input_nodes
                     [new_NodeGene 0 INPUT linear (initial_node_activation cfg);
                      new_NodeGene 1 INPUT linear (initial_node_activation cfg)]
                     (blank_genome cfg (IdHandler._genome_counter h))))))
    /\ (from_node c0, to_node c0, enabled c0) = (InputRef 0, OutputRef 0, true)
    /\ (from_node c1, to_node c1, enabled c1) = (InputRef 1, OutputRef 0, true).
Proof.
  intros Hbias.
  unfold Genome__init__, bind, on_handler, IdHandler.next_genome_id.
  cbn [for_each seq map]. rewrite Hbias.
  unfold bind at 1. unfold init_output.
  cbn [gen with_gen config with_bias_node with_input_nodes with_output_nodes
       blank_genome _input_nodes _output_nodes length seq for_each app].
  unfold outputs_base. rewrite Hbias.
  change (Z.of_nat 2 + 1 + Z.of_nat 0)%Z with 3%Z.
  change (Z.of_nat 2) with 2%Z. change (Z.of_nat 0) with 0%Z.
  change (Z.of_nat 1) with 1%Z.
  unfold bind.
  match goal with
  | |- context [add_connection (InputRef 0) (OutputRef 0) true None None ?w0] =>
      destruct (add_connection_returns (InputRef 0) (OutputRef 0) true None None w0
                  (new_NodeGene 0 INPUT linear (initial_node_activation cfg))
                  (new_NodeGene 3 OUTPUT (out_nodes_activation cfg)
                                (initial_node_activation cfg)))
        as [w1 Hw1]; try reflexivity
  end.
  rewrite Hw1.
  destruct (add_connection_return_inv _ _ _ _ _ _ _ Hw1)
    as (s0 & d0 & c0 & _ & _ & _ & _ & Hg1 & Hf0 & Ht0 & He0 & _).
  cbn [gen] in Hg1.
  destruct (add_connection_returns (InputRef 1) (OutputRef 0) true None None w1
              (new_NodeGene 1 INPUT linear (initial_node_activation cfg))
              (append_in 0
                 (new_NodeGene 3 OUTPUT (out_nodes_activation cfg)
                               (initial_node_activation cfg))))
    as [w2 Hw2].
  { rewrite Hg1. unfold link_connection. rewrite Hf0, Ht0. reflexivity. }
  { rewrite Hg1. unfold link_connection. rewrite Hf0, Ht0. reflexivity. }
  { rewrite Hg1. unfold link_connection. rewrite Hf0, Ht0. reflexivity. }
  { reflexivity. }
  rewrite Hw2.
  destruct (add_connection_return_inv _ _ _ _ _ _ _ Hw2)
    as (s1 & d1 & c1 & _ & _ & _ & _ & Hg2 & Hf1 & Ht1 & He1 & _).
  exists w2, c0, c1. split; [reflexivity|].
  rewrite Hg2, Hg1, Hf0, Ht0, He0, Hf1, Ht1, He1. done.
Qed.

(** C3, as the code has it.  A genome built for 2 inputs and 1 output under
    a configuration with bias value 1.0 and the linear activation, whatever
    the id handler and the random source hold, with all its weights then
    set to 1.0, answers [process([2.0, 3.0])] with the single value 5.0:
    [__init__] connects the input nodes only, the bias node has no
    connection. *)
Theorem C3_process_of_initial_genome
    (cfg : Config) (h : IdHandler.t) (r : Rng) :
  out_nodes_activation cfg = linear ->
  hidden_nodes_activation cfg = linear ->
  bias_value cfg = Some 1%Q ->
  exists w g',
    Genome__init__ 2 1 cfg None true h r = Ok tt w
    /\ process [2%Q; 3%Q] (unit_weights (gen w)) = Ok [5%Q] g'.
Proof.
  intros Hout _ Hbias.
  destruct (initial_genome_2_1 cfg 1 h r Hbias)
    as (w & c0 & c1 & Hw & Hg & H0 & H1).
  exists w. rewrite Hg, Hout.
  destruct c0 as [i0 f0 t0 x0 e0], c1 as [i1 f1 t1 x1 e1].
  cbn in H0, H1. injection H0 as -> -> ->. injection H1 as -> -> ->.
  eexists. split; [exact Hw|].
  vm_compute. reflexivity.
Qed.

Lemma C3_process_witness :
  exists w g',
    Genome__init__ 2 1 cfg None true handler0 (constant_rng 0) = Ok tt w
    /\ process [2%Q; 3%Q] (unit_weights (gen w)) = Ok [5%Q] g'.
Proof.
  apply (C3_process_of_initial_genome cfg handler0 (constant_rng 0));
    reflexivity.
Defined.

(** C3, as the claim has it, fails: the genome of the claim answers 5.0,
    which is not 6.0. *)
Lemma C3_counterexample :
  (match process [2%Q; 3%Q] (unit_weights genome0) with
   | Ok v _ => v = [5%Q]
   | Raise _ _ => False
   end)
  /\ ~ (5 == 6)%Q
  /\ bias_value (config genome0) = Some 1%Q
  /\ map weight (connections (unit_weights genome0)) = [1%Q; 1%Q].
Proof.
  split_and!; try (vm_compute; reflexivity).
  intros H. vm_compute in H. discriminate.
Qed.

(** ** Node splitting *)

(** C7.  [add_random_hidden_node] on [Genome(2, 1)] drawing its first
    connection adds one node and two connections, of weight 1 and of the
    weight of the split connection.  A second call in the same generation
    that draws the same connection gets the cached node id back, raises
    [ConnectionExistsError] from its first [add_connection] and leaves the
    genome with one more node and no new connection. *)
Theorem C7_second_split_of_a_connection_raises :
  raised (add_random_hidden_node world0) = None
  /\ length (nodes genome1) = S (length (nodes genome0))
  /\ length (connections genome1) = S (S (length (connections genome0)))
  /\ map enabled (connections genome1) = [false; true; true; true]
  /\ raised (add_random_hidden_node world1) = Some ConnectionExistsError
  /\ length (nodes (gen (final_state (add_random_hidden_node world1))))
     = S (length (nodes genome1))
  /\ length (connections (gen (final_state (add_random_hidden_node world1))))
     = length (connections genome1)
  /\ map node_id (nodes (gen (final_state (add_random_hidden_node world1))))
     = [0; 1; 2; 3; 4; 4]%Z.
Proof. split_and!; vm_compute; reflexivity. Qed.

(** ** Nodes and references *)

Lemma get_node_set_node_eq g r n :
  is_Some (get_node g r) -> get_node (set_node r n g) r = Some n.
Proof.
  destruct r; simpl; intros [m Hm]; try done;
    apply list_lookup_insert_eq; eapply lookup_lt_Some; eauto.
Qed.

Lemma get_node_set_node_ne g r r' n :
  r <> r' -> get_node (set_node r n g) r' = get_node g r'.
Proof.
  destruct r, r'; simpl; intros H; try done;
    apply list_lookup_insert_ne; congruence.
Qed.

Lemma connections_set_node g r n : connections (set_node r n g) = connections g.
Proof. by destruct r. Qed.

Lemma get_node_with_connections g l r :
  get_node (with_connections l g) r = get_node g r.
Proof. by destruct r. Qed.

Lemma node_id_touch c ci r n : node_id (touch c ci r n) = node_id n.
Proof. unfold touch. by repeat case_decide. Qed.

Lemma node_type_touch c ci r n : node_type (touch c ci r n) = node_type n.
Proof. unfold touch. by repeat case_decide. Qed.

Lemma activation_touch c ci r n : activation (touch c ci r n) = activation n.
Proof. unfold touch. by repeat case_decide. Qed.

Lemma out_connections_touch c ci r n :
  out_connections (touch c ci r n)
  = if decide (r = from_node c) then out_connections n ++ [ci]
    else out_connections n.
Proof. unfold touch. by repeat case_decide. Qed.

Lemma in_connections_touch c ci r n :
  in_connections (touch c ci r n)
  = if decide (r = to_node c) then in_connections n ++ [ci]
    else in_connections n.
Proof. unfold touch. by repeat case_decide. Qed.

Lemma connections_link c g :
  connections (link_connection c g) = connections g ++ [c].
Proof.
  unfold link_connection.
  repeat (case_match; rewrite ?connections_set_node); done.
Qed.

Lemma get_node_link c g r :
  get_node (link_connection c g) r
  = touch c (length (connections g)) r <$> get_node g r.
Proof.
  unfold link_connection, touch.
  set (ci := length (connections g)).
  set (g1 := with_connections (connections g ++ [c]) g).
  assert (H1 : forall r', get_node g1 r' = get_node g r')
    by (intros; apply get_node_with_connections).
  set (g2 := match get_node g1 (from_node c) with
             | Some s => set_node (from_node c) (append_out ci s) g1
             | None => g1
             end).
  assert (H2 : forall r', get_node g2 r'
                          = (fun n => if decide (r' = from_node c)
                                      then append_out ci n else n)
                              <$> get_node g r').
  { intros r'. unfold g2. destruct (get_node g1 (from_node c)) as [s|] eqn:Hs.
    - destruct (decide (r' = from_node c)) as [->|Hne].
      + rewrite get_node_set_node_eq by (rewrite Hs; eauto).
        rewrite <- H1, Hs. done.
      + rewrite get_node_set_node_ne by done. rewrite H1.
        by destruct (get_node g r').
    - rewrite H1. destruct (decide (r' = from_node c)) as [->|Hne].
      + rewrite <- H1, Hs. done.
      + by destruct (get_node g r'). }
  fold g2.
  destruct (get_node g2 (to_node c)) as [d|] eqn:Hd.
  - destruct (decide (r = to_node c)) as [->|Hne].
    + rewrite get_node_set_node_eq by (rewrite Hd; eauto).
      rewrite H2 in Hd. destruct (get_node g (to_node c)); simpl in *; [|done].
      by injection Hd as <-.
    + rewrite get_node_set_node_ne by done. rewrite H2.
      by destruct (get_node g r).
  - rewrite H2. destruct (decide (r = to_node c)) as [->|Hne].
    + rewrite H2 in Hd. by destruct (get_node g (to_node c)).
    + by destruct (get_node g r).
Qed.

Lemma config_set_node g r n : config (set_node r n g) = config g.
Proof. by destruct r. Qed.

Lemma config_link c g : config (link_connection c g) = config g.
Proof.
  unfold link_connection.
  destruct (get_node _ (to_node c)); rewrite ?config_set_node;
    destruct (get_node _ (from_node c)); rewrite ?config_set_node; done.
Qed.

Lemma valid_genome0 : valid_genome genome0 /\ adjacency_consistent genome0.
Proof.
  split;
    [apply (bool_decide_unpack (valid_genome genome0))
    |apply (bool_decide_unpack (adjacency_consistent genome0))];
    vm_compute; exact I.
Qed.

Lemma elem_of_node_refs g r : r ∈ node_refs g <-> is_Some (get_node g r).
Proof.
  unfold node_refs. rewrite !elem_of_app, !list_elem_of_fmap.
  setoid_rewrite elem_of_seq.
  split.
  - intros [(i & -> & Hi)|[Hb|[(i & -> & Hi)|(i & -> & Hi)]]]; simpl.
    + apply lookup_lt_is_Some. lia.
    + destruct (_bias_node g) eqn:Hbias.
      * apply list_elem_of_singleton in Hb as ->. simpl. rewrite Hbias. eauto.
      * by apply elem_of_nil in Hb.
    + apply lookup_lt_is_Some. lia.
    + apply lookup_lt_is_Some. lia.
  - destruct r as [i| |i|i]; simpl; intros H.
    + left. exists i. split; [done|]. apply lookup_lt_is_Some in H. lia.
    + right; left. destruct H as [b ->]. apply list_elem_of_singleton. done.
    + right; right; left. exists i. split; [done|].
      apply lookup_lt_is_Some in H. lia.
    + right; right; right. exists i. split; [done|].
      apply lookup_lt_is_Some in H. lia.
Qed.

Lemma ref_in_range_is_Some g r : ref_in_range g r <-> is_Some (get_node g r).
Proof.
  destruct r; simpl; rewrite ?lookup_lt_is_Some; try done.
  all: destruct (_bias_node g); split; try done; intros H;
    try eauto; by destruct H.
Qed.

(** Ids laid out by position. *)
Lemma lookup_numbered (l : list NodeGene) (f : nat -> Z) (i : nat) (n : NodeGene) :
  map node_id l = map f (seq 0 (length l)) ->
  l !! i = Some n -> node_id n = f i.
Proof.
  intros Hl Hi.
  assert (Hlt : (i < length l)%nat) by (eapply lookup_lt_Some; eauto).
  assert (H1 : map node_id l !! i = Some (node_id n))
    by (rewrite list_lookup_fmap, Hi; done).
  rewrite Hl, list_lookup_fmap, lookup_seq_lt in H1 by done.
  simpl in H1. congruence.
Qed.

(** In a valid genome an input or bias node has an id below [sink_base];
    a node reached through an output or hidden reference does not, and it
    is not an input or bias node. *)
Lemma valid_sink_id g r n :
  valid_genome g -> get_node g r = Some n ->
  is_sink (node_type n) = true -> (0 <= node_id n < sink_base g)%Z.
Proof.
  intros (Hin & Hint & Hb & Hout & Houtt & Hhid & _) Hr Hsink.
  unfold sink_base. destruct r as [i| |i|i]; simpl in Hr.
  - rewrite (lookup_numbered _ _ _ _ Hin Hr).
    apply lookup_lt_Some in Hr. destruct (_bias_node g); lia.
  - rewrite Hr in *. destruct (bias_value (config g)); [|done].
    destruct Hb as [-> _]. lia.
  - by rewrite (Forall_lookup_1 _ _ _ _ Houtt Hr) in Hsink.
  - destruct (Forall_lookup_1 _ _ _ _ Hhid Hr) as [Ht _].
    by rewrite Ht in Hsink.
Qed.

Lemma valid_nonsink_ref g r n :
  valid_genome g -> get_node g r = Some n -> is_sink_ref r = false ->
  is_sink (node_type n) = false
  /\ (node_id n < 0 \/ sink_base g <= node_id n)%Z.
Proof.
  intros (Hin & Hint & Hb & Hout & Houtt & Hhid & _) Hr Hsink.
  destruct r as [i| |i|i]; simpl in Hr; try done.
  - rewrite (lookup_numbered _ _ _ _ Hout Hr).
    rewrite (Forall_lookup_1 _ _ _ _ Houtt Hr). split; [done|]. lia.
  - destruct (Forall_lookup_1 _ _ _ _ Hhid Hr) as [Ht Hid].
    rewrite Ht. split; [done|]. unfold hidden_base, sink_base in *. lia.
Qed.

(** ** [connection_exists] *)

Lemma scan_out_connections_false_inv g outs nid :
  scan_out_connections g outs nid = Some false ->
  forall ci, ci ∈ outs ->
    exists c n, connections g !! ci = Some c
                /\ get_node g (to_node c) = Some n /\ node_id n <> nid.
Proof.
  induction outs as [|a outs IH]; simpl; intros H ci Hci.
  - by apply elem_of_nil in Hci.
  - destruct (connections g !! a) as [c|] eqn:Hc; simpl in H; [|done].
    destruct (get_node g (to_node c)) as [n|] eqn:Hn; simpl in H; [|done].
    case_decide; [done|].
    apply elem_of_cons in Hci as [->|Hci]; eauto.
Qed.


Lemma scan_out_connections_absent g outs nid :
  (forall cj, cj ∈ outs ->
     exists c' n', connections g !! cj = Some c'
                   /\ get_node g (to_node c') = Some n'
                   /\ node_id n' <> nid) ->
  scan_out_connections g outs nid = Some false.
Proof.
  induction outs as [|a outs IH]; simpl; intros Hres; [done|].
  destruct (Hres a) as (c' & n' & Hc' & Hn' & Hne); [apply elem_of_cons; eauto|].
  rewrite Hc'. simpl. rewrite Hn'. simpl. rewrite decide_False by done.
  apply IH. intros cj Hcj. apply Hres, elem_of_cons. eauto.
Qed.




(** ** Failures of [add_connection] *)

(** The outgoing list of a node of a valid, consistent genome resolves to
    connections whose destinations are nodes of the genome. *)
Lemma out_connections_resolve g r n ci :
  valid_genome g -> adjacency_consistent g ->
  get_node g r = Some n -> ci ∈ out_connections n ->
  exists c m, connections g !! ci = Some c /\ from_node c = r
              /\ get_node g (to_node c) = Some m
              /\ is_sink_ref (to_node c) = false.
Proof.
  intros Hv [Hsound _] Hr Hci.
  rewrite Forall_forall in Hsound.
  specialize (Hsound r). rewrite Hr in Hsound.
  destruct Hsound as [Hout _]; [apply elem_of_node_refs; eauto|].
  rewrite Forall_forall in Hout. specialize (Hout ci Hci).
  destruct (connections g !! ci) as [c|] eqn:Hc; [|done].
  destruct Hv as (_ & _ & _ & _ & _ & _ & Hconn).
  destruct (Forall_lookup_1 _ _ _ _ Hconn Hc) as (_ & Hto & Hns).
  apply ref_in_range_is_Some in Hto as [m Hm]. eauto 10.
Qed.




(** ** Alignment and distance *)

Lemma zip_align_connections l1 l2 :
  zip (align_connections l1 l2).1 (align_connections l1 l2).2
  = align_slots l1 l2.
Proof. unfold align_connections. simpl. apply zip_fst_snd. Qed.

Lemma align_slots_nil_l l2 :
  align_slots [] l2 = map (fun c => (None, Some c)) l2.
Proof. by destruct l2. Qed.

Lemma align_slots_nil_r l1 :
  align_slots l1 [] = map (fun c => (Some c, None)) l1.
Proof. by destruct l1. Qed.

Lemma align_slots_cons a l1 b l2 :
  align_slots (a :: l1) (b :: l2)
  = if (conn_id a <? conn_id b)%Z
    then (Some a, None) :: align_slots l1 (b :: l2)
    else if (conn_id b <? conn_id a)%Z
         then (None, Some b) :: align_slots (a :: l1) l2
         else (Some a, Some b) :: align_slots l1 l2.
Proof. reflexivity. Qed.

(** No slot of an alignment is empty on both sides. *)
Lemma align_slots_inhabited l1 l2 :
  Forall (fun slot => slot <> (None, None)) (align_slots l1 l2).
Proof.
  revert l2. induction l1 as [|a l1 IH1]; intros l2.
  - rewrite align_slots_nil_l. apply Forall_fmap, Forall_true. done.
  - induction l2 as [|b l2 IH2].
    + rewrite align_slots_nil_r. apply Forall_fmap, Forall_true. done.
    + rewrite align_slots_cons.
      repeat case_match; constructor; try done; apply IH1.
Qed.

Lemma gtb_bool_decide (a b : Z) : (a >? b)%Z = bool_decide (b < a)%Z.
Proof.
  rewrite Z.gtb_ltb. destruct (b <? a)%Z eqn:H.
  - apply Z.ltb_lt in H. by rewrite bool_decide_eq_true_2.
  - apply Z.ltb_ge in H. rewrite bool_decide_eq_false_2; [done|lia].
Qed.

(** The loop of [distance] counts the slots of each class. *)
Lemma tally_slots_counts max1 max2 slots :
  Forall (fun slot => slot <> (None, None)) slots ->
  forall t, exists t',
    tally_slots max1 max2 t slots = inr t'
    /\ excess t' = (excess t + length (List.filter (is_excess max1 max2) slots))%nat
    /\ disjoint t'
       = (disjoint t + length (List.filter (is_disjoint max1 max2) slots))%nat
    /\ num_matches t'
       = (num_matches t + length (List.filter is_matching slots))%nat
    /\ (weight_diff t'
        == weight_diff t
           + Qsum (map slot_weight_difference (List.filter is_matching slots)))%Q.
Proof.
  induction 1 as [|slot slots Hslot _ IH]; intros t.
  - exists t. split_and!; [done|simpl; lia..|].
    unfold Qsum. cbn [List.filter map foldr]. symmetry. apply Qplus_0_r.
  - destruct slot as [[c1|] [c2|]]; [| | |done]; cbn [tally_slots tally_slot].
    + edestruct IH as (t' & -> & He & Hd & Hm & Hw).
      exists t'. split; [done|]. rewrite He, Hd, Hm, Hw.
      cbn [excess disjoint num_matches weight_diff List.filter is_excess
           is_disjoint is_matching negb andb length map slot_weight_difference].
      split_and!; try lia.
      unfold Qsum. cbn [foldr]. symmetry. apply Qplus_assoc.
    + edestruct IH as (t' & -> & He & Hd & Hm & Hw).
      exists t'. split; [done|]. rewrite He, Hd, Hm, Hw.
      unfold is_disjoint. cbn [List.filter is_excess is_matching negb andb].
      rewrite gtb_bool_decide.
      destruct (bool_decide (max2 < conn_id c1)%Z); cbn; split_and!;
        try lia; reflexivity.
    + edestruct IH as (t' & -> & He & Hd & Hm & Hw).
      exists t'. split; [done|]. rewrite He, Hd, Hm, Hw.
      unfold is_disjoint. cbn [List.filter is_excess is_matching negb andb].
      rewrite gtb_bool_decide.
      destruct (bool_decide (max1 < conn_id c2)%Z); cbn; split_and!;
        try lia; reflexivity.
Qed.

Lemma foldr_max_ge (x : Z) (l : list Z) : (x <= foldr Z.max x l)%Z.
Proof. induction l; simpl; lia. Qed.

Lemma foldr_max_shift (a x : Z) (l : list Z) :
  foldr Z.max (Z.max a x) l = Z.max x (foldr Z.max a l).
Proof. induction l as [|y l IH]; simpl; [lia|]. rewrite IH. lia. Qed.

Lemma foldl_max_foldr (a : Z) (l : list Z) :
  foldl Z.max a l = foldr Z.max a l.
Proof.
  revert a. induction l as [|x l IH]; intros a; simpl; [done|].
  rewrite IH. apply foldr_max_shift.
Qed.

(** [np.amax] of the identifiers is the maximum identifier. *)
Lemma amax_max_id (cs : list ConnectionGene) :
  cs <> [] -> amax (map conn_id cs) = Some (max_id cs).
Proof.
  destruct cs as [|c cs]; [done|]. intros _.
  unfold amax, max_id. simpl. rewrite foldl_max_foldr. f_equal.
  pose proof (foldr_max_ge (conn_id c) (map conn_id cs)). lia.
Qed.

Lemma count_Q_nonzero (n : nat) : n <> 0%nat -> ~ (count_Q n == 0)%Q.
Proof.
  intros Hn H. unfold count_Q, Qeq in H. simpl in H. lia.
Qed.

(** *** The slots of the alignment and the identifiers *)






















(** ** Forward evaluation: termination and frame *)

Lemma same_shape_refl n : same_shape n n.
Proof. done. Qed.

Lemma same_shape_trans n1 n2 n3 :
  same_shape n1 n2 -> same_shape n2 n3 -> same_shape n1 n3.
Proof. intros (?&?&?) (?&?&?). unfold same_shape. split_and!; congruence. Qed.

Lemma evolves_refl g : evolves g g.
Proof.
  split; try done. intros r. destruct (get_node g r); done.
Qed.

Lemma evolves_trans g1 g2 g3 : evolves g1 g2 -> evolves g2 g3 -> evolves g1 g3.
Proof.
  intros [Hc1 Hs1 Hm1 Hk1 Hf1] [Hc2 Hs2 Hm2 Hk2 Hf2]. split.
  - congruence.
  - intros r. specialize (Hs1 r). specialize (Hs2 r).
    destruct (get_node g1 r), (get_node g2 r), (get_node g3 r); try done.
    eapply same_shape_trans; eauto.
  - eauto.
  - intros k. rewrite Hk1. apply Hk2.
  - intros r n Hr Hfr. apply Hf2; [by apply Hf1|].
    destruct Hfr as [?|?]; [by left|right; auto].
Qed.

Lemma evolves_get_node g g' r n :
  evolves g g' -> get_node g r = Some n ->
  exists n', get_node g' r = Some n' /\ same_shape n n'.
Proof.
  intros [_ Hs _ _ _] Hr. specialize (Hs r). rewrite Hr in Hs.
  destruct (get_node g' r); [eauto|done].
Qed.

Lemma evolves_get_node_back g g' r n' :
  evolves g g' -> get_node g' r = Some n' ->
  exists n, get_node g r = Some n /\ same_shape n n'.
Proof.
  intros [_ Hs _ _ _] Hr. specialize (Hs r). rewrite Hr in Hs.
  destruct (get_node g r); [eauto|done].
Qed.

Lemma processable_evolves g g' : processable g -> evolves g g' -> processable g'.
Proof.
  intros [Hkeys Hin] Hev. split.
  - intros r n' Hr Hsink.
    destruct (evolves_get_node_back _ _ _ _ Hev Hr) as (n & Hn & Hid & Hty & _).
    rewrite Hid. apply (ev_keys _ _ Hev). apply (Hkeys r n Hn). congruence.
  - intros r n' ci Hr Hci.
    destruct (evolves_get_node_back _ _ _ _ Hev Hr) as (n & Hn & _ & _ & Hi).
    rewrite Hi in Hci. destruct (Hin r n ci Hn Hci) as (c & Hc & [m Hm]).
    exists c. rewrite (ev_connections _ _ Hev). split; [done|].
    destruct (evolves_get_node _ _ _ _ Hev Hm) as (m' & -> & _). eauto.
Qed.

Lemma get_node_mark_activated k g r :
  get_node (mark_activated k g) r = get_node g r.
Proof. by destruct r. Qed.

Lemma is_activated_mark_activated k g k' :
  is_activated (mark_activated k g) k'
  = if decide (k = k')
    then (match _activated_nodes g with Some _ => Some true | None => None end)
    else is_activated g k'.
Proof.
  unfold is_activated, mark_activated. simpl.
  destruct (_activated_nodes g) as [a|]; simpl.
  - case_decide as Hk; [subst; by rewrite lookup_insert_eq|].
    by rewrite lookup_insert_ne.
  - by case_decide.
Qed.

Lemma evolves_mark_activated k g :
  is_Some (is_activated g k) -> evolves g (mark_activated k g).
Proof.
  intros Hk. split.
  - done.
  - intros r. rewrite get_node_mark_activated. by destruct (get_node g r).
  - intros k' Hk'. rewrite is_activated_mark_activated.
    case_decide; [|done]. unfold is_activated in Hk'.
    by destruct (_activated_nodes g).
  - intros k'. rewrite is_activated_mark_activated.
    case_decide as Hkk; [|done]. subst k'.
    unfold is_activated in *. destruct (_activated_nodes g); simpl in *.
    + split; eauto.
    + done.
  - intros r n Hr _. by rewrite get_node_mark_activated.
Qed.

Lemma unvisited_mark_activated k g :
  is_activated g k = Some false ->
  (unvisited (mark_activated k g) < unvisited g)%nat.
Proof.
  unfold is_activated, unvisited, mark_activated. simpl.
  destruct (_activated_nodes g) as [a|]; simpl; [|done]. intros Hk.
  rewrite map_filter_insert_False by (simpl; done).
  rewrite map_filter_delete.
  assert (Hf : filter (fun p : Z * bool => p.2 = false) a !! k = Some false)
    by (by apply map_lookup_filter_Some).
  rewrite map_size_delete, Hf. simpl.
  assert (size (filter (fun p : Z * bool => p.2 = false) a) <> 0%nat).
  { intros Hz. apply map_size_empty_inv in Hz. rewrite Hz in Hf.
    by rewrite lookup_empty in Hf. }
  lia.
Qed.

Lemma is_activated_set_node r n g k :
  is_activated (set_node r n g) k = is_activated g k.
Proof. by destruct r. Qed.

Lemma unvisited_set_node r n g : unvisited (set_node r n g) = unvisited g.
Proof. by destruct r. Qed.

Lemma sum_inputs_returns (fuel : nat)
    (visit : NodeRef -> Genome -> Outcome Genome Q) :
  (forall n g, processable g -> (unvisited g < fuel)%nat ->
               is_Some (get_node g n) -> visit_ok g n (visit n g)) ->
  forall cs zsum g,
    processable g -> (unvisited g < fuel)%nat ->
    (forall ci, ci ∈ cs ->
       exists c, connections g !! ci = Some c
                 /\ is_Some (get_node g (from_node c))) ->
    exists z g', sum_inputs visit cs zsum g = Ok z g'
                 /\ evolves g g' /\ (unvisited g' <= unvisited g)%nat.
Proof.
  intros Hvisit cs. induction cs as [|ci cs IH]; intros zsum g Hp Hfuel Hcs.
  - exists zsum, g. split_and!; [done|apply evolves_refl|lia].
  - destruct (Hcs ci) as (c & Hc & Hfrom); [apply list_elem_of_here|].
    cbn [sum_inputs]. rewrite Hc.
    assert (Hrest : forall g', evolves g g' ->
              forall cj, cj ∈ cs ->
                exists c', connections g' !! cj = Some c'
                           /\ is_Some (get_node g' (from_node c'))).
    { intros g' Hev cj Hcj.
      destruct (Hcs cj) as (c' & Hc' & [m Hm]); [by apply list_elem_of_further|].
      exists c'. rewrite (ev_connections _ _ Hev). split; [done|].
      destruct (evolves_get_node _ _ _ _ Hev Hm) as (m' & -> & _). eauto. }
    destruct (enabled c).
    + destruct (Hvisit (from_node c) g Hp Hfuel Hfrom)
        as (v & g1 & -> & Hev1 & Hle1 & _).
      destruct (IH (zsum + weight c * v)%Q g1) as (z & g2 & -> & Hev2 & Hle2).
      { by eapply processable_evolves. }
      { lia. }
      { by apply Hrest. }
      exists z, g2. split_and!; [done|by eapply evolves_trans|lia].
    + destruct (IH zsum g) as (z & g2 & -> & Hev2 & Hle2); try done.
      { apply Hrest, evolves_refl. }
      eauto.
Qed.

(** With more fuel than unvisited nodes, [_process_node] returns. *)
Lemma process_node_returns (fuel : nat) :
  forall n g, processable g -> (unvisited g < fuel)%nat ->
              is_Some (get_node g n) -> visit_ok g n (_process_node fuel n g).
Proof.
  induction fuel as [|fuel IH]; intros n g Hp Hfuel [node Hn]; [lia|].
  cbn [_process_node]. rewrite Hn.
  destruct (is_sink (node_type node)) eqn:Hsink.
  { exists (activation node), g.
    split_and!; [done|apply evolves_refl|lia|].
    exists node. split_and!; [done|done|by left]. }
  destruct (proj1 Hp n node Hn Hsink) as [[] Hact]; rewrite Hact.
  { exists (activation node), g.
    split_and!; [done|apply evolves_refl|lia|].
    exists node. split_and!; [done|done|by right]. }
  set (g1 := mark_activated (node_id node) g).
  assert (Hev1 : evolves g g1)
    by (apply evolves_mark_activated; rewrite Hact; eauto).
  assert (Hlt1 : (unvisited g1 < unvisited g)%nat)
    by (by apply unvisited_mark_activated).
  assert (Hmark1 : is_activated g1 (node_id node) = Some true).
  { unfold g1. rewrite is_activated_mark_activated, decide_True by done.
    unfold is_activated in Hact. by destruct (_activated_nodes g). }
  destruct (sum_inputs_returns fuel (_process_node fuel) IH
              (in_connections node) 0%Q g1)
    as (z & g2 & -> & Hev2 & Hle2).
  { by eapply processable_evolves. }
  { lia. }
  { intros ci Hci. destruct (proj2 Hp n node ci Hn Hci) as (c & Hc & Hfrom).
    exists c. split; [done|]. unfold g1. by rewrite get_node_mark_activated. }
  assert (Hev : evolves g g2) by (by eapply evolves_trans).
  destruct (evolves_get_node _ _ _ _ Hev Hn) as (node' & Hn' & Hid & Hty & Hin).
  rewrite Hn'.
  exists (activation (activate z node')), (set_node n (activate z node') g2).
  split_and!; [done| |rewrite unvisited_set_node; lia|].
  - split.
    + rewrite connections_set_node. apply (ev_connections _ _ Hev).
    + intros r. destruct (decide (n = r)) as [<-|Hne].
      * rewrite Hn, get_node_set_node_eq by (rewrite Hn'; eauto). done.
      * rewrite get_node_set_node_ne by done. apply (ev_shape _ _ Hev).
    + intros k Hk. rewrite is_activated_set_node. by apply (ev_marks _ _ Hev).
    + intros k. rewrite is_activated_set_node. apply (ev_keys _ _ Hev).
    + intros r m Hr Hfr. destruct (decide (n = r)) as [<-|Hne].
      * rewrite Hn in Hr. injection Hr as <-.
        destruct Hfr as [Hfr|Hfr]; congruence.
      * rewrite get_node_set_node_ne by done. by apply (ev_frozen _ _ Hev).
  - exists (activate z node').
    split_and!; [apply get_node_set_node_eq; rewrite Hn'; eauto|done|].
    right. rewrite is_activated_set_node. simpl. rewrite Hid.
    by apply (ev_marks _ _ Hev2).
Qed.

(** The dictionary [process] starts from. *)
Lemma foldl_unmark_lookup (ns : list NodeGene) (a : gmap Z bool) (k : Z) :
  k ∈ map node_id ns ->
  foldl (fun a n => <[node_id n := false]> a) a ns !! k = Some false.
Proof.
  revert a. induction ns as [|n ns IH]; intros a Hk; simpl in *.
  - by apply elem_of_nil in Hk.
  - destruct (decide (k ∈ map node_id ns)) as [Hin|Hnot]; [by apply IH|].
    apply elem_of_cons in Hk as [->|Hk]; [|done].
    clear IH. revert a. induction ns as [|m ns IH]; intros a; simpl.
    + by rewrite lookup_insert_eq.
    + simpl in Hnot. apply not_elem_of_cons in Hnot as [Hne Hnot].
      rewrite insert_insert_ne by done. by apply IH.
Qed.

Lemma foldl_unmark_size (ns : list NodeGene) (a : gmap Z bool) :
  (size (foldl (fun a n => <[node_id n := false]> a) a ns)
   <= size a + length ns)%nat.
Proof.
  revert a. induction ns as [|n ns IH]; intros a; simpl; [lia|].
  etrans; [apply IH|]. rewrite map_size_insert.
  destruct (a !! node_id n); simpl; lia.
Qed.

Lemma unvisited_all_unmarked g ns :
  (unvisited (with_activated_nodes (Some (all_unmarked ns)) g) <= length ns)%nat.
Proof.
  unfold unvisited, all_unmarked. simpl.
  etrans; [apply map_subseteq_size, map_filter_subseteq|].
  etrans; [apply foldl_unmark_size|]. rewrite map_size_empty. lia.
Qed.

Lemma get_node_fed X g r :
  length X = length (_input_nodes g) ->
  match get_node g r, get_node (fed X g) r with
  | Some n, Some n' => same_shape n n'
  | None, None => True
  | _, _ => False
  end.
Proof.
  intros Hlen. destruct r as [i| |i|i]; simpl.
  - rewrite lookup_zip_with.
    destruct (_input_nodes g !! i) as [n|] eqn:Hn; simpl; [|done].
    destruct (X !! i) as [x|] eqn:Hx; simpl; [done|].
    apply lookup_lt_Some in Hn. apply lookup_ge_None in Hx. lia.
  - by destruct (_bias_node g).
  - by destruct (_output_nodes g !! i).
  - by destruct (_hidden_nodes g !! i).
Qed.

Lemma processable_fed X g :
  valid_genome g -> adjacency_consistent g ->
  length X = length (_input_nodes g) -> processable (fed X g).
Proof.
  intros Hv Hadj Hlen.
  assert (Hback : forall r n', get_node (fed X g) r = Some n' ->
            exists n, get_node g r = Some n /\ same_shape n n').
  { intros r n' Hr. pose proof (get_node_fed X g r Hlen) as H.
    rewrite Hr in H. destruct (get_node g r); [eauto|done]. }
  split.
  - intros r n' Hr Hsink.
    destruct (Hback r n' Hr) as (n & Hn & Hid & Hty & _).
    destruct (is_sink_ref r) eqn:Href.
    + destruct Hv as (_ & Hint & Hb & _).
      destruct r as [i| |i|i]; try done; simpl in Hn.
      * rewrite Hty, (Forall_lookup_1 _ _ _ _ Hint Hn) in Hsink. done.
      * rewrite Hn in Hb. destruct (bias_value (config g)); [|done].
        destruct Hb as [_ Hb]. rewrite Hty, Hb in Hsink. done.
    + unfold is_activated, fed. simpl. unfold all_unmarked.
      rewrite foldl_unmark_lookup; [eauto|].
      rewrite map_app, elem_of_app.
      destruct r as [i| |i|i]; try done; simpl in Hr.
      * left. apply list_elem_of_fmap. exists n'. split; [done|].
        apply list_elem_of_lookup. eauto.
      * right. apply list_elem_of_fmap. exists n'. split; [done|].
        apply list_elem_of_lookup. eauto.
  - intros r n' ci Hr Hci.
    destruct (Hback r n' Hr) as (n & Hn & _ & _ & Hin). rewrite Hin in Hci.
    destruct Hadj as [Hsound _]. rewrite Forall_forall in Hsound.
    specialize (Hsound r). rewrite Hn in Hsound.
    destruct Hsound as [_ Hins]; [apply elem_of_node_refs; eauto|].
    rewrite Forall_forall in Hins. specialize (Hins ci Hci).
    change (connections (fed X g)) with (connections g).
    destruct (connections g !! ci) as [c|] eqn:Hc; [|done].
    exists c. split; [done|].
    destruct Hv as (_ & _ & _ & _ & _ & _ & Hconn).
    destruct (Forall_lookup_1 _ _ _ _ Hconn Hc) as (Hfrom & _ & _).
    apply ref_in_range_is_Some in Hfrom as [m Hm].
    pose proof (get_node_fed X g (from_node c) Hlen) as H.
    rewrite Hm in H. destruct (get_node (fed X g) (from_node c)); [eauto|done].
Qed.

(** The loop of [process] over the output nodes. *)
Lemma collect_outputs_returns (fuel : nat) (outs : list nat) :
  forall g,
    processable g -> (unvisited g < fuel)%nat ->
    (forall i, i ∈ outs -> is_Some (get_node g (OutputRef i))) ->
    exists h g',
      collect outs (fun i => _process_node fuel (OutputRef i)) g = Ok h g'
      /\ evolves g g'
      /\ length h = length outs
      /\ forall j i, outs !! j = Some i ->
           exists n', get_node g' (OutputRef i) = Some n'
                      /\ h !! j = Some (activation n').
Proof.
  induction outs as [|i outs IH]; intros g Hp Hfuel Houts.
  - exists [], g. split_and!; [done|apply evolves_refl|done|done].
  - cbn [collect]. unfold bind, ret.
    destruct (process_node_returns fuel (OutputRef i) g Hp Hfuel)
      as (v & g1 & -> & Hev1 & Hle1 & node1 & Hn1 & Hv1 & Hfr1).
    { apply Houts, list_elem_of_here. }
    destruct (IH g1) as (h & g2 & -> & Hev2 & Hlen & Hh).
    { by eapply processable_evolves. }
    { lia. }
    { intros k Hk. destruct (Houts k) as [m Hm]; [by apply list_elem_of_further|].
      destruct (evolves_get_node _ _ _ _ Hev1 Hm) as (m' & -> & _). eauto. }
    exists (v :: h), g2.
    split_and!; [done|by eapply evolves_trans|simpl; lia|].
    intros [|j] k Hk; simpl in Hk.
    + injection Hk as <-. exists node1. split; [|simpl; congruence].
      by apply (ev_frozen _ _ Hev2).
    + by apply Hh.
Qed.

(** C9.  On a valid genome whose adjacency lists agree with its connection
    sequence, [process(X)] raises the assertion error exactly when the
    length of [X] differs from the number of input nodes; otherwise it
    returns a vector with one entry per output node, the entry at position
    [i] being the activation of the [i]-th output node. *)
Theorem C9_process_contract (g : Genome) (X : list Q) :
  valid_genome g -> adjacency_consistent g ->
  (raised (process X g) = Some AssertionError
   <-> length X <> length (_input_nodes g))
  /\ (length X = length (_input_nodes g) ->
      exists h g',
        process X g = Ok h g'
        /\ length h = length (_output_nodes g)
        /\ forall i, h !! i = activation <$> (_output_nodes g' !! i)).
Proof.
  intros Hv Hadj.
  assert (Hok : length X = length (_input_nodes g) ->
      exists h g',
        process X g = Ok h g'
        /\ length h = length (_output_nodes g)
        /\ forall i, h !! i = activation <$> (_output_nodes g' !! i)).
  { intros Hlen. unfold process.
    rewrite (proj2 (Nat.eqb_eq _ _) Hlen). cbn [negb].
    change (with_activated_nodes _ _) with (fed X g).
    change (_output_nodes (fed X g)) with (_output_nodes g).
    change (_hidden_nodes (fed X g)) with (_hidden_nodes g).
    destruct (collect_outputs_returns
                (S (length (_output_nodes g) + length (_hidden_nodes g)))
                (seq 0 (length (_output_nodes g))) (fed X g))
      as (h & g' & -> & Hev & Hlenh & Hh).
    { by apply processable_fed. }
    { pose proof (unvisited_all_unmarked
                    (with_input_nodes
                       (zip_with (fun n x => activate x n) (_input_nodes g) X) g)
                    (_output_nodes g ++ _hidden_nodes g)) as Hu.
      rewrite length_app in Hu. unfold fed. simpl in *. lia. }
    { intros i Hi. apply elem_of_seq in Hi. simpl.
      apply lookup_lt_is_Some. lia. }
    rewrite length_seq in Hlenh.
    exists h, g'. split_and!; [done|done|]. intros i.
    destruct (decide (i < length (_output_nodes g))%nat) as [Hi|Hi].
    - destruct (Hh i i) as (n' & Hn' & ->); [by apply lookup_seq_lt|].
      simpl in Hn'. by rewrite Hn'.
    - rewrite (lookup_ge_None_2 h) by lia.
      pose proof (ev_shape _ _ Hev (OutputRef i)) as Hs. simpl in Hs.
      rewrite (lookup_ge_None_2 (_output_nodes g)) in Hs by lia.
      by destruct (_output_nodes g' !! i). }
  split; [|done]. split.
  - intros Hr Hlen. destruct (Hok Hlen) as (h & g' & Hp & _).
    by rewrite Hp in Hr.
  - intros Hne. unfold process.
    rewrite (proj2 (Nat.eqb_neq _ _) Hne). done.
Qed.

Lemma C9_process_contract_witness :
  (raised (process [2%Q; 3%Q] genome0) = Some AssertionError
   <-> length [2%Q; 3%Q] <> length (_input_nodes genome0))
  /\ (length [2%Q; 3%Q] = length (_input_nodes genome0) ->
      exists h g',
        process [2%Q; 3%Q] genome0 = Ok h g'
        /\ length h = length (_output_nodes genome0)
        /\ forall i, h !! i = activation <$> (_output_nodes g' !! i)).
Proof.
  apply (C9_process_contract genome0 [2%Q; 3%Q]);
    apply valid_genome0.
Defined.

(** ** Crossover: the offspring *)

(** The output loop of [__init__] without initial connections appends the
    output nodes and nothing else. *)
Lemma for_each_init_output_bare (ni : nat) (ks : list nat) (w : World) :
  for_each ks (init_output ni false) w
  = Ok tt (with_gen
             (with_output_nodes
                (_output_nodes (gen w)
                 ++ map (fun k =>
                           new_NodeGene
                             (outputs_base ni (config (gen w)) + Z.of_nat k)
                             OUTPUT (out_nodes_activation (config (gen w)))
                             (initial_node_activation (config (gen w)))) ks)
                (gen w)) w).
Proof.
  revert w. induction ks as [|k ks IH]; intros w.
  - destruct w as [g h r]. destruct g. simpl. by rewrite app_nil_r.
  - cbn [for_each]. unfold bind. unfold init_output at 1.
    rewrite IH. cbn. by rewrite <- app_assoc.
Qed.

Lemma shallow_copy_returns (self : Genome) (h : IdHandler.t) (r : Rng) :
  exists h',
    shallow_copy self h r
    = Ok tt {| gen := copied self (IdHandler._genome_counter h);
               handler := h'; random := r |}.
Proof.
  unfold shallow_copy, Genome__init__, bind, on_handler,
    IdHandler.next_genome_id.
  cbn [gen handler random]. rewrite for_each_init_output_bare.
  eexists. reflexivity.
Qed.

Lemma valid_copied (self : Genome) (gid : Z) : valid_genome (copied self gid).
Proof.
  unfold valid_genome, copied, sink_base, outputs_base. cbn.
  rewrite !length_map, !length_seq.
  split_and!.
  - rewrite map_map. done.
  - apply Forall_fmap, Forall_true. done.
  - destruct (bias_value (config self)); done.
  - rewrite map_map. apply map_ext. intros k. simpl.
    destruct (bias_value (config self)); done.
  - apply Forall_fmap, Forall_true. done.
  - constructor.
  - constructor.
Qed.

Lemma copied_layout (self : Genome) (gid : Z) :
  valid_genome self ->
  sink_base (copied self gid) = sink_base self
  /\ hidden_base (copied self gid) = hidden_base self.
Proof.
  intros (_ & _ & Hb & _).
  unfold sink_base, hidden_base, copied. cbn.
  rewrite !length_map, !length_seq.
  destruct (_bias_node self), (bias_value (config self)); done.
Qed.

Lemma valid_initial_id g r n :
  valid_genome g -> get_node g r = Some n ->
  match r with
  | HiddenRef _ =>
      node_type n = HIDDEN /\ (node_id n < 0 \/ hidden_base g <= node_id n)%Z
  | _ => node_id n = initial_id g r /\ node_type n <> HIDDEN
         /\ (0 <= node_id n < hidden_base g)%Z
  end.
Proof.
  intros (Hin & Hint & Hb & Hout & Houtt & Hhid & _) Hr.
  unfold hidden_base, sink_base in *.
  destruct r as [i| |k|i]; simpl in Hr |- *.
  - rewrite (lookup_numbered _ _ _ _ Hin Hr),
      (Forall_lookup_1 _ _ _ _ Hint Hr).
    apply lookup_lt_Some in Hr.
    split_and!; try done; destruct (_bias_node g); lia.
  - rewrite Hr in *. destruct (bias_value (config g)); [|done].
    destruct Hb as [-> ->]. split_and!; try done; lia.
  - rewrite (lookup_numbered _ _ _ _ Hout Hr),
      (Forall_lookup_1 _ _ _ _ Houtt Hr).
    apply lookup_lt_Some in Hr.
    split_and!; try done; destruct (_bias_node g); lia.
  - apply (Forall_lookup_1 _ _ _ _ Hhid Hr).
Qed.

(** The nodes of a valid genome without hidden nodes have distinct ids. *)
Lemma valid_initial_ids_distinct g r1 r2 n1 n2 :
  valid_genome g -> _hidden_nodes g = [] ->
  get_node g r1 = Some n1 -> get_node g r2 = Some n2 ->
  node_id n1 = node_id n2 -> r1 = r2.
Proof.
  intros Hv Hh H1 H2 Hid.
  pose proof (valid_initial_id _ _ _ Hv H1) as P1.
  pose proof (valid_initial_id _ _ _ Hv H2) as P2.
  destruct r1 as [i1| |k1|i1], r2 as [i2| |k2|i2]; simpl in *;
    try (by rewrite Hh in H1); try (by rewrite Hh in H2);
    destruct P1 as (E1 & _ & _), P2 as (E2 & _ & _);
    try apply lookup_lt_Some in H1; try apply lookup_lt_Some in H2;
    unfold sink_base in *; try done;
    try (f_equal; destruct (_bias_node g); simplify_eq; lia);
    exfalso; destruct (_bias_node g); simplify_eq; lia.
Qed.

(** [index_nodes] registers every node under its id. *)
Lemma index_nodes_sound g k r :
  index_nodes g !! k = Some r ->
  exists n, get_node g r = Some n /\ node_id n = k.
Proof.
  unfold index_nodes.
  assert (H : forall rs (a : gmap Z NodeRef),
             (forall k r, a !! k = Some r ->
                exists n, get_node g r = Some n /\ node_id n = k) ->
             forall k r,
               foldl (fun a r => match get_node g r with
                                 | Some n => <[node_id n := r]> a
                                 | None => a
                                 end) a rs !! k = Some r ->
               exists n, get_node g r = Some n /\ node_id n = k).
  { induction rs as [|x rs IH]; intros a Ha; simpl; [done|].
    apply IH. destruct (get_node g x) as [n|] eqn:Hx; [|done].
    intros k' r'. rewrite lookup_insert_Some.
    intros [[<- <-]|[_ Hold]]; eauto. }
  apply H. intros k' r'. by rewrite lookup_empty.
Qed.

Lemma index_nodes_complete g r n :
  (forall r1 r2 n1 n2, get_node g r1 = Some n1 -> get_node g r2 = Some n2 ->
                       node_id n1 = node_id n2 -> r1 = r2) ->
  get_node g r = Some n -> index_nodes g !! node_id n = Some r.
Proof.
  intros Hinj Hr. unfold index_nodes.
  assert (Hin : r ∈ node_refs g) by (apply elem_of_node_refs; eauto).
  revert Hin. generalize (node_refs g) as rs.
  induction rs as [|x rs IH] using rev_ind; intros Hin.
  - by apply elem_of_nil in Hin.
  - rewrite foldl_app. simpl.
    destruct (decide (x = r)) as [->|Hne].
    + rewrite Hr. apply lookup_insert_eq.
    + apply elem_of_app in Hin as [Hin|Hin];
        [|apply list_elem_of_singleton in Hin; congruence].
      destruct (get_node g x) as [m|] eqn:Hx; [|by apply IH].
      rewrite lookup_insert_ne; [by apply IH|].
      intros Hid. apply Hne. by eapply Hinj.
Qed.

(** The invariant holds when the loop starts. *)
Lemma mate_inv_start (self : Genome) (gid : Z) :
  valid_genome self ->
  mate_inv (hidden_base self) (sink_base self)
           (index_nodes (copied self gid)) (copied self gid).
Proof.
  intros Hv.
  pose proof (valid_copied self gid) as Hvc.
  destruct (copied_layout self gid Hv) as [Hsb Hhb].
  assert (Hinj : forall r1 r2 n1 n2,
             get_node (copied self gid) r1 = Some n1 ->
             get_node (copied self gid) r2 = Some n2 ->
             node_id n1 = node_id n2 -> r1 = r2)
    by (intros; by eapply (valid_initial_ids_distinct (copied self gid))).
  split.
  - apply index_nodes_sound.
  - intros r n. by apply index_nodes_complete.
  - intros k Hk.
    (* the node that carries the id [k] *)
    assert (Hex : exists r n, get_node (copied self gid) r = Some n
                              /\ node_id n = k).
    { rewrite <- Hhb in Hk. unfold hidden_base in Hk.
      destruct Hvc as (Hin & _ & Hb & Hout & _).
      destruct (decide (k < Z.of_nat (length (_input_nodes (copied self gid))))%Z)
        as [Hlt|Hge].
      - destruct (lookup_lt_is_Some_2 (_input_nodes (copied self gid))
                    (Z.to_nat k)) as [n Hn]; [lia|].
        exists (InputRef (Z.to_nat k)), n. split; [done|].
        rewrite (lookup_numbered _ _ _ _ Hin Hn). lia.
      - destruct (_bias_node (copied self gid)) as [b|] eqn:Hbias.
        + destruct (decide (k = Z.of_nat (length (_input_nodes (copied self gid)))))
            as [->|Hne].
          * exists BiasRef, b. split; [done|].
            destruct (bias_value (config (copied self gid))); [|done].
            by destruct Hb.
          * destruct (lookup_lt_is_Some_2 (_output_nodes (copied self gid))
                        (Z.to_nat (k - sink_base (copied self gid))))
              as [n Hn]; [unfold sink_base; rewrite Hbias; lia|].
            exists (OutputRef (Z.to_nat (k - sink_base (copied self gid)))), n.
            split; [done|].
            rewrite (lookup_numbered _ _ _ _ Hout Hn).
            unfold sink_base. rewrite Hbias. lia.
        + destruct (lookup_lt_is_Some_2 (_output_nodes (copied self gid))
                      (Z.to_nat (k - sink_base (copied self gid))))
            as [n Hn]; [unfold sink_base; rewrite Hbias; lia|].
          exists (OutputRef (Z.to_nat (k - sink_base (copied self gid)))), n.
          split; [done|].
          rewrite (lookup_numbered _ _ _ _ Hout Hn).
          unfold sink_base. rewrite Hbias. lia. }
    destruct Hex as (r & n & Hr & <-).
    rewrite (index_nodes_complete _ _ _ Hinj Hr). eauto.
  - intros r n Hr Hsink. rewrite <- Hsb. by eapply valid_sink_id.
  - intros ci c Hc. simpl in Hc. by rewrite lookup_nil in Hc.
  - intros r s ci Hr Hci. exfalso.
    destruct r as [i| |k|i]; simpl in Hr.
    + rewrite list_lookup_fmap in Hr.
      destruct (seq 0 (length (_input_nodes self)) !! i); simpl in Hr; simplify_eq.
      simpl in Hci. by apply elem_of_nil in Hci.
    + destruct (bias_value (config self)); simpl in Hr; simplify_eq.
      simpl in Hci. by apply elem_of_nil in Hci.
    + rewrite list_lookup_fmap in Hr.
      destruct (seq 0 (length (_output_nodes self)) !! k); simpl in Hr; simplify_eq.
      simpl in Hci. by apply elem_of_nil in Hci.
    + by rewrite lookup_nil in Hr.
  - simpl. constructor.
Qed.

Lemma get_node_push_hidden x g r n :
  get_node g r = Some n ->
  get_node (with_hidden_nodes (_hidden_nodes g ++ [x]) g) r = Some n.
Proof.
  destruct r; simpl; try done. intros H. by apply lookup_app_l_Some.
Qed.

Lemma get_node_push_hidden_inv x g r n :
  get_node (with_hidden_nodes (_hidden_nodes g ++ [x]) g) r = Some n ->
  get_node g r = Some n
  \/ (r = HiddenRef (length (_hidden_nodes g)) /\ n = x).
Proof.
  destruct r as [i| |k|i]; simpl; try (by left).
  intros H. apply lookup_app_Some in H as [H|[Hge H]]; [by left|].
  right. apply list_lookup_singleton_Some in H as [Hi ->].
  split; [f_equal; lia|done].
Qed.

Lemma endpoint_ids_ext g g' cs :
  (forall r n, get_node g r = Some n ->
               exists n', get_node g' r = Some n' /\ node_id n' = node_id n) ->
  (forall c, c ∈ cs -> is_Some (get_node g (from_node c))
                       /\ is_Some (get_node g (to_node c))) ->
  map (endpoint_ids g') cs = map (endpoint_ids g) cs.
Proof.
  intros Hnodes Hcs. apply map_ext_in. intros c Hc.
  apply list_elem_of_In in Hc. destruct (Hcs c Hc) as [[s Hs] [d Hd]].
  destruct (Hnodes _ _ Hs) as (s' & Hs' & Hids).
  destruct (Hnodes _ _ Hd) as (d' & Hd' & Hidd).
  unfold endpoint_ids. rewrite Hs, Hd, Hs', Hd'. simpl. by rewrite Hids, Hidd.
Qed.

Lemma mate_inv_endpoints base sinks added g c :
  mate_inv base sinks added g -> c ∈ connections g ->
  is_Some (get_node g (from_node c)) /\ is_Some (get_node g (to_node c)).
Proof.
  intros Hinv Hc. apply list_elem_of_lookup in Hc as [ci Hci].
  destruct (inv_listed _ _ _ _ Hinv ci c Hci) as (s & Hs & _ & Hd). eauto.
Qed.

(** Copying a new node into the offspring keeps the invariant. *)
Lemma mate_inv_push base sinks added g x :
  mate_inv base sinks added g ->
  added !! node_id x = None ->
  is_sink (node_type x) = false ->
  out_connections x = [] ->
  mate_inv base sinks
    (<[node_id x := HiddenRef (length (_hidden_nodes g))]> added)
    (with_hidden_nodes (_hidden_nodes g ++ [x]) g).
Proof.
  intros Hinv Hfresh Hsink Hout.
  set (g' := with_hidden_nodes (_hidden_nodes g ++ [x]) g).
  assert (Hnew : get_node g' (HiddenRef (length (_hidden_nodes g))) = Some x).
  { simpl. rewrite lookup_app_r, Nat.sub_diag by done. done. }
  split.
  - intros k r. rewrite lookup_insert_Some. intros [[<- <-]|[Hne Hk]].
    + eauto.
    + destruct (inv_sound _ _ _ _ Hinv k r Hk) as (n & Hn & Hid).
      exists n. split; [by apply get_node_push_hidden|done].
  - intros r n Hr. apply get_node_push_hidden_inv in Hr as [Hr|[-> ->]].
    + pose proof (inv_complete _ _ _ _ Hinv r n Hr) as Hk.
      rewrite lookup_insert_ne; [done|]. congruence.
    + apply lookup_insert_eq.
  - intros k Hk. destruct (inv_initial _ _ _ _ Hinv k Hk) as [r Hr].
    destruct (decide (node_id x = k)) as [<-|Hne]; [congruence|].
    rewrite lookup_insert_ne by done. eauto.
  - intros r n Hr Hs. apply get_node_push_hidden_inv in Hr as [Hr|[-> ->]].
    + by eapply (inv_sinks _ _ _ _ Hinv).
    + congruence.
  - intros ci c Hc. change (connections g') with (connections g) in Hc.
    destruct (inv_listed _ _ _ _ Hinv ci c Hc) as (s & Hs & Hci & [d Hd]).
    exists s. split_and!; [by apply get_node_push_hidden|done|].
    exists d. by apply get_node_push_hidden.
  - intros r s ci Hr Hci. change (connections g') with (connections g).
    apply get_node_push_hidden_inv in Hr as [Hr|[-> ->]].
    + by eapply (inv_outs _ _ _ _ Hinv).
    + rewrite Hout in Hci. by apply elem_of_nil in Hci.
  - change (connections g') with (connections g).
    rewrite (endpoint_ids_ext g g').
    + apply (inv_nodup _ _ _ _ Hinv).
    + intros r n Hr. exists n. split; [by apply get_node_push_hidden|done].
    + intros c Hc. by eapply mate_inv_endpoints.
Qed.

(** The loop over the endpoints of the chosen gene. *)
Lemma adopt_endpoint_inv base sinks added g parent r node :
  mate_inv base sinks added g ->
  get_node parent r = Some node ->
  (node_type node = HIDDEN \/ (0 <= node_id node < base)%Z) ->
  exists added' g',
    adopt_endpoint parent r added g = Some (added', g')
    /\ mate_inv base sinks added' g'
    /\ is_Some (added' !! node_id node)
    /\ (forall k, is_Some (added !! k) -> is_Some (added' !! k)).
Proof.
  intros Hinv Hr Hrange. unfold adopt_endpoint. rewrite Hr. simpl.
  case_decide as Hadopt.
  - destruct Hadopt as [Hty Hfresh].
    eexists _, _. split_and!; [done| | |].
    + apply (mate_inv_push base sinks added g (node_shallow_copy node));
        try done. simpl. by rewrite Hty.
    + rewrite lookup_insert_eq. eauto.
    + intros k [r' Hk]. destruct (decide (node_id node = k)) as [<-|Hne].
      * congruence.
      * rewrite lookup_insert_ne by done. eauto.
  - exists added, g. split_and!; [done|done| |done].
    destruct (added !! node_id node) eqn:Hk; [eauto|].
    destruct Hrange as [Hty|Hk']; [by destruct Hadopt|].
    rewrite <- Hk. by apply (inv_initial _ _ _ _ Hinv).
Qed.

Lemma scan_out_connections_decided g outs nid :
  (forall ci, ci ∈ outs ->
     exists c n, connections g !! ci = Some c
                 /\ get_node g (to_node c) = Some n) ->
  exists b, scan_out_connections g outs nid = Some b.
Proof.
  induction outs as [|a outs IH]; simpl; intros Hres; [eauto|].
  destruct (Hres a) as (c & n & Hc & Hn); [apply list_elem_of_here|].
  rewrite Hc. simpl. rewrite Hn. simpl. case_decide; [eauto|].
  apply IH. intros ci Hci. by apply Hres, list_elem_of_further.
Qed.

Lemma mate_inv_connection_exists base sinks added g r s d :
  mate_inv base sinks added g -> get_node g r = Some s ->
  exists b, connection_exists g s d = Some b.
Proof.
  intros Hinv Hs. apply scan_out_connections_decided. intros ci Hci.
  destruct (inv_outs _ _ _ _ Hinv r s ci Hs Hci) as [c Hc].
  destruct (inv_listed _ _ _ _ Hinv ci c Hc) as (_ & _ & _ & [n Hn]). eauto.
Qed.

(** Linking a pair of nodes that [connection_exists] does not know keeps
    the invariant. *)
Lemma mate_inv_link base sinks added g c s d :
  mate_inv base sinks added g ->
  get_node g (from_node c) = Some s ->
  get_node g (to_node c) = Some d ->
  connection_exists g s d = Some false ->
  mate_inv base sinks added (link_connection c g).
Proof.
  intros Hinv Hs Hd Hex.
  set (ci0 := length (connections g)).
  assert (Hfwd : forall r n, get_node g r = Some n ->
            get_node (link_connection c g) r = Some (touch c ci0 r n))
    by (intros r n Hr; by rewrite get_node_link, Hr).
  assert (Hback : forall r n', get_node (link_connection c g) r = Some n' ->
            exists n, get_node g r = Some n /\ n' = touch c ci0 r n).
  { intros r n'. rewrite get_node_link.
    destruct (get_node g r) as [n|]; simpl; [|done].
    intros [= <-]. eauto. }
  split.
  - intros k r Hk. destruct (inv_sound _ _ _ _ Hinv k r Hk) as (n & Hn & Hid).
    exists (touch c ci0 r n). split; [by apply Hfwd|by rewrite node_id_touch].
  - intros r n' Hr. destruct (Hback r n' Hr) as (n & Hn & ->).
    rewrite node_id_touch. by apply (inv_complete _ _ _ _ Hinv).
  - apply (inv_initial _ _ _ _ Hinv).
  - intros r n' Hr Hsink. destruct (Hback r n' Hr) as (n & Hn & ->).
    rewrite node_id_touch. rewrite node_type_touch in Hsink.
    by eapply (inv_sinks _ _ _ _ Hinv).
  - intros ci c'. rewrite connections_link.
    intros Hc. apply lookup_app_Some in Hc as [Hc|[Hge Hc]].
    + destruct (inv_listed _ _ _ _ Hinv ci c' Hc) as (s' & Hs' & Hci & [d' Hd']).
      exists (touch c ci0 (from_node c') s').
      split_and!; [by apply Hfwd| |rewrite (Hfwd _ _ Hd'); eauto].
      rewrite out_connections_touch. case_decide; [|done].
      apply elem_of_app. by left.
    + apply list_lookup_singleton_Some in Hc as [Hi Heq]. subst c'.
      exists (touch c ci0 (from_node c) s).
      split_and!; [by apply Hfwd| |rewrite (Hfwd _ _ Hd); eauto].
      rewrite out_connections_touch, decide_True by done.
      apply elem_of_app. right. apply list_elem_of_singleton.
      unfold ci0. lia.
  - intros r n' ci Hr Hci. destruct (Hback r n' Hr) as (n & Hn & ->).
    rewrite connections_link. rewrite out_connections_touch in Hci.
    assert (Hold : ci ∈ out_connections n ->
                   is_Some ((connections g ++ [c]) !! ci)).
    { intros Hin. destruct (inv_outs _ _ _ _ Hinv r n ci Hn Hin) as [c' Hc'].
      rewrite (lookup_app_l_Some _ _ _ _ Hc'). eauto. }
    case_decide; [|by apply Hold].
    apply elem_of_app in Hci as [Hci|Hci]; [by apply Hold|].
    apply list_elem_of_singleton in Hci as ->.
    rewrite lookup_app_r, Nat.sub_diag by done. simpl. eauto.
  - rewrite connections_link, map_app. simpl.
    rewrite (endpoint_ids_ext g (link_connection c g) (connections g)).
    2:{ intros r n Hr. exists (touch c ci0 r n).
        split; [by apply Hfwd|by rewrite node_id_touch]. }
    2:{ intros c' Hc'. by eapply mate_inv_endpoints. }
    apply NoDup_app. split_and!.
    + apply (inv_nodup _ _ _ _ Hinv).
    + intros p Hp Hp'. apply list_elem_of_singleton in Hp'. subst p.
      apply list_elem_of_fmap in Hp as (c' & Heq & Hc').
      apply list_elem_of_lookup in Hc' as [ci Hci].
      destruct (inv_listed _ _ _ _ Hinv ci c' Hci)
        as (s' & Hs' & Hin & [d' Hd']).
      unfold endpoint_ids in Heq.
      rewrite (Hfwd _ _ Hs), (Hfwd _ _ Hd), Hs', Hd' in Heq. simpl in Heq.
      rewrite !node_id_touch in Heq. injection Heq as Hids Hidd.
      (* the source of [c'] is the source of [c] *)
      pose proof (inv_complete _ _ _ _ Hinv _ _ Hs) as K1.
      pose proof (inv_complete _ _ _ _ Hinv _ _ Hs') as K2.
      rewrite Hids in K1. rewrite K1 in K2. injection K2 as Hfrom.
      rewrite <- Hfrom, Hs in Hs'. injection Hs' as <-.
      destruct (scan_out_connections_false_inv _ _ _ Hex ci Hin)
        as (c'' & n'' & Hc'' & Hn'' & Hne).
      rewrite Hci in Hc''. injection Hc'' as <-.
      rewrite Hd' in Hn''. injection Hn'' as <-. congruence.
    + apply NoDup_singleton.
Qed.

Lemma valid_parent_gene (parent : Genome) (c : ConnectionGene) :
  valid_genome parent -> c ∈ connections parent ->
  parent_gene_ok (hidden_base parent) (sink_base parent) parent c.
Proof.
  intros Hv Hc.
  pose proof Hv as (_ & _ & _ & _ & _ & _ & Hconn).
  rewrite Forall_forall in Hconn. destruct (Hconn c Hc) as (Hfrom & Hto & Hns).
  apply ref_in_range_is_Some in Hfrom as [src Hsrc].
  apply ref_in_range_is_Some in Hto as [dest Hdest].
  exists src, dest. split_and!; try done.
  - pose proof (valid_initial_id _ _ _ Hv Hsrc) as H.
    destruct (from_node c); tauto.
  - pose proof (valid_initial_id _ _ _ Hv Hdest) as H.
    destruct (to_node c); tauto.
  - by destruct (valid_nonsink_ref _ _ _ Hv Hdest Hns).
Qed.

(** Inheriting a gene keeps the invariant and raises nothing. *)
Lemma inherit_gene_inv base sinks gen1 parent c1 c2 c added w :
  mate_inv base sinks added (gen w) ->
  parent_gene_ok base sinks parent c ->
  exists added' w',
    inherit_gene gen1 parent c1 c2 c added w = Ok added' w'
    /\ mate_inv base sinks added' (gen w').
Proof.
  intros Hinv (src & dest & Hsrc & Hdest & Rsrc & Rdest & Rsink).
  unfold inherit_gene.
  destruct (adopt_endpoint_inv _ _ _ _ parent _ _ Hinv Hsrc Rsrc)
    as (added1 & g1 & -> & Hinv1 & Hk1 & _).
  destruct (adopt_endpoint_inv _ _ _ _ parent _ _ Hinv1 Hdest Rdest)
    as (added2 & g2 & -> & Hinv2 & [dr Hdr] & Hmono).
  destruct (Hmono _ Hk1) as [sr Hsr].
  destruct (inherited_enabled c1 c2 _ (random w)) as [en r].
  rewrite Hsrc, Hdest, Hsr, Hdr.
  destruct (inv_sound _ _ _ _ Hinv2 _ _ Hsr) as (s & Hs & Hids).
  destruct (inv_sound _ _ _ _ Hinv2 _ _ Hdr) as (d & Hd & Hidd).
  set (w2 := {| gen := g2; handler := handler w; random := r |}).
  destruct (mate_inv_connection_exists _ _ _ _ sr s d Hinv2 Hs) as [[] Hex].
  - exists added2, w2. split; [|done].
    unfold add_connection. cbn [gen w2]. by rewrite Hs, Hd, Hex.
  - assert (Hsink : is_sink (node_type d) = false).
    { destruct (is_sink (node_type d)) eqn:E; [|done].
      pose proof (inv_sinks _ _ _ _ Hinv2 _ _ Hd E). lia. }
    destruct (add_connection_returns sr dr en (Some (conn_id c))
                (Some (weight c)) w2 s d Hs Hd Hex Hsink) as [w3 Hw3].
    rewrite Hw3. exists added2, w3. split; [done|].
    destruct (add_connection_return_inv _ _ _ _ _ _ _ Hw3)
      as (s' & d' & c' & Hs' & Hd' & Hex' & _ & Hg & Hf & Ht & _).
    rewrite Hg. cbn [gen w2] in *.
    apply (mate_inv_link base sinks added2 g2 c' s' d'); try done.
    + by rewrite Hf.
    + by rewrite Ht.
Qed.

(** The genes of an alignment are genes of the aligned sequences. *)
Lemma align_slots_sources l1 l2 :
  Forall (fun slot =>
            (forall c, slot.1 = Some c -> c ∈ l1)
            /\ (forall c, slot.2 = Some c -> c ∈ l2))
         (align_slots l1 l2).
Proof.
  revert l2. induction l1 as [|a l1 IH1]; intros l2.
  - rewrite align_slots_nil_l. apply Forall_fmap, Forall_forall.
    intros c Hc. simpl. split; [done|]. by intros ? [= <-].
  - induction l2 as [|b l2 IH2].
    + rewrite align_slots_nil_r. apply Forall_fmap, Forall_forall.
      intros c Hc. simpl. split; [|done]. by intros ? [= <-].
    + rewrite align_slots_cons.
      destruct (conn_id a <? conn_id b)%Z; [|destruct (conn_id b <? conn_id a)%Z].
      * constructor.
        -- simpl. split; [|done]. intros ? [= <-]. apply list_elem_of_here.
        -- eapply Forall_impl; [apply IH1|]. simpl.
           intros slot [H1 H2]. split; [|done].
           intros c Hc. by apply list_elem_of_further, H1.
      * constructor.
        -- simpl. split; [done|]. intros ? [= <-]. apply list_elem_of_here.
        -- eapply Forall_impl; [apply IH2|]. simpl.
           intros slot [H1 H2]. split; [done|].
           intros c Hc. by apply list_elem_of_further, H2.
      * constructor.
        -- simpl. split; intros ? [= <-]; apply list_elem_of_here.
        -- eapply Forall_impl; [apply IH1|]. simpl.
           intros slot [H1 H2].
           split; intros c Hc; apply list_elem_of_further; auto.
Qed.

(** One round of the loop keeps the invariant and raises nothing. *)
Lemma mate_slot_inv base sinks gen1 gen2 slot added w :
  mate_inv base sinks added (gen w) ->
  (forall c, slot.1 = Some c -> parent_gene_ok base sinks gen1 c) ->
  (forall c, slot.2 = Some c -> parent_gene_ok base sinks gen2 c) ->
  exists added' w',
    mate_slot gen1 gen2 slot added w = Ok added' w'
    /\ mate_inv base sinks added' (gen w').
Proof.
  intros Hinv H1 H2. unfold mate_slot. destruct slot as [c1 c2].
  destruct (if c1 is None then _ else false); [eauto|].
  destruct (if c2 is None then _ else false); [eauto|].
  destruct (choice_index 2 (random w)) as [k r].
  case_decide.
  - destruct c1 as [c|]; [|eauto].
    apply inherit_gene_inv; [done|]. by apply H1.
  - destruct c2 as [c|]; [|eauto].
    apply inherit_gene_inv; [done|]. by apply H2.
Qed.

Lemma mate_loop_inv base sinks gen1 gen2 slots :
  Forall (fun slot =>
            (forall c, slot.1 = Some c -> parent_gene_ok base sinks gen1 c)
            /\ (forall c, slot.2 = Some c -> parent_gene_ok base sinks gen2 c))
         slots ->
  forall added w,
    mate_inv base sinks added (gen w) ->
    exists added' w',
      mate_loop gen1 gen2 slots added w = Ok added' w'
      /\ mate_inv base sinks added' (gen w').
Proof.
  induction 1 as [|slot slots [H1 H2] _ IH]; intros added w Hinv.
  - exists added, w. done.
  - cbn [mate_loop]. unfold bind.
    destruct (mate_slot_inv _ _ gen1 gen2 slot added w Hinv H1 H2)
      as (added1 & w1 & -> & Hinv1).
    by apply IH.
Qed.

(** The loop of [mate_genomes] on two valid parents of one layout, once
    the offspring has its id: every connection gene joins two nodes of the
    offspring and no two connection genes join the same (source id,
    destination id) pair. *)
Lemma mate_genomes_offspring_inv
    (gen1 gen2 : Genome) (h : IdHandler.t) (r : Rng) :
  valid_genome gen1 -> valid_genome gen2 -> same_layout gen1 gen2 ->
  exists w',
    mate_genomes gen1 gen2 h r = Ok tt w'
    /\ Forall (fun c => is_Some (endpoint_ids (gen w') c))
              (connections (gen w'))
    /\ NoDup (map (endpoint_ids (gen w')) (connections (gen w'))).
Proof.
  intros Hv1 Hv2 (Hli & Hlo & Hlb).
  assert (Hbase : sink_base gen2 = sink_base gen1
                  /\ hidden_base gen2 = hidden_base gen1).
  { unfold sink_base, hidden_base. rewrite Hli, Hlo.
    destruct (_bias_node gen1), (_bias_node gen2); try done.
    - by pose proof (proj2 Hlb eq_refl).
    - by pose proof (proj1 Hlb eq_refl). }
  destruct Hbase as [Hsb Hhb].
  unfold mate_genomes.
  destruct (shallow_copy_returns gen1 h r) as [h' ->].
  rewrite zip_align_connections. cbn [gen].
  destruct (mate_loop_inv (hidden_base gen1) (sink_base gen1) gen1 gen2
              (align_slots (connections gen1) (connections gen2)))
    with (added := index_nodes (copied gen1 (IdHandler._genome_counter h)))
         (w := {| gen := copied gen1 (IdHandler._genome_counter h);
                  handler := h'; random := r |})
    as (added' & w' & Hloop & Hinv).
  - eapply Forall_impl; [apply align_slots_sources|].
    intros slot [H1 H2]. split; intros c Hc.
    + by apply valid_parent_gene, H1.
    + rewrite <- Hsb, <- Hhb. by apply valid_parent_gene, H2.
  - by apply mate_inv_start.
  - cbn [gen] in Hloop. rewrite Hloop. exists w'. split_and!; [done| |].
    + apply Forall_forall. intros c Hc.
      destruct (mate_inv_endpoints _ _ _ _ c Hinv Hc) as [[s Hs] [d Hd]].
      unfold endpoint_ids. rewrite Hs, Hd. simpl. eauto.
    + apply (inv_nodup _ _ _ _ Hinv).
Qed.

Lemma valid_genome1 : valid_genome genome1.
Proof.
  apply (bool_decide_unpack (valid_genome genome1)). vm_compute. exact I.
Qed.

(** Whenever [mate_genomes] returns for two valid parents of one layout,
    every connection gene of the offspring joins two nodes of the offspring
    and no two connection genes join the same (source id, destination id)
    pair. *)
Theorem mate_genomes_offspring_without_duplicates
    (gen1 gen2 : Genome) (h : IdHandler.t) (r : Rng) (w' : World) :
  valid_genome gen1 -> valid_genome gen2 -> same_layout gen1 gen2 ->
  mate_genomes gen1 gen2 h r = Ok tt w' ->
  Forall (fun c => is_Some (endpoint_ids (gen w') c)) (connections (gen w'))
  /\ NoDup (map (endpoint_ids (gen w')) (connections (gen w'))).
Proof.
  intros Hv1 Hv2 Hl Hrun.
  destruct (mate_genomes_offspring_inv gen1 gen2 h r Hv1 Hv2 Hl)
    as (w1 & Hrun1 & H).
  rewrite Hrun in Hrun1. by injection Hrun1 as ->.
Qed.

Lemma mate_genomes_offspring_without_duplicates_witness :
  Forall (fun c =>
            is_Some
              (endpoint_ids
                 (gen (final_state
                         (mate_genomes genome0 genome1 handler0
                                       (constant_rng 1)))) c))
         (connections
            (gen (final_state
                    (mate_genomes genome0 genome1 handler0 (constant_rng 1)))))
  /\ NoDup
       (map (endpoint_ids
               (gen (final_state
                       (mate_genomes genome0 genome1 handler0
                                     (constant_rng 1)))))
            (connections
               (gen (final_state
                       (mate_genomes genome0 genome1 handler0
                                     (constant_rng 1)))))).
Proof.
  apply (mate_genomes_offspring_without_duplicates genome0 genome1 handler0
           (constant_rng 1)).
  - apply valid_genome0.
  - apply valid_genome1.
  - split_and!; vm_compute; try reflexivity. split; discriminate.
  - vm_compute. reflexivity.
Defined.

(** ** The id handler: caching and freshness *)

Lemma cached_insert (cache : gmap Z (gmap Z Z)) (row : gmap Z Z)
    (s d i s' d' : Z) :
  (cache !! s = Some row \/ (cache !! s = None /\ row = ∅)) ->
  cached (<[s := <[d := i]> row]> cache) s' d'
  = if decide (s = s' /\ d = d') then Some i else cached cache s' d'.
Proof.
  intros Hrow. unfold cached.
  destruct (decide (s = s')) as [<-|Hs].
  - rewrite lookup_insert_eq. simpl.
    destruct (decide (d = d')) as [<-|Hd].
    + rewrite lookup_insert_eq. by rewrite decide_True.
    + rewrite lookup_insert_ne by done. rewrite decide_False by tauto.
      destruct Hrow as [->|[-> ->]]; simpl; [done|]. by rewrite lookup_empty.
  - rewrite lookup_insert_ne by done. by rewrite decide_False by tauto.
Qed.

Lemma cache_ok_alloc (cache : gmap Z (gmap Z Z)) (row : gmap Z Z)
    (counter s d : Z) :
  cache_ok cache counter ->
  (cache !! s = Some row \/ (cache !! s = None /\ row = ∅)) ->
  cached cache s d = None ->
  cache_ok (<[s := <[d := counter]> row]> cache) (counter + 1).
Proof.
  intros [Hlt Hinj] Hrow Hmiss. split.
  - intros s' d' i. rewrite (cached_insert _ _ _ _ _ _ _ Hrow).
    case_decide; [intros [= <-]; lia|]. intros Hx%Hlt. lia.
  - intros s1 d1 s2 d2 i. rewrite !(cached_insert _ _ _ _ _ _ _ Hrow).
    destruct (decide (s = s1 /\ d = d1)) as [[E1 E2]|N1];
      destruct (decide (s = s2 /\ d = d2)) as [[E3 E4]|N2].
    + intros _ _. split; congruence.
    + intros [= <-] Hx%Hlt. lia.
    + intros Hx%Hlt [= <-]. lia.
    + apply Hinj.
Qed.

Lemma cache_ok_empty (counter : Z) : cache_ok ∅ counter.
Proof.
  split; intros s d; unfold cached; rewrite lookup_empty; done.
Qed.

(** What a call of [next_hidden_node_id] with both ids present does:
    a hit returns the cached id and changes nothing; a miss returns the
    node counter, increments it and caches the id. *)
Lemma next_hidden_node_id_cases (s d : Z) (h : IdHandler.t) :
  (exists i, cached (IdHandler._new_nodes_ids h) s d = Some i
             /\ IdHandler.next_hidden_node_id (Some s) (Some d) h = Ok i h)
  \/ (exists row,
         cached (IdHandler._new_nodes_ids h) s d = None
         /\ (IdHandler._new_nodes_ids h !! s = Some row
             \/ (IdHandler._new_nodes_ids h !! s = None /\ row = ∅))
         /\ IdHandler.next_hidden_node_id (Some s) (Some d) h
            = IdHandler.alloc_node s d row h).
Proof.
  unfold IdHandler.next_hidden_node_id, cached.
  destruct (IdHandler._new_nodes_ids h !! s) as [row|] eqn:Hs; simpl.
  - destruct (row !! d) as [i|] eqn:Hd; [left; eauto|].
    right. exists row. eauto.
  - right. exists ∅. eauto.
Qed.

Lemma next_connection_id_cases (s d : Z) (h : IdHandler.t) :
  (exists i, cached (IdHandler._new_connections_ids h) s d = Some i
             /\ IdHandler.next_connection_id s d h = Ok i h)
  \/ (exists row,
         cached (IdHandler._new_connections_ids h) s d = None
         /\ (IdHandler._new_connections_ids h !! s = Some row
             \/ (IdHandler._new_connections_ids h !! s = None /\ row = ∅))
         /\ IdHandler.next_connection_id s d h
            = IdHandler.alloc_connection s d row h).
Proof.
  unfold IdHandler.next_connection_id, cached.
  destruct (IdHandler._new_connections_ids h !! s) as [row|] eqn:Hs; simpl.
  - destruct (row !! d) as [i|] eqn:Hd; [left; eauto|].
    right. exists row. eauto.
  - right. exists ∅. eauto.
Qed.

(** After a call the id is cached for the pair. *)
Lemma next_hidden_node_id_cached (s d i : Z) (h h1 : IdHandler.t) :
  IdHandler.next_hidden_node_id (Some s) (Some d) h = Ok i h1 ->
  cached (IdHandler._new_nodes_ids h1) s d = Some i.
Proof.
  destruct (next_hidden_node_id_cases s d h)
    as [(j & Hj & ->)|(row & Hmiss & Hrow & ->)].
  - by intros [= <- <-].
  - unfold IdHandler.alloc_node. intros [= <- <-]. simpl.
    rewrite (cached_insert _ _ _ _ _ _ _ Hrow). by rewrite decide_True.
Qed.

Lemma next_connection_id_cached (s d i : Z) (h h1 : IdHandler.t) :
  IdHandler.next_connection_id s d h = Ok i h1 ->
  cached (IdHandler._new_connections_ids h1) s d = Some i.
Proof.
  destruct (next_connection_id_cases s d h)
    as [(j & Hj & ->)|(row & Hmiss & Hrow & ->)].
  - by intros [= <- <-].
  - unfold IdHandler.alloc_connection. intros [= <- <-]. simpl.
    rewrite (cached_insert _ _ _ _ _ _ _ Hrow). by rewrite decide_True.
Qed.

(** Within a generation, asking twice for the node that splits the same
    connection gives the same id, and the second call leaves the handler as
    it is. *)
Theorem next_hidden_node_id_repeats (s d i : Z) (h h1 : IdHandler.t) :
  IdHandler.next_hidden_node_id (Some s) (Some d) h = Ok i h1 ->
  IdHandler.next_hidden_node_id (Some s) (Some d) h1 = Ok i h1.
Proof.
  intros H1. apply next_hidden_node_id_cached in H1.
  destruct (next_hidden_node_id_cases s d h1)
    as [(j & Hj & ->)|(row & Hmiss & _)]; congruence.
Qed.

Lemma next_hidden_node_id_repeats_witness :
  IdHandler.next_hidden_node_id (Some 0%Z) (Some 3%Z)
    (final_state (IdHandler.next_hidden_node_id (Some 0%Z) (Some 3%Z) handler0))
  = Ok 4%Z
       (final_state (IdHandler.next_hidden_node_id (Some 0%Z) (Some 3%Z) handler0)).
Proof.
  apply (next_hidden_node_id_repeats 0 3 4 handler0). reflexivity.
Defined.

(** The same for connection ids. *)
Theorem next_connection_id_repeats (s d i : Z) (h h1 : IdHandler.t) :
  IdHandler.next_connection_id s d h = Ok i h1 ->
  IdHandler.next_connection_id s d h1 = Ok i h1.
Proof.
  intros H1. apply next_connection_id_cached in H1.
  destruct (next_connection_id_cases s d h1)
    as [(j & Hj & ->)|(row & Hmiss & _)]; congruence.
Qed.

Lemma next_connection_id_repeats_witness :
  IdHandler.next_connection_id 0 3
    (final_state (IdHandler.next_connection_id 0 3 handler0))
  = Ok 2%Z (final_state (IdHandler.next_connection_id 0 3 handler0)).
Proof.
  apply (next_connection_id_repeats 0 3 2 handler0). reflexivity.
Defined.

Lemma handler_ok_next_hidden_node_id (s d : option Z) (h : IdHandler.t) :
  handler_ok h ->
  handler_ok (final_state (IdHandler.next_hidden_node_id s d h)).
Proof.
  intros [Hn Hc]. destruct s as [s|], d as [d|]; try done.
  destruct (next_hidden_node_id_cases s d h)
    as [(j & Hj & ->)|(row & Hmiss & Hrow & ->)]; [done|].
  split; [|done]. simpl. by apply cache_ok_alloc.
Qed.

Lemma handler_ok_next_connection_id (s d : Z) (h : IdHandler.t) :
  handler_ok h ->
  handler_ok (final_state (IdHandler.next_connection_id s d h)).
Proof.
  intros [Hn Hc].
  destruct (next_connection_id_cases s d h)
    as [(j & Hj & ->)|(row & Hmiss & Hrow & ->)]; [done|].
  split; [done|]. simpl. by apply cache_ok_alloc.
Qed.

(** In every state an id handler goes through, each cached id lies below
    the counter it was drawn from and is cached for one pair only. *)
Theorem handler_run_ok (h : IdHandler.t) : handler_run h -> handler_ok h.
Proof.
  induction 1 as [ni no b|h _ IH|h _ IH|h _ IH|h s d _ IH|h s d _ IH].
  - split; apply cache_ok_empty.
  - split; apply cache_ok_empty.
  - exact IH.
  - exact IH.
  - by apply handler_ok_next_hidden_node_id.
  - by apply handler_ok_next_connection_id.
Qed.

Lemma handler_run_ok_witness :
  handler_ok
    (final_state
       (IdHandler.next_connection_id 0 3
          (final_state
             (IdHandler.next_hidden_node_id (Some 0%Z) (Some 3%Z) handler0)))).
Proof.
  apply (handler_run_ok
           (final_state
              (IdHandler.next_connection_id 0 3
                 (final_state
                    (IdHandler.next_hidden_node_id (Some 0%Z) (Some 3%Z)
                       handler0))))).
  apply run_connection, run_hidden, run_init.
Defined.

(** After [reset], the node that splits the same connection gets a new id,
    strictly greater than the one handed out before. *)
Theorem next_hidden_node_id_fresh_after_reset
    (s d i : Z) (h h1 : IdHandler.t) :
  handler_run h ->
  IdHandler.next_hidden_node_id (Some s) (Some d) h = Ok i h1 ->
  exists h2,
    IdHandler.next_hidden_node_id (Some s) (Some d) (IdHandler.reset h1)
    = Ok (IdHandler._node_counter h1) h2
    /\ (i < IdHandler._node_counter h1)%Z.
Proof.
  intros Hrun H1.
  assert (Hok1 : handler_ok h1).
  { pose proof (handler_ok_next_hidden_node_id (Some s) (Some d) h
                  (handler_run_ok h Hrun)) as Hok.
    by rewrite H1 in Hok. }
  apply next_hidden_node_id_cached in H1.
  destruct Hok1 as [[Hlt _] _]. eexists. split; [reflexivity|].
  by eapply Hlt.
Qed.

Lemma next_hidden_node_id_fresh_after_reset_witness :
  exists h2,
    IdHandler.next_hidden_node_id (Some 5%Z) (Some 9%Z)
      (IdHandler.reset
         (final_state
            (IdHandler.next_hidden_node_id (Some 5%Z) (Some 9%Z) handler0)))
    = Ok (IdHandler._node_counter
            (final_state
               (IdHandler.next_hidden_node_id (Some 5%Z) (Some 9%Z) handler0)))
         h2
    /\ (4 < IdHandler._node_counter
              (final_state
                 (IdHandler.next_hidden_node_id (Some 5%Z) (Some 9%Z)
                    handler0)))%Z.
Proof.
  apply (next_hidden_node_id_fresh_after_reset 5 9 4 handler0).
  - apply run_init.
  - reflexivity.
Defined.

Lemma next_connection_id_keeps_cache (s d s' d' i : Z) (h : IdHandler.t) :
  cached (IdHandler._new_connections_ids h) s d = Some i ->
  cached (IdHandler._new_connections_ids
            (final_state (IdHandler.next_connection_id s' d' h))) s d
  = Some i.
Proof.
  intros Hc.
  destruct (next_connection_id_cases s' d' h)
    as [(j & Hj & ->)|(row & Hmiss & Hrow & ->)]; [done|].
  simpl. rewrite (cached_insert _ _ _ _ _ _ _ Hrow).
  case_decide as E; [|done]. destruct E as [-> ->]. congruence.
Qed.

(** Within a generation two different (source, destination) pairs never
    get the same connection id. *)
Theorem next_connection_id_distinct
    (s d s' d' i i' : Z) (h h1 h2 : IdHandler.t) :
  handler_run h ->
  IdHandler.next_connection_id s d h = Ok i h1 ->
  IdHandler.next_connection_id s' d' h1 = Ok i' h2 ->
  (s, d) <> (s', d') -> i <> i'.
Proof.
  intros Hrun H1 H2 Hne Heq. subst i'.
  assert (Hrun2 : handler_run h2).
  { pose proof (run_connection _ s' d' (run_connection _ s d Hrun)) as R.
    rewrite H1 in R. simpl in R. by rewrite H2 in R. }
  destruct (handler_run_ok _ Hrun2) as [_ [_ Hinj]].
  pose proof (next_connection_id_cached _ _ _ _ _ H1) as C1.
  pose proof (next_connection_id_keeps_cache s d s' d' i h1 C1) as C1'.
  rewrite H2 in C1'. simpl in C1'.
  pose proof (next_connection_id_cached _ _ _ _ _ H2) as C2.
  destruct (Hinj _ _ _ _ _ C1' C2) as [-> ->]. done.
Qed.

Lemma next_connection_id_distinct_witness : (2 <> 3)%Z.
Proof.
  apply (next_connection_id_distinct 0 3 1 3 2 3 handler0
           (final_state (IdHandler.next_connection_id 0 3 handler0))
           (final_state
              (IdHandler.next_connection_id 1 3
                 (final_state (IdHandler.next_connection_id 0 3 handler0))))).
  - apply run_init.
  - reflexivity.
  - reflexivity.
  - discriminate.
Defined.

(** ** [add_connection] keeps genomes valid *)

Lemma link_input_nodes c g i :
  _input_nodes (link_connection c g) !! i
  = touch c (length (connections g)) (InputRef i) <$> _input_nodes g !! i.
Proof. apply (get_node_link c g (InputRef i)). Qed.

Lemma link_output_nodes c g i :
  _output_nodes (link_connection c g) !! i
  = touch c (length (connections g)) (OutputRef i) <$> _output_nodes g !! i.
Proof. apply (get_node_link c g (OutputRef i)). Qed.

Lemma link_hidden_nodes c g i :
  _hidden_nodes (link_connection c g) !! i
  = touch c (length (connections g)) (HiddenRef i) <$> _hidden_nodes g !! i.
Proof. apply (get_node_link c g (HiddenRef i)). Qed.

Lemma link_bias_node c g :
  _bias_node (link_connection c g)
  = touch c (length (connections g)) BiasRef <$> _bias_node g.
Proof. apply (get_node_link c g BiasRef). Qed.

(** Two lists of nodes that agree position by position up to [touch]. *)
Lemma touched_list (l l' : list NodeGene) (f : nat -> NodeGene -> NodeGene) :
  (forall i, l' !! i = f i <$> l !! i) ->
  (forall i n, node_id (f i n) = node_id n) ->
  (forall i n, node_type (f i n) = node_type n) ->
  length l' = length l
  /\ map node_id l' = map node_id l
  /\ (forall P : NodeType -> Prop,
         Forall (fun n => P (node_type n)) l ->
         Forall (fun n => P (node_type n)) l').
Proof.
  intros Hl Hid Hty.
  assert (Hlen : length l' = length l).
  { destruct (decide (length l' < length l)%nat) as [Hlt|Hge].
    - destruct (lookup_lt_is_Some_2 l (length l')) as [n Hn]; [done|].
      pose proof (Hl (length l')) as H. rewrite Hn in H. simpl in H.
      apply lookup_lt_Some in H. lia.
    - destruct (decide (length l < length l')%nat) as [Hlt|]; [|lia].
      destruct (lookup_lt_is_Some_2 l' (length l)) as [n Hn]; [done|].
      pose proof (Hl (length l)) as H. rewrite Hn in H.
      rewrite (lookup_ge_None_2 l) in H by lia. done. }
  split_and!; [done| |].
  - apply list_eq. intros i. rewrite !list_lookup_fmap, Hl.
    destruct (l !! i); simpl; [|done]. by rewrite Hid.
  - intros P HP. apply Forall_lookup. intros i n' Hn'.
    rewrite Hl in Hn'. destruct (l !! i) as [n|] eqn:Hn; simpl in Hn'; [|done].
    injection Hn' as <-. rewrite Hty.
    apply (Forall_lookup_1 _ _ _ _ HP Hn).
Qed.

Lemma link_layout c g :
  sink_base (link_connection c g) = sink_base g
  /\ hidden_base (link_connection c g) = hidden_base g.
Proof.
  unfold sink_base, hidden_base.
  destruct (touched_list (_input_nodes g) (_input_nodes (link_connection c g))
              (fun i => touch c (length (connections g)) (InputRef i))
              (link_input_nodes c g)) as (-> & _); try done.
  { intros; apply node_id_touch. } { intros; apply node_type_touch. }
  destruct (touched_list (_output_nodes g) (_output_nodes (link_connection c g))
              (fun i => touch c (length (connections g)) (OutputRef i))
              (link_output_nodes c g)) as (-> & _); try done.
  { intros; apply node_id_touch. } { intros; apply node_type_touch. }
  rewrite link_bias_node. by destruct (_bias_node g).
Qed.

Lemma ref_in_range_link c g r :
  ref_in_range (link_connection c g) r <-> ref_in_range g r.
Proof.
  rewrite !ref_in_range_is_Some, get_node_link.
  destruct (get_node g r); simpl; split; intros [? ?]; eauto; done.
Qed.

(** Linking a destination that is neither an input nor the bias node keeps
    the genome valid. *)
Lemma valid_genome_link c g d :
  valid_genome g ->
  ref_in_range g (from_node c) ->
  get_node g (to_node c) = Some d -> is_sink (node_type d) = false ->
  valid_genome (link_connection c g).
Proof.
  intros Hv Hfrom Hd Hsink.
  pose proof Hv as (Hin & Hint & Hb & Hout & Houtt & Hhid & Hconn).
  destruct (link_layout c g) as [Hsb Hhb].
  destruct (touched_list (_input_nodes g) (_input_nodes (link_connection c g))
              (fun i => touch c (length (connections g)) (InputRef i))
              (link_input_nodes c g)) as (Hli & Hidi & Htyi).
  { intros; apply node_id_touch. } { intros; apply node_type_touch. }
  destruct (touched_list (_output_nodes g) (_output_nodes (link_connection c g))
              (fun i => touch c (length (connections g)) (OutputRef i))
              (link_output_nodes c g)) as (Hlo & Hido & Htyo).
  { intros; apply node_id_touch. } { intros; apply node_type_touch. }
  unfold valid_genome. rewrite Hsb, Hhb, Hli, Hlo, Hidi, Hido, config_link.
  split_and!; try done.
  - by apply (Htyi (fun t => t = INPUT)).
  - rewrite link_bias_node. destruct (_bias_node g) as [b|]; simpl; [|done].
    destruct (bias_value (config g)); [|done].
    by rewrite node_id_touch, node_type_touch.
  - by apply (Htyo (fun t => t = OUTPUT)).
  - apply Forall_lookup. intros i n' Hn'. rewrite link_hidden_nodes in Hn'.
    destruct (_hidden_nodes g !! i) as [n|] eqn:Hn; simpl in Hn'; [|done].
    injection Hn' as <-. rewrite node_id_touch, node_type_touch.
    apply (Forall_lookup_1 _ _ _ _ Hhid Hn).
  - rewrite connections_link. apply Forall_app. split.
    + eapply Forall_impl; [exact Hconn|]. simpl.
      intros c' (? & ? & ?). by rewrite !ref_in_range_link.
    + constructor; [|constructor]. rewrite !ref_in_range_link.
      split_and!; [done|apply ref_in_range_is_Some; eauto|].
      destruct (is_sink_ref (to_node c)) eqn:Href; [|done].
      pose proof (valid_initial_id _ _ _ Hv Hd) as Hini.
      destruct (to_node c) as [i| | |]; try done; simpl in Hd.
      * by rewrite (Forall_lookup_1 _ _ _ _ Hint Hd) in Hsink.
      * rewrite Hd in Hb. destruct (bias_value (config g)); [|done].
        destruct Hb as [_ Hb]. by rewrite Hb in Hsink.
Qed.

(** Linking two nodes of the genome keeps the adjacency lists in agreement
    with the connection sequence. *)
Lemma adjacency_consistent_link c g :
  adjacency_consistent g ->
  is_Some (get_node g (from_node c)) ->
  is_Some (get_node g (to_node c)) ->
  adjacency_consistent (link_connection c g).
Proof.
  intros [Hsound Hcomplete] [s Hs] [d Hd].
  set (ci0 := length (connections g)).
  rewrite Forall_forall in Hsound.
  split.
  - apply Forall_forall. intros r Hr.
    rewrite get_node_link.
    destruct (get_node g r) as [n|] eqn:Hn; simpl; [|done].
    specialize (Hsound r). rewrite Hn in Hsound.
    destruct Hsound as [Hout Hin]; [apply elem_of_node_refs; eauto|].
    assert (Hold : forall (P : ConnectionGene -> Prop) ci,
               match connections g !! ci with
               | Some c' => P c'
               | None => False
               end ->
               match connections (link_connection c g) !! ci with
               | Some c' => P c'
               | None => False
               end).
    { intros P ci H. rewrite connections_link.
      destruct (connections g !! ci) as [c'|] eqn:Hc; [|done].
      by rewrite (lookup_app_l_Some _ _ _ _ Hc). }
    assert (Hnew : connections (link_connection c g) !! ci0 = Some c).
    { rewrite connections_link, lookup_app_r, Nat.sub_diag by done. done. }
    split.
    + rewrite out_connections_touch. case_decide as E.
      * apply Forall_app. split.
        -- eapply Forall_impl; [exact Hout|]. intros ci. apply Hold.
        -- constructor; [|constructor]. fold ci0. by rewrite Hnew.
      * eapply Forall_impl; [exact Hout|]. intros ci. apply Hold.
    + rewrite in_connections_touch. case_decide as E.
      * apply Forall_app. split.
        -- eapply Forall_impl; [exact Hin|]. intros ci. apply Hold.
        -- constructor; [|constructor]. fold ci0. by rewrite Hnew.
      * eapply Forall_impl; [exact Hin|]. intros ci. apply Hold.
  - apply Forall_lookup. intros j [ci c'] Hj.
    rewrite list_lookup_imap in Hj. rewrite connections_link in Hj.
    destruct ((connections g ++ [c]) !! j) as [c''|] eqn:Hc; simpl in Hj;
      [|done].
    injection Hj as <- <-. unfold listed. simpl.
    rewrite !get_node_link.
    apply lookup_app_Some in Hc as [Hc|[Hge Hc]].
    + assert (Hp : imap pair (connections g) !! j = Some (j, c''))
        by (rewrite list_lookup_imap, Hc; done).
      pose proof (Forall_lookup_1 _ _ _ _ Hcomplete Hp) as Hl.
      unfold listed in Hl. simpl in Hl.
      destruct (get_node g (from_node c'')) as [s'|]; [|done].
      destruct (get_node g (to_node c'')) as [d'|]; [|done]. simpl.
      rewrite out_connections_touch, in_connections_touch.
      destruct Hl as [Ho Hi].
      split; case_decide; try done; apply elem_of_app; by left.
    + apply list_lookup_singleton_Some in Hc as [Hj Heq]. subst c''.
      rewrite Hs, Hd. simpl.
      rewrite out_connections_touch, in_connections_touch,
        !decide_True by done.
      assert (j = ci0) as -> by (unfold ci0; lia).
      split; apply elem_of_app; right; by apply list_elem_of_singleton.
Qed.

(** A successful [add_connection] appends one connection gene with the
    endpoints and the flag it was given, keeps the earlier genes as they
    are, and keeps a valid genome valid and its adjacency lists in
    agreement with the connection sequence. *)
Theorem add_connection_keeps_valid
    (w w' : World) (src_node dest_node : NodeRef) (en : bool)
    (cid : option Z) (wt : option Q) :
  valid_genome (gen w) -> adjacency_consistent (gen w) ->
  add_connection src_node dest_node en cid wt w = Ok tt w' ->
  valid_genome (gen w') /\ adjacency_consistent (gen w')
  /\ exists c,
       connections (gen w') = connections (gen w) ++ [c]
       /\ from_node c = src_node /\ to_node c = dest_node
       /\ enabled c = en.
Proof.
  intros Hv Hadj Hok.
  destruct (add_connection_return_inv _ _ _ _ _ _ _ Hok)
    as (s & d & c & Hs & Hd & _ & Hsink & Hg & Hf & Ht & He & _).
  rewrite Hg. subst src_node dest_node. split_and!.
  - apply (valid_genome_link c (gen w) d); try done.
    apply ref_in_range_is_Some. eauto.
  - apply adjacency_consistent_link; eauto.
  - exists c. by rewrite connections_link.
Qed.

Lemma add_connection_keeps_valid_witness :
  exists w',
    add_connection (InputRef 1) (HiddenRef 0) true None None world1 = Ok tt w'
    /\ valid_genome (gen w') /\ adjacency_consistent (gen w').
Proof.
  destruct (add_connection_returns (InputRef 1) (HiddenRef 0) true None None
              world1
              (append_out 1 (new_NodeGene 1 INPUT linear 0))
              (append_out 3 (append_in 2 (new_NodeGene 4 HIDDEN linear 0))))
    as [w' Hw']; try reflexivity.
  exists w'. split; [exact Hw'|].
  destruct (add_connection_keeps_valid world1 w' (InputRef 1) (HiddenRef 0)
              true None None) as (Hv & Hadj & _).
  - apply (bool_decide_unpack (valid_genome genome1)). vm_compute. exact I.
  - apply (bool_decide_unpack (adjacency_consistent genome1)).
    vm_compute. exact I.
  - exact Hw'.
  - by split.
Defined.

(** ** The constructor builds a valid genome *)

(** A loop whose body keeps an invariant indexed by the position. *)
Lemma for_each_invariant {S A : Type} (l : list A)
    (body : A -> S -> Outcome S unit) :
  forall (I : nat -> S -> Prop),
    (forall j x s, l !! j = Some x -> I j s ->
                   exists s', body x s = Ok tt s' /\ I (Datatypes.S j) s') ->
    forall s, I 0%nat s ->
              exists s', for_each l body s = Ok tt s' /\ I (length l) s'.
Proof.
  induction l as [|x l IH]; intros I Hbody s Hs.
  - exists s. done.
  - cbn [for_each]. unfold bind.
    destruct (Hbody 0%nat x s eq_refl Hs) as (s1 & -> & Hs1).
    apply (IH (fun j => I (Datatypes.S j))); [|done].
    intros j y s2 Hy. by apply (Hbody (Datatypes.S j)).
Qed.

(** One more input linked to the output under construction. *)
Lemma init_link_step (cfg : Config) (ni k i : nat) (w : World) :
  init_inv cfg ni true k i (gen w) ->
  (i < ni)%nat -> (k < length (_output_nodes (gen w)))%nat ->
  exists w',
    add_connection (InputRef i) (OutputRef k) true None None w = Ok tt w'
    /\ init_inv cfg ni true k (Datatypes.S i) (gen w')
    /\ length (_output_nodes (gen w')) = length (_output_nodes (gen w)).
Proof.
  intros (Hv & Hadj & Hcfg & Hni & Hhid & Hlen & Hconn) Hi Hk.
  destruct (lookup_lt_is_Some_2 (_input_nodes (gen w)) i) as [s Hs]; [lia|].
  destruct (lookup_lt_is_Some_2 (_output_nodes (gen w)) k) as [d Hd]; [done|].
  assert (Hdty : is_sink (node_type d) = false).
  { by destruct (valid_nonsink_ref _ (OutputRef k) _ Hv Hd eq_refl). }
  assert (Hex : connection_exists (gen w) s d = Some false).
  { apply scan_out_connections_absent. intros cj Hcj.
    destruct (out_connections_resolve _ (InputRef i) _ _ Hv Hadj Hs Hcj)
      as (c' & m & Hc' & Hfrom & Hm & _).
    exists c', m. split_and!; try done.
    destruct (Forall_lookup_1 _ _ _ _ Hconn Hc')
      as (_ & i' & j & Hf & Ht & Hord).
    rewrite Hf in Hfrom. injection Hfrom as ->. rewrite Ht in Hm.
    pose proof (valid_initial_id _ _ _ Hv Hm) as (Hidm & _).
    pose proof (valid_initial_id _ (OutputRef k) _ Hv Hd) as (Hidd & _).
    rewrite Hidm, Hidd. simpl. lia. }
  destruct (add_connection_returns (InputRef i) (OutputRef k) true None None
              w s d Hs Hd Hex Hdty) as [w' Hw'].
  exists w'. split; [done|].
  destruct (add_connection_keeps_valid _ _ _ _ _ _ _ Hv Hadj Hw')
    as (Hv' & Hadj' & c & Hcs & Hf & Ht & He).
  destruct (add_connection_return_inv _ _ _ _ _ _ _ Hw')
    as (_ & _ & c0 & _ & _ & _ & _ & Hg & _).
  destruct (touched_list (_input_nodes (gen w)) (_input_nodes (gen w'))
              (fun i => touch c0 (length (connections (gen w))) (InputRef i)))
    as (Hli & _).
  { rewrite Hg. apply link_input_nodes. }
  { intros; apply node_id_touch. } { intros; apply node_type_touch. }
  destruct (touched_list (_output_nodes (gen w)) (_output_nodes (gen w'))
              (fun i => touch c0 (length (connections (gen w))) (OutputRef i)))
    as (Hlo & _).
  { rewrite Hg. apply link_output_nodes. }
  { intros; apply node_id_touch. } { intros; apply node_type_touch. }
  split; [|done].
  split_and!; try done.
  - rewrite Hg. by rewrite config_link.
  - congruence.
  - pose proof (link_hidden_nodes c0 (gen w) 0) as H0.
    rewrite <- Hg, Hhid in H0. simpl in H0.
    by destruct (_hidden_nodes (gen w')).
  - rewrite Hcs, length_app, Hlen. simpl. lia.
  - rewrite Hcs. apply Forall_app. split.
    + eapply Forall_impl; [exact Hconn|]. simpl.
      intros c' (? & i' & j & ? & ? & ?). split; [done|].
      exists i', j. split_and!; try done. lia.
    + constructor; [|constructor]. split; [done|].
      exists i, k. split_and!; try done. lia.
Qed.

Lemma get_node_push_output x g r n :
  get_node g r = Some n ->
  get_node (with_output_nodes (_output_nodes g ++ [x]) g) r = Some n.
Proof.
  destruct r; simpl; try done. intros H. by apply lookup_app_l_Some.
Qed.

Lemma get_node_push_output_inv x g r n :
  get_node (with_output_nodes (_output_nodes g ++ [x]) g) r = Some n ->
  get_node g r = Some n
  \/ (r = OutputRef (length (_output_nodes g)) /\ n = x).
Proof.
  destruct r as [i| |k|i]; simpl; try (by left).
  intros H. apply lookup_app_Some in H as [H|[Hge H]]; [by left|].
  right. apply list_lookup_singleton_Some in H as [Hi ->].
  split; [f_equal; lia|done].
Qed.

(** A new output node, appended before it is linked. *)
Lemma init_push_output (cfg : Config) (ni : nat) (ic : bool) (k : nat)
    (g : Genome) :
  init_inv cfg ni ic k 0 g -> length (_output_nodes g) = k ->
  init_inv cfg ni ic k 0
    (with_output_nodes
       (_output_nodes g
        ++ [new_NodeGene (outputs_base ni cfg + Z.of_nat k) OUTPUT
              (out_nodes_activation cfg) (initial_node_activation cfg)]) g).
Proof.
  intros (Hv & Hadj & Hcfg & Hni & Hhid & Hlen & Hconn) Hk.
  set (x := new_NodeGene _ _ _ _).
  set (g1 := with_output_nodes (_output_nodes g ++ [x]) g).
  pose proof Hv as (Hin & Hint & Hb & Hout & Houtt & _ & Hrefs).
  assert (Hbase : outputs_base ni cfg = sink_base g).
  { unfold outputs_base, sink_base. rewrite Hni, <- Hcfg.
    destruct (_bias_node g), (bias_value (config g)); done. }
  split_and!; try done.
  - unfold valid_genome.
    change (sink_base g1) with (sink_base g).
    change (_input_nodes g1) with (_input_nodes g).
    change (_bias_node g1) with (_bias_node g).
    change (config g1) with (config g).
    change (_hidden_nodes g1) with (_hidden_nodes g).
    change (connections g1) with (connections g).
    change (_output_nodes g1) with (_output_nodes g ++ [x]).
    split_and!; try done.
    + rewrite length_app. simpl. rewrite Nat.add_1_r, seq_S, !map_app, Hout.
      simpl. by rewrite Hbase, Hk.
    + apply Forall_app. split; [done|]. by repeat constructor.
    + rewrite Hhid. constructor.
    + eapply Forall_impl; [exact Hrefs|]. simpl.
      intros c (Hf & Ht & Hs). split_and!; try done.
      * apply ref_in_range_is_Some in Hf as [n Hn].
        apply ref_in_range_is_Some. exists n. by apply get_node_push_output.
      * apply ref_in_range_is_Some in Ht as [n Hn].
        apply ref_in_range_is_Some. exists n. by apply get_node_push_output.
  - destruct Hadj as [Hsound Hcomplete]. rewrite Forall_forall in Hsound.
    split.
    + apply Forall_forall. intros r Hr.
      destruct (get_node g1 r) as [n|] eqn:Hn; [|done].
      apply get_node_push_output_inv in Hn as [Hn|[-> ->]].
      * specialize (Hsound r). rewrite Hn in Hsound.
        apply Hsound, elem_of_node_refs. eauto.
      * split; constructor.
    + eapply Forall_impl; [exact Hcomplete|]. intros [ci c].
      unfold listed. simpl.
      destruct (get_node g (from_node c)) as [s|] eqn:Hs; [|done].
      destruct (get_node g (to_node c)) as [d|] eqn:Hd; [|done].
      pose proof (get_node_push_output x _ _ _ Hs) as Hs'.
      pose proof (get_node_push_output x _ _ _ Hd) as Hd'.
      change (get_node g1 (from_node c) = Some s) in Hs'.
      change (get_node g1 (to_node c) = Some d) in Hd'.
      by rewrite Hs', Hd'.
Qed.

(** One round of the output loop of [__init__]. *)
Lemma init_output_step (cfg : Config) (ni : nat) (ic : bool) (k : nat)
    (w : World) :
  init_inv cfg ni ic k 0 (gen w) -> length (_output_nodes (gen w)) = k ->
  exists w',
    init_output ni ic k w = Ok tt w'
    /\ init_inv cfg ni ic (S k) 0 (gen w')
    /\ length (_output_nodes (gen w')) = S k.
Proof.
  intros Hinv Hk.
  pose proof (init_push_output cfg ni ic k (gen w) Hinv Hk) as Hinv1.
  pose proof Hinv as (_ & _ & Hcfg & Hni & _).
  unfold init_output. rewrite Hcfg.
  set (w1 := with_gen _ w) in *.
  assert (Hk1 : length (_output_nodes (gen w1)) = S k).
  { unfold w1. simpl. rewrite length_app. simpl. lia. }
  assert (Hfin : forall g i, init_inv cfg ni ic k i g -> (i = ni \/ ic = false) ->
                             init_inv cfg ni ic (S k) 0 g).
  { intros g i (Hv & Hadj & Hc & Hn & Hh & Hlen & Hconn) Hi.
    split_and!; try done.
    - rewrite Hlen. destruct ic; [|done]. destruct Hi as [->|?]; [lia|done].
    - eapply Forall_impl; [exact Hconn|]. simpl.
      intros c (? & i' & j & ? & ? & ?). split; [done|].
      exists i', j. split_and!; try done. lia. }
  destruct ic.
  - destruct (for_each_invariant (seq 0 (length (_input_nodes (gen w))))
                (fun i => add_connection (InputRef i) (OutputRef k) true
                                         None None)
                (fun i w' => init_inv cfg ni true k i (gen w')
                             /\ length (_output_nodes (gen w')) = S k))
      with (s := w1) as (w' & Hw' & Hinv' & Hk').
    + intros j i w2 Hj [Hinv2 Hk2].
      apply lookup_seq in Hj as [-> Hlt]. simpl.
      destruct (init_link_step cfg ni k j w2 Hinv2) as (w3 & Hw3 & Hinv3 & Hk3);
        [lia|lia|].
      exists w3. split_and!; try done. congruence.
    + done.
    + exists w'. rewrite length_seq, Hni in Hinv'.
      split_and!; try done. apply (Hfin _ ni); [done|by left].
  - exists w1. split_and!; try done. apply (Hfin _ 0%nat); [done|by right].
Qed.

(** The loops of [Genome.__init__], once the genome has its id. *)
Lemma Genome_init_inv
    (num_inputs num_outputs : nat) (cfg : Config) (genome_id : option Z)
    (initial_connections : bool) (h : IdHandler.t) (r : Rng) :
  exists w,
    Genome__init__ num_inputs num_outputs cfg genome_id initial_connections
                   h r = Ok tt w
    /\ valid_genome (gen w) /\ adjacency_consistent (gen w)
    /\ config (gen w) = cfg
    /\ length (_input_nodes (gen w)) = num_inputs
    /\ length (_output_nodes (gen w)) = num_outputs
    /\ _hidden_nodes (gen w) = []
    /\ length (connections (gen w))
       = (if initial_connections then num_inputs * num_outputs else 0)%nat
    /\ Forall (fun c => enabled c = true
                        /\ exists i j, from_node c = InputRef i
                                       /\ to_node c = OutputRef j)
              (connections (gen w)).
Proof.
  unfold Genome__init__, bind.
  set (start := {| gen := blank_genome cfg 0; handler := h; random := r |}).
  assert (Hgid : exists gid w0,
             match genome_id with
             | Some i => ret i
             | None => on_handler IdHandler.next_genome_id
             end start = Ok gid w0).
  { destruct genome_id; [by eexists _, _|].
    unfold on_handler, IdHandler.next_genome_id. by eexists _, _. }
  destruct Hgid as (gid & w0 & ->).
  set (g0 := with_bias_node _ _).
  assert (Hinv0 : init_inv cfg num_inputs initial_connections 0 0 g0).
  { unfold init_inv, g0. cbn.
    split_and!; try done.
    - unfold valid_genome, sink_base. cbn.
      rewrite !length_map, !length_seq, map_map.
      split_and!; try done;
        try (apply Forall_fmap, Forall_true; done);
        try (destruct (bias_value cfg); done); try constructor.
    - split; [|constructor].
      apply Forall_forall. intros ref _.
      destruct ref as [i| |k|i]; simpl; try done.
      + rewrite list_lookup_fmap.
        destruct (seq 0 num_inputs !! i); simpl; [|done].
        split; constructor.
      + destruct (bias_value cfg); [|done]. split; constructor.
    - by rewrite length_map, length_seq.
    - by destruct initial_connections; [lia|]. }
  destruct (for_each_invariant (seq 0 num_outputs)
              (init_output num_inputs initial_connections)
              (fun k w => init_inv cfg num_inputs initial_connections k 0 (gen w)
                          /\ length (_output_nodes (gen w)) = k))
    with (s := with_gen g0 w0) as (w & Hw & Hinv & Hk).
  - intros j k w1 Hj [Hinv1 Hk1]. apply lookup_seq in Hj as [-> _]. simpl.
    destruct (init_output_step cfg num_inputs initial_connections j w1
                Hinv1 Hk1) as (w2 & ? & ? & ?).
    eauto.
  - done.
  - rewrite length_seq in Hinv, Hk.
    destruct Hinv as (Hv & Hadj & Hcfg & Hni & Hhid & Hlen & Hconn).
    exists w. split_and!; try done.
    + rewrite Hlen. destruct initial_connections; lia.
    + eapply Forall_impl; [exact Hconn|]. simpl.
      intros c (? & i' & j & ? & ? & _). eauto.
Qed.

(** Whenever [Genome.__init__] returns, it has built a valid genome:
    [num_inputs] input nodes, [num_outputs] output nodes, a bias node exactly
    when the configuration has a bias value, no hidden node, adjacency lists
    that agree with the connection sequence, and, with
    [initial_connections], [num_inputs * num_outputs] enabled connection
    genes, each from an input node to an output node (none otherwise). *)
Theorem Genome_init_builds_valid_genome
    (num_inputs num_outputs : nat) (cfg : Config) (genome_id : option Z)
    (initial_connections : bool) (h : IdHandler.t) (r : Rng) (w : World) :
  Genome__init__ num_inputs num_outputs cfg genome_id initial_connections h r
  = Ok tt w ->
  valid_genome (gen w) /\ adjacency_consistent (gen w)
  /\ config (gen w) = cfg
  /\ length (_input_nodes (gen w)) = num_inputs
  /\ length (_output_nodes (gen w)) = num_outputs
  /\ _hidden_nodes (gen w) = []
  /\ length (connections (gen w))
     = (if initial_connections then num_inputs * num_outputs else 0)%nat
  /\ Forall (fun c => enabled c = true
                      /\ exists i j, from_node c = InputRef i
                                     /\ to_node c = OutputRef j)
            (connections (gen w)).
Proof.
  intros Hrun.
  destruct (Genome_init_inv num_inputs num_outputs cfg genome_id
              initial_connections h r) as (w1 & Hrun1 & H).
  rewrite Hrun in Hrun1. by injection Hrun1 as ->.
Qed.

Lemma Genome_init_builds_valid_genome_witness :
  valid_genome (gen world0) /\ adjacency_consistent (gen world0)
  /\ config (gen world0) = cfg
  /\ length (_input_nodes (gen world0)) = 2%nat
  /\ length (_output_nodes (gen world0)) = 1%nat
  /\ _hidden_nodes (gen world0) = []
  /\ length (connections (gen world0)) = (2 * 1)%nat
  /\ Forall (fun c => enabled c = true
                      /\ exists i j, from_node c = InputRef i
                                     /\ to_node c = OutputRef j)
            (connections (gen world0)).
Proof.
  apply (Genome_init_builds_valid_genome 2 1 cfg None true handler0
           (constant_rng 0) world0).
  vm_compute. reflexivity.
Defined.

(** With a genome id given and no initial connections asked for,
    [Genome.__init__] calls no method of the id handler and draws nothing:
    it returns, the id handler and the random source are as they were, and
    the genome carries the given id, the input and output nodes and nothing
    else. *)
Theorem Genome_init_without_handler_calls
    (num_inputs num_outputs : nat) (cfg : Config) (gid : Z)
    (h : IdHandler.t) (r : Rng) :
  exists w,
    Genome__init__ num_inputs num_outputs cfg (Some gid) false h r = Ok tt w
    /\ handler w = h /\ random w = r
    /\ _id (gen w) = gid
    /\ valid_genome (gen w)
    /\ length (_input_nodes (gen w)) = num_inputs
    /\ length (_output_nodes (gen w)) = num_outputs
    /\ _hidden_nodes (gen w) = []
    /\ connections (gen w) = [].
Proof.
  destruct (Genome_init_inv num_inputs num_outputs cfg (Some gid) false h r)
    as (w & Hrun & Hv & _ & _ & Hni & Hno & Hhid & Hlen & _).
  exists w. split; [done|].
  assert (Hc : connections (gen w) = [])
    by (by destruct (connections (gen w))).
  split_and!; try done.
  all: unfold Genome__init__, bind, ret in Hrun;
    rewrite for_each_init_output_bare in Hrun; by injection Hrun as <-.
Qed.

(** ** Re-enabling a connection *)

Lemma list_alter_as_insert {A} (f : A -> A) (l : list A) (i : nat) (x : A) :
  l !! i = Some x -> alter f i l = <[i := f x]> l.
Proof.
  intros Hx. apply list_eq. intros j.
  destruct (decide (i = j)) as [<-|Hne].
  - rewrite list_lookup_alter_eq, Hx, list_lookup_insert_eq;
      [done|by eapply lookup_lt_Some].
  - by rewrite list_lookup_alter_ne, list_lookup_insert_ne.
Qed.

(** [enable_random_connection] never raises and touches neither the nodes
    nor the id handler.  When every connection gene is enabled it changes
    nothing at all (no draw is made); otherwise exactly one connection gene
    that was disabled is enabled, and its identifier, endpoints and weight
    as well as every other gene stay as they were. *)
Theorem enable_random_connection_effect (w : World) :
  exists w',
    enable_random_connection w = Ok tt w'
    /\ handler w' = handler w
    /\ _input_nodes (gen w') = _input_nodes (gen w)
    /\ _bias_node (gen w') = _bias_node (gen w)
    /\ _output_nodes (gen w') = _output_nodes (gen w)
    /\ _hidden_nodes (gen w') = _hidden_nodes (gen w)
    /\ ((Forall (fun c => enabled c = true) (connections (gen w)) /\ w' = w)
        \/ exists ci c,
             connections (gen w) !! ci = Some c
             /\ enabled c = false
             /\ connections (gen w')
                = <[ci := set_enabled true c]> (connections (gen w))).
Proof.
  unfold enable_random_connection.
  set (dis := fun ci => match connections (gen w) !! ci with
                        | Some c => negb (enabled c)
                        | None => false
                        end).
  destruct (List.filter dis (seq 0 (length (connections (gen w)))))
    as [|d0 ds] eqn:Hdis.
  - exists w. split_and!; try done. left. split; [|done].
    apply Forall_lookup. intros ci c Hc.
    destruct (enabled c) eqn:He; [done|]. exfalso.
    assert (Hin : In ci (List.filter dis
                           (seq 0 (length (connections (gen w)))))).
    { apply filter_In. split.
      - apply in_seq. apply lookup_lt_Some in Hc. lia.
      - unfold dis. by rewrite Hc, He. }
    by rewrite Hdis in Hin.
  - destruct (choice_index (length (d0 :: ds)) (random w)) as [k r] eqn:Hch.
    destruct ((d0 :: ds) !! k) as [ci|] eqn:Hk.
    + assert (Hin : In ci (List.filter dis
                             (seq 0 (length (connections (gen w)))))).
      { rewrite Hdis. apply list_elem_of_In, list_elem_of_lookup. eauto. }
      apply filter_In in Hin as [_ Hci]. unfold dis in Hci.
      destruct (connections (gen w) !! ci) as [c|] eqn:Hc; [|done].
      eexists. split_and!; try reflexivity. right.
      exists ci, c. split_and!; [done|by destruct (enabled c)|].
      simpl. by apply list_alter_as_insert.
    + (* not reached: the position drawn lies in the list *)
      exfalso. apply lookup_ge_None in Hk.
      unfold choice_index, next_word in Hch. simpl in Hch, Hk.
      injection Hch as <- _.
      pose proof (Nat.mod_upper_bound (words (random w) (cursor (random w)))
                    (S (length ds))). lia.
Qed.

(** ** The distance: edge cases *)

(** [distance] raises [ValueError] (from [np.amax] of an empty list) when
    one of the genomes has no connection gene. *)
Theorem distance_of_empty_genome (self other : Genome) :
  connections self = [] \/ connections other = [] ->
  distance self other = inl ValueError.
Proof.
  unfold distance. intros [->| ->]; simpl; [done|].
  by destruct (amax (map conn_id (connections self))).
Qed.

Lemma distance_of_empty_genome_witness :
  distance bare genome0 = inl ValueError.
Proof.
  apply (distance_of_empty_genome bare genome0). left. reflexivity.
Defined.

(** A matching slot holds two genes with one identifier. *)
Lemma align_slots_matching_ids l1 l2 a b :
  (Some a, Some b) ∈ align_slots l1 l2 ->
  a ∈ l1 /\ b ∈ l2 /\ conn_id a = conn_id b.
Proof.
  revert l2. induction l1 as [|x l1 IH1]; intros l2.
  - rewrite align_slots_nil_l. intros H.
    apply list_elem_of_fmap in H as (c & [=] & _).
  - induction l2 as [|y l2 IH2].
    + rewrite align_slots_nil_r. intros H.
      apply list_elem_of_fmap in H as (c & [=] & _).
    + rewrite align_slots_cons.
      destruct (conn_id x <? conn_id y)%Z eqn:Hxy;
        [|destruct (conn_id y <? conn_id x)%Z eqn:Hyx].
      * intros H. apply elem_of_cons in H as [[=]|H].
        destruct (IH1 _ H) as (? & ? & ?).
        split_and!; try done. by apply list_elem_of_further.
      * intros H. apply elem_of_cons in H as [[=]|H].
        destruct (IH2 H) as (? & ? & ?).
        split_and!; try done. by apply list_elem_of_further.
      * intros H. apply elem_of_cons in H as [[= -> ->]|H].
        -- split_and!; try apply list_elem_of_here.
           apply Z.ltb_ge in Hxy, Hyx. lia.
        -- destruct (IH1 _ H) as (? & ? & ?).
           split_and!; try done; by apply list_elem_of_further.
Qed.

(** [distance] raises [ZeroDivisionError] when the two genomes, each with a
    connection gene, share no innovation identifier: [num_matches] is 0. *)
Theorem distance_without_match (self other : Genome) :
  connections self <> [] -> connections other <> [] ->
  (forall i, i ∈ map conn_id (connections self) ->
             i ∈ map conn_id (connections other) -> False) ->
  distance self other = inl ZeroDivisionError.
Proof.
  intros Hne1 Hne2 Hdisj. unfold distance.
  rewrite zip_align_connections, (amax_max_id _ Hne1), (amax_max_id _ Hne2).
  set (slots := align_slots (connections self) (connections other)).
  destruct (tally_slots_counts (max_id (connections self))
              (max_id (connections other)) slots
              (align_slots_inhabited _ _)
              {| excess := 0; disjoint := 0; weight_diff := 0;
                 num_matches := 0 |})
    as (t & -> & _ & _ & Hm & _).
  assert (HM : List.filter is_matching slots = []).
  { destruct (List.filter is_matching slots) as [|slot rest] eqn:Hf; [done|].
    exfalso.
    assert (Hin : In slot (List.filter is_matching slots))
      by (rewrite Hf; by left).
    apply filter_In in Hin as [Hin Hmatch].
    destruct slot as [[a|] [b|]]; try done.
    apply list_elem_of_In in Hin.
    destruct (align_slots_matching_ids _ _ _ _ Hin) as (Ha & Hb & Hid).
    apply (Hdisj (conn_id a)).
    - apply list_elem_of_fmap. eauto.
    - rewrite Hid. apply list_elem_of_fmap. eauto. }
  rewrite HM in Hm. simpl in Hm. rewrite Hm.
  destruct (Nat.max _ _ =? 0)%nat; done.
Qed.

Lemma distance_without_match_witness :
  distance genome0
    (with_connections
       [{| conn_id := 7; from_node := InputRef 0; to_node := OutputRef 0;
           weight := 1; enabled := true |}] genome0)
  = inl ZeroDivisionError.
Proof.
  apply distance_without_match.
  - vm_compute. discriminate.
  - discriminate.
  - intros i H1 H2.
    let l := eval vm_compute in (map conn_id (connections genome0)) in
    change (map conn_id (connections genome0)) with l in H1.
    simpl in H2. apply list_elem_of_singleton in H2. subst i.
    apply elem_of_cons in H1 as [?|H1]; [done|].
    apply elem_of_cons in H1 as [?|H1]; [done|].
    by apply elem_of_nil in H1.
Defined.

Lemma align_slots_self l :
  align_slots l l = map (fun c => (Some c, Some c)) l.
Proof.
  induction l as [|a l IH]; [done|].
  rewrite align_slots_cons, Z.ltb_irrefl. simpl. by rewrite IH.
Qed.

Lemma filter_matching_self (l : list ConnectionGene) :
  List.filter is_matching (map (fun c => (Some c, Some c)) l)
  = map (fun c => (Some c, Some c)) l.
Proof. induction l as [|a l IH]; simpl; [done|]. by rewrite IH. Qed.

Lemma filter_excess_self max1 max2 (l : list ConnectionGene) :
  List.filter (is_excess max1 max2) (map (fun c => (Some c, Some c)) l) = [].
Proof. induction l as [|a l IH]; simpl; done. Qed.

Lemma filter_disjoint_self max1 max2 (l : list ConnectionGene) :
  List.filter (is_disjoint max1 max2) (map (fun c => (Some c, Some c)) l) = [].
Proof. induction l as [|a l IH]; simpl; done. Qed.

Lemma Qsum_self_differences (l : list ConnectionGene) :
  (Qsum (map slot_weight_difference (map (fun c => (Some c, Some c)) l)) == 0)%Q.
Proof.
  induction l as [|a l IH]; [reflexivity|].
  cbn [map slot_weight_difference]. unfold Qsum in *. cbn [foldr].
  rewrite IH.
  assert (H0 : (weight a - weight a == 0)%Q)
    by (unfold Qminus; apply Qplus_opp_r).
  rewrite H0. reflexivity.
Qed.

(** The distance of a genome with a connection gene to itself is 0. *)
Theorem distance_to_itself (g : Genome) :
  connections g <> [] ->
  exists d, distance g g = inr d /\ (d == 0)%Q.
Proof.
  intros Hne. unfold distance.
  rewrite zip_align_connections, (amax_max_id _ Hne).
  destruct (tally_slots_counts (max_id (connections g)) (max_id (connections g))
              (align_slots (connections g) (connections g))
              (align_slots_inhabited _ _)
              {| excess := 0; disjoint := 0; weight_diff := 0;
                 num_matches := 0 |})
    as (t & -> & He & Hd & Hm & Hw).
  rewrite align_slots_self in He, Hd, Hm, Hw.
  rewrite filter_excess_self in He. rewrite filter_disjoint_self in Hd.
  rewrite filter_matching_self in Hm, Hw.
  rewrite Qsum_self_differences in Hw.
  simpl in He, Hd, Hm, Hw. rewrite length_map in Hm.
  rewrite Nat.max_id.
  destruct (connections g) as [|c cs] eqn:Hc; [done|].
  simpl length in *. cbn [Nat.eqb]. rewrite Hm. cbn [Nat.eqb].
  eexists. split; [reflexivity|].
  rewrite He, Hd, Hw. unfold count_Q at 1 2. simpl inject_Z.
  unfold Qdiv. rewrite !Qmult_0_r, !Qmult_0_l, !Qplus_0_r. reflexivity.
Qed.

Lemma distance_to_itself_witness :
  exists d, distance genome1 genome1 = inr d /\ (d == 0)%Q.
Proof.
  apply (distance_to_itself genome1). vm_compute. discriminate.
Defined.

(** ** What [process] leaves alone *)

Lemma process_returns_evolved (g : Genome) (X : list Q) :
  valid_genome g -> adjacency_consistent g ->
  length X = length (_input_nodes g) ->
  exists h g', process X g = Ok h g' /\ evolves (fed X g) g'.
Proof.
  intros Hv Hadj Hlen. unfold process.
  rewrite (proj2 (Nat.eqb_eq _ _) Hlen). cbn [negb].
  change (with_activated_nodes _ _) with (fed X g).
  change (_output_nodes (fed X g)) with (_output_nodes g).
  change (_hidden_nodes (fed X g)) with (_hidden_nodes g).
  destruct (collect_outputs_returns
              (S (length (_output_nodes g) + length (_hidden_nodes g)))
              (seq 0 (length (_output_nodes g))) (fed X g))
    as (h & g' & -> & Hev & _).
  - by apply processable_fed.
  - pose proof (unvisited_all_unmarked
                  (with_input_nodes
                     (zip_with (fun n x => activate x n) (_input_nodes g) X) g)
                  (_output_nodes g ++ _hidden_nodes g)) as Hu.
    rewrite length_app in Hu. unfold fed. simpl in *. lia.
  - intros i Hi. apply elem_of_seq in Hi. simpl.
    apply lookup_lt_is_Some. lia.
  - eauto.
Qed.

(** When [process] returns on a valid, consistent genome, the connection
    genes are untouched, every node keeps its id, type and incoming list,
    the bias node is exactly as before, and the [i]-th input node holds its
    activation function applied to the [i]-th input value. *)
Theorem process_changes_activations_only
    (g g' : Genome) (X h : list Q) :
  valid_genome g -> adjacency_consistent g ->
  process X g = Ok h g' ->
  connections g' = connections g
  /\ _bias_node g' = _bias_node g
  /\ (forall i n x,
         _input_nodes g !! i = Some n -> X !! i = Some x ->
         _input_nodes g' !! i = Some (activate x n))
  /\ (forall r,
         match get_node g r, get_node g' r with
         | Some n, Some n' => same_shape n n'
         | None, None => True
         | _, _ => False
         end).
Proof.
  intros Hv Hadj Hok.
  assert (Hlen : length X = length (_input_nodes g)).
  { destruct (decide (length X = length (_input_nodes g))) as [|Hne]; [done|].
    unfold process in Hok. by rewrite (proj2 (Nat.eqb_neq _ _) Hne) in Hok. }
  destruct (process_returns_evolved g X Hv Hadj Hlen) as (h1 & g1 & Hp & Hev).
  rewrite Hp in Hok. injection Hok as <- <-.
  pose proof Hv as (_ & Hint & Hb & _).
  split_and!.
  - apply (ev_connections _ _ Hev).
  - destruct (_bias_node g) as [b|] eqn:Hbias.
    + apply (ev_frozen _ _ Hev BiasRef b); [done|]. left.
      destruct (bias_value (config g)); [|done]. destruct Hb as [_ ->]. done.
    + pose proof (ev_shape _ _ Hev BiasRef) as Hs. simpl in Hs.
      rewrite Hbias in Hs. by destruct (_bias_node g1).
  - intros i n x Hn Hx.
    apply (ev_frozen _ _ Hev (InputRef i) (activate x n)).
    + simpl. by rewrite lookup_zip_with, Hn, Hx.
    + left. simpl. by rewrite (Forall_lookup_1 _ _ _ _ Hint Hn).
  - intros r. pose proof (get_node_fed X g r Hlen) as H1.
    pose proof (ev_shape _ _ Hev r) as H2.
    destruct (get_node g r), (get_node (fed X g) r), (get_node g1 r);
      try done. by eapply same_shape_trans.
Qed.

Lemma process_changes_activations_only_witness :
  exists h g',
    process [2%Q; 3%Q] genome1 = Ok h g'
    /\ connections g' = connections genome1
    /\ _bias_node g' = _bias_node genome1.
Proof.
  destruct (process_returns_evolved genome1 [2%Q; 3%Q]) as (h & g' & Hp & _).
  - apply (bool_decide_unpack (valid_genome genome1)). vm_compute. exact I.
  - apply (bool_decide_unpack (adjacency_consistent genome1)).
    vm_compute. exact I.
  - reflexivity.
  - exists h, g'. split; [exact Hp|].
    destruct (process_changes_activations_only genome1 g' [2%Q; 3%Q] h)
      as (Hc & Hb & _).
    + apply (bool_decide_unpack (valid_genome genome1)). vm_compute. exact I.
    + apply (bool_decide_unpack (adjacency_consistent genome1)).
      vm_compute. exact I.
    + exact Hp.
    + by split.
Defined.

(** ** Node splitting: what a call does *)

(** On a genome without connection genes [add_random_hidden_node] raises
    [ValueError] (from [np.random.choice] of an empty list) and changes
    nothing. *)
Theorem add_random_hidden_node_without_connections (w : World) :
  connections (gen w) = [] ->
  add_random_hidden_node w = Raise ValueError w.
Proof. unfold add_random_hidden_node. by intros ->. Qed.

Lemma add_random_hidden_node_without_connections_witness :
  add_random_hidden_node
    (final_state (Genome__init__ 2 1 cfg None false handler0 (constant_rng 0)))
  = Raise ValueError
      (final_state
         (Genome__init__ 2 1 cfg None false handler0 (constant_rng 0))).
Proof.
  apply add_random_hidden_node_without_connections. reflexivity.
Defined.

Lemma hidden_nodes_link c g :
  length (_hidden_nodes (link_connection c g)) = length (_hidden_nodes g).
Proof.
  destruct (touched_list (_hidden_nodes g) (_hidden_nodes (link_connection c g))
              (fun i => touch c (length (connections g)) (HiddenRef i))
              (link_hidden_nodes c g)) as (H & _); try done.
  - intros; apply node_id_touch.
  - intros; apply node_type_touch.
Qed.

(** When [add_random_hidden_node] returns, it has disabled one connection
    gene (the one it split), appended one hidden node, which it returns, and
    appended two enabled connection genes after the existing ones: source to
    new node with weight 1, new node to destination with the weight of the
    split gene.  Apart from the flag of the split gene the earlier genes are
    unchanged. *)
Theorem add_random_hidden_node_effect (w w' : World) (new_node : NodeRef) :
  add_random_hidden_node w = Ok new_node w' ->
  exists k c0 c1 c2 node,
    connections (gen w) !! k = Some c0
    /\ connections (gen w')
       = <[k := set_enabled false c0]> (connections (gen w)) ++ [c1; c2]
    /\ new_node = HiddenRef (length (_hidden_nodes (gen w)))
    /\ length (_hidden_nodes (gen w')) = S (length (_hidden_nodes (gen w)))
    /\ get_node (gen w') new_node = Some node
    /\ node_type node = HIDDEN
    /\ (from_node c1, to_node c1, weight c1, enabled c1)
       = (from_node c0, new_node, 1%Q, true)
    /\ (from_node c2, to_node c2, weight c2, enabled c2)
       = (new_node, to_node c0, weight c0, true).
Proof.
  unfold add_random_hidden_node.
  destruct (connections (gen w)) as [|c cs] eqn:Hcs; [done|].
  destruct (choice_index (length (c :: cs)) (random w)) as [k r].
  destruct ((c :: cs) !! k) as [c0|] eqn:Hk; [|done].
  set (g1 := with_connections _ (gen w)).
  destruct (get_node g1 (from_node c0)) as [src|]; [|done].
  destruct (get_node g1 (to_node c0)) as [dest|]; [|done].
  unfold bind, on_handler. cbn [handler gen random].
  destruct (next_hidden_node_id_returns (node_id src) (node_id dest) (handler w))
    as (hid & h' & ->).
  cbn [gen with_gen handler random].
  set (x := new_NodeGene hid HIDDEN _ _).
  set (g3 := with_hidden_nodes (_hidden_nodes g1 ++ [x]) g1).
  set (nr := HiddenRef (length (_hidden_nodes g1))).
  set (w3 := with_gen g3 _).
  destruct (add_connection (from_node c0) nr true None (Some 1%Q) w3)
    as [[] w4|] eqn:H4; [|done].
  destruct (add_connection nr (to_node c0) true None (Some (weight c0)) w4)
    as [[] w5|] eqn:H5; [|done].
  unfold ret. intros [= <- <-].
  destruct (add_connection_return_inv _ _ _ _ _ _ _ H4)
    as (_ & _ & c1 & _ & _ & _ & _ & Hg4 & Hf1 & Ht1 & He1 & _ & Hw1).
  destruct (add_connection_return_inv _ _ _ _ _ _ _ H5)
    as (_ & _ & c2 & _ & _ & _ & _ & Hg5 & Hf2 & Ht2 & He2 & _ & Hw2).
  destruct (Hw1 _ eq_refl) as [Hwt1 _]. destruct (Hw2 _ eq_refl) as [Hwt2 _].
  assert (Hnew : get_node g3 nr = Some x).
  { unfold g3, nr. simpl. by rewrite lookup_app_r, Nat.sub_diag. }
  exists k, c0, c1, c2,
    (touch c2 (length (connections (gen w4))) nr
       (touch c1 (length (connections g3)) nr x)).
  split_and!; try done.
  - rewrite Hg5, connections_link, Hg4, connections_link.
    change (connections (gen w3)) with (<[k := set_enabled false c0]> (c :: cs)).
    by rewrite <- app_assoc.
  - rewrite Hg5, hidden_nodes_link, Hg4, hidden_nodes_link.
    change (_hidden_nodes (gen w3)) with (_hidden_nodes (gen w) ++ [x]).
    rewrite length_app. simpl. lia.
  - rewrite Hg5, get_node_link, Hg4, get_node_link.
    change (gen w3) with g3. by rewrite Hnew.
  - by rewrite !node_type_touch.
  - by rewrite Hf1, Ht1, He1, Hwt1.
  - by rewrite Hf2, Ht2, He2, Hwt2.
Qed.

Lemma add_random_hidden_node_effect_witness :
  exists k c0 c1 c2 node,
    connections genome0 !! k = Some c0
    /\ connections genome1
       = <[k := set_enabled false c0]> (connections genome0) ++ [c1; c2]
    /\ HiddenRef 0 = HiddenRef (length (_hidden_nodes genome0))
    /\ length (_hidden_nodes genome1) = S (length (_hidden_nodes genome0))
    /\ get_node genome1 (HiddenRef 0) = Some node
    /\ node_type node = HIDDEN
    /\ (from_node c1, to_node c1, weight c1, enabled c1)
       = (from_node c0, HiddenRef 0, 1%Q, true)
    /\ (from_node c2, to_node c2, weight c2, enabled c2)
       = (HiddenRef 0, to_node c0, weight c0, true).
Proof.
  apply (add_random_hidden_node_effect world0 world1 (HiddenRef 0)).
  vm_compute. reflexivity.
Defined.

(** ** Copies *)

(** Whenever [shallow_copy] returns, the copy is a valid genome with the
    configuration and the numbers of input and output nodes of the original,
    without hidden nodes and without connection genes; the random source is
    left alone. *)
Theorem shallow_copy_builds_bare_copy
    (self : Genome) (h : IdHandler.t) (r : Rng) (w : World) :
  shallow_copy self h r = Ok tt w ->
  valid_genome (gen w)
  /\ random w = r
  /\ config (gen w) = config self
  /\ length (_input_nodes (gen w)) = length (_input_nodes self)
  /\ length (_output_nodes (gen w)) = length (_output_nodes self)
  /\ _hidden_nodes (gen w) = []
  /\ connections (gen w) = [].
Proof.
  destruct (shallow_copy_returns self h r) as [h' ->]. intros [= <-].
  cbn [gen random].
  split_and!; try reflexivity.
  - apply valid_copied.
  - cbn. by rewrite length_map, length_seq.
  - cbn. by rewrite length_map, length_seq.
Qed.

Lemma shallow_copy_builds_bare_copy_witness :
  valid_genome (gen (final_state (shallow_copy genome1 handler0 (constant_rng 0))))
  /\ random (final_state (shallow_copy genome1 handler0 (constant_rng 0)))
     = constant_rng 0
  /\ config (gen (final_state (shallow_copy genome1 handler0 (constant_rng 0))))
     = config genome1
  /\ length (_input_nodes
               (gen (final_state
                       (shallow_copy genome1 handler0 (constant_rng 0)))))
     = length (_input_nodes genome1)
  /\ length (_output_nodes
               (gen (final_state
                       (shallow_copy genome1 handler0 (constant_rng 0)))))
     = length (_output_nodes genome1)
  /\ _hidden_nodes
       (gen (final_state (shallow_copy genome1 handler0 (constant_rng 0))))
     = []
  /\ connections
       (gen (final_state (shallow_copy genome1 handler0 (constant_rng 0))))
     = [].
Proof.
  apply (shallow_copy_builds_bare_copy genome1 handler0 (constant_rng 0)).
  vm_compute. reflexivity.
Defined.

(** ** Crossover: where the genes of the offspring come from *)

Lemma adopt_endpoint_connections parent n added g added' g' :
  adopt_endpoint parent n added g = Some (added', g') ->
  connections g' = connections g.
Proof.
  unfold adopt_endpoint. destruct (get_node parent n); simpl; [|done].
  case_decide; by intros [= <- <-].
Qed.

Lemma inherit_gene_connections gen1 parent c1 c2 c added w added' w' :
  inherit_gene gen1 parent c1 c2 c added w = Ok added' w' ->
  connections (gen w') = connections (gen w)
  \/ exists c', connections (gen w') = connections (gen w) ++ [c']
                /\ conn_id c' = conn_id c /\ weight c' = weight c.
Proof.
  unfold inherit_gene.
  destruct (adopt_endpoint parent (from_node c) added (gen w))
    as [[added1 g1]|] eqn:H1; [|done].
  destruct (adopt_endpoint parent (to_node c) added1 g1)
    as [[added2 g2]|] eqn:H2; [|done].
  apply adopt_endpoint_connections in H1, H2.
  destruct (inherited_enabled c1 c2 _ (random w)) as [en r].
  destruct (get_node parent (from_node c)) as [src|]; [|done].
  destruct (get_node parent (to_node c)) as [dest|]; [|done].
  destruct (added2 !! node_id src) as [sr|]; [|done].
  destruct (added2 !! node_id dest) as [dr|]; [|done].
  set (w2 := {| gen := g2; handler := handler w; random := r |}).
  destruct (add_connection sr dr en (Some (conn_id c)) (Some (weight c)) w2)
    as [[] w3|e w3] eqn:Hadd.
  - intros [= <- <-]. right.
    destruct (add_connection_return_inv _ _ _ _ _ _ _ Hadd)
      as (_ & _ & c' & _ & _ & _ & _ & Hg & _ & _ & _ & Hid & Hwt).
    exists c'. rewrite Hg, connections_link. cbn [gen w2].
    destruct (Hid _ eq_refl) as [-> _]. destruct (Hwt _ eq_refl) as [-> _].
    split_and!; try done. congruence.
  - apply add_connection_raise_unchanged in Hadd as ->.
    destruct e; try done. intros [= <- <-]. left. cbn [gen w2]. congruence.
Qed.

(** Every connection gene of an offspring carries the identifier and the
    weight of a connection gene of one of its parents. *)
Theorem mate_genomes_genes_inherited
    (gen1 gen2 : Genome) (h : IdHandler.t) (r : Rng) (w' : World) :
  mate_genomes gen1 gen2 h r = Ok tt w' ->
  Forall (fun c => exists p,
                     (p ∈ connections gen1 \/ p ∈ connections gen2)
                     /\ conn_id c = conn_id p /\ weight c = weight p)
         (connections (gen w')).
Proof.
  set (P := fun c : ConnectionGene =>
              exists p, (p ∈ connections gen1 \/ p ∈ connections gen2)
                        /\ conn_id c = conn_id p /\ weight c = weight p).
  assert (Hloop : forall slots,
             Forall (fun slot =>
                       (forall c, slot.1 = Some c -> c ∈ connections gen1)
                       /\ (forall c, slot.2 = Some c -> c ∈ connections gen2))
                    slots ->
             forall added w added' w1,
               Forall P (connections (gen w)) ->
               mate_loop gen1 gen2 slots added w = Ok added' w1 ->
               Forall P (connections (gen w1))).
  { induction 1 as [|slot slots [H1 H2] _ IH]; intros added w added' w1 HP.
    - by intros [= <- <-].
    - cbn [mate_loop]. unfold bind.
      destruct (mate_slot gen1 gen2 slot added w) as [added1 w2|] eqn:Hslot;
        [|done].
      apply IH. unfold mate_slot in Hslot. destruct slot as [c1 c2].
      destruct (if c1 is None then _ else false);
        [by injection Hslot as <- <-|].
      destruct (if c2 is None then _ else false);
        [by injection Hslot as <- <-|].
      destruct (choice_index 2 (random w)) as [k r0].
      assert (Hin : forall parent c,
                 (c ∈ connections gen1 \/ c ∈ connections gen2) ->
                 inherit_gene gen1 parent c1 c2 c added
                   {| gen := gen w; handler := handler w; random := r0 |}
                 = Ok added1 w2 ->
                 Forall P (connections (gen w2))).
      { intros parent c Hc Hinh.
        apply inherit_gene_connections in Hinh as [->|(c' & -> & Hid & Hwt)];
          [done|].
        apply Forall_app. split; [done|].
        constructor; [|constructor]. exists c. by rewrite Hid, Hwt. }
      case_decide.
      + destruct c1 as [c|]; [|by injection Hslot as <- <-].
        apply (Hin gen1 c); [|done]. left. by apply H1.
      + destruct c2 as [c|]; [|by injection Hslot as <- <-].
        apply (Hin gen2 c); [|done]. right. by apply H2. }
  unfold mate_genomes.
  destruct (shallow_copy_returns gen1 h r) as [h' ->].
  rewrite zip_align_connections.
  destruct (mate_loop _ _ _ _ _) as [added1 w1|] eqn:Hl; [|done].
  intros [= <-].
  eapply Hloop; [apply align_slots_sources| |exact Hl].
  simpl. constructor.
Qed.

Lemma mate_genomes_genes_inherited_witness :
  Forall (fun c => exists p,
                     (p ∈ connections genome0 \/ p ∈ connections genome1)
                     /\ conn_id c = conn_id p /\ weight c = weight p)
         (connections
            (gen (final_state
                    (mate_genomes genome0 genome1 handler0 (constant_rng 1))))).
Proof.
  apply (mate_genomes_genes_inherited genome0 genome1 handler0 (constant_rng 1)).
  vm_compute. reflexivity.
Defined.

(** ** Node splitting: validity *)

Lemma elem_of_nodes g n :
  n ∈ nodes g <-> exists r, get_node g r = Some n.
Proof.
  unfold nodes. rewrite !elem_of_app. split.
  - intros [H|[H|[H|H]]].
    + apply list_elem_of_lookup in H as [i Hi]. by exists (InputRef i).
    + destruct (_bias_node g) as [b|] eqn:Hb.
      * apply list_elem_of_singleton in H as ->. by exists BiasRef.
      * by apply elem_of_nil in H.
    + apply list_elem_of_lookup in H as [i Hi]. by exists (OutputRef i).
    + apply list_elem_of_lookup in H as [i Hi]. by exists (HiddenRef i).
  - intros [[i| |i|i] Hr]; simpl in Hr.
    + left. apply list_elem_of_lookup. eauto.
    + right; left. rewrite Hr. by apply list_elem_of_singleton.
    + right; right; left. apply list_elem_of_lookup. eauto.
    + right; right; right. apply list_elem_of_lookup. eauto.
Qed.

(** In a valid genome every initial id is carried by a node. *)
Lemma valid_initial_id_taken g k :
  valid_genome g -> (0 <= k < hidden_base g)%Z ->
  exists r n, get_node g r = Some n /\ node_id n = k.
Proof.
  intros (Hin & _ & Hb & Hout & _) Hk. unfold hidden_base in Hk.
  destruct (decide (k < Z.of_nat (length (_input_nodes g)))%Z) as [Hlt|Hge].
  - destruct (lookup_lt_is_Some_2 (_input_nodes g) (Z.to_nat k)) as [n Hn];
      [lia|].
    exists (InputRef (Z.to_nat k)), n. split; [done|].
    rewrite (lookup_numbered _ _ _ _ Hin Hn). lia.
  - destruct (_bias_node g) as [b|] eqn:Hbias.
    + destruct (decide (k = Z.of_nat (length (_input_nodes g)))) as [->|Hne].
      * exists BiasRef, b. split; [done|].
        destruct (bias_value (config g)); [|done]. by destruct Hb.
      * destruct (lookup_lt_is_Some_2 (_output_nodes g)
                    (Z.to_nat (k - sink_base g))) as [n Hn];
          [unfold sink_base; rewrite Hbias; lia|].
        exists (OutputRef (Z.to_nat (k - sink_base g))), n. split; [done|].
        rewrite (lookup_numbered _ _ _ _ Hout Hn).
        unfold sink_base. rewrite Hbias. lia.
    + destruct (lookup_lt_is_Some_2 (_output_nodes g)
                  (Z.to_nat (k - sink_base g))) as [n Hn];
        [unfold sink_base; rewrite Hbias; lia|].
      exists (OutputRef (Z.to_nat (k - sink_base g))), n. split; [done|].
      rewrite (lookup_numbered _ _ _ _ Hout Hn).
      unfold sink_base. rewrite Hbias. lia.
Qed.

(** Switching the flag of a connection gene keeps validity and
    consistency. *)
Lemma flag_keeps_valid g k c0 b :
  valid_genome g -> adjacency_consistent g ->
  connections g !! k = Some c0 ->
  valid_genome (with_connections (<[k := set_enabled b c0]> (connections g)) g)
  /\ adjacency_consistent
       (with_connections (<[k := set_enabled b c0]> (connections g)) g).
Proof.
  intros Hv [Hsound Hcomplete] Hk.
  set (g1 := with_connections _ g).
  assert (Hget : forall r, get_node g1 r = get_node g r)
    by (intros; apply get_node_with_connections).
  assert (Hlook : forall ci,
             match connections g !! ci with
             | Some c => exists c', connections g1 !! ci = Some c'
                                    /\ from_node c' = from_node c
                                    /\ to_node c' = to_node c
             | None => connections g1 !! ci = None
             end).
  { intros ci. simpl. destruct (decide (k = ci)) as [<-|Hne].
    - rewrite Hk, list_lookup_insert_eq by (by eapply lookup_lt_Some). eauto.
    - rewrite list_lookup_insert_ne by done.
      destruct (connections g !! ci); eauto. }
  split.
  - destruct Hv as (? & ? & ? & ? & ? & ? & Hconn).
    unfold valid_genome. split_and!; try done.
    apply Forall_lookup. intros ci c' Hc'.
    pose proof (Hlook ci) as H'.
    destruct (connections g !! ci) as [c|] eqn:Hc; [|congruence].
    destruct H' as (c'' & Hc'' & Hf & Ht). rewrite Hc' in Hc''.
    injection Hc'' as <-. rewrite Hf, Ht.
    apply (Forall_lookup_1 _ _ _ _ Hconn Hc).
  - split.
    + rewrite Forall_forall in Hsound. apply Forall_forall. intros r Hr.
      specialize (Hsound r Hr). rewrite Hget.
      destruct (get_node g r) as [n|]; [|done].
      destruct Hsound as [Ho Hi].
      split; (eapply Forall_impl; [eassumption|]); intros ci Hci;
        cbv beta in Hci; pose proof (Hlook ci) as H';
        (destruct (connections g !! ci) as [c|]; [|destruct Hci]);
        destruct H' as (c' & Hc' & Hf & Ht); rewrite Hc'; congruence.
    + apply Forall_lookup. intros j [ci c'] Hj.
      rewrite list_lookup_imap in Hj.
      destruct (connections g1 !! j) as [c''|] eqn:Hc1; simpl in Hj; [|done].
      injection Hj as <- <-.
      pose proof (Hlook j) as H'.
      destruct (connections g !! j) as [c|] eqn:Hc; [|congruence].
      destruct H' as (c3 & Hc3 & Hf & Ht). rewrite Hc1 in Hc3.
      injection Hc3 as <-.
      assert (Hp : imap pair (connections g) !! j = Some (j, c))
        by (rewrite list_lookup_imap, Hc; done).
      pose proof (Forall_lookup_1 _ _ _ _ Hcomplete Hp) as Hl.
      unfold listed in *. simpl in *. by rewrite Hf, Ht, !Hget.
Qed.

(** Appending a hidden node with an id outside the initial range keeps
    validity and consistency. *)
Lemma hidden_node_keeps_valid g x :
  valid_genome g -> adjacency_consistent g ->
  node_type x = HIDDEN ->
  (node_id x < 0 \/ hidden_base g <= node_id x)%Z ->
  in_connections x = [] -> out_connections x = [] ->
  valid_genome (with_hidden_nodes (_hidden_nodes g ++ [x]) g)
  /\ adjacency_consistent (with_hidden_nodes (_hidden_nodes g ++ [x]) g).
Proof.
  intros Hv [Hsound Hcomplete] Hty Hid Hin Hout.
  set (g1 := with_hidden_nodes _ g).
  split.
  - destruct Hv as (? & ? & ? & ? & ? & Hhid & Hconn).
    unfold valid_genome. split_and!; try done.
    + apply Forall_app. split; [done|]. apply Forall_singleton.
      split; [done|exact Hid].
    + eapply Forall_impl; [exact Hconn|]. simpl.
      intros c (Hf & Ht & Hs). split_and!; try done.
      * apply ref_in_range_is_Some in Hf as [n Hn].
        apply ref_in_range_is_Some. exists n. by apply get_node_push_hidden.
      * apply ref_in_range_is_Some in Ht as [n Hn].
        apply ref_in_range_is_Some. exists n. by apply get_node_push_hidden.
  - rewrite Forall_forall in Hsound. split.
    + apply Forall_forall. intros r Hr.
      destruct (get_node g1 r) as [n|] eqn:Hn; [|done].
      apply get_node_push_hidden_inv in Hn as [Hn|[-> ->]].
      * specialize (Hsound r). rewrite Hn in Hsound.
        apply Hsound, elem_of_node_refs. eauto.
      * unfold lists_only. rewrite Hin, Hout. split; constructor.
    + eapply Forall_impl; [exact Hcomplete|]. intros [ci c].
      unfold listed. simpl.
      destruct (get_node g (from_node c)) as [s|] eqn:Hs; [|done].
      destruct (get_node g (to_node c)) as [d|] eqn:Hd; [|done].
      pose proof (get_node_push_hidden x _ _ _ Hs) as Hs'.
      pose proof (get_node_push_hidden x _ _ _ Hd) as Hd'.
      change (get_node g1 (from_node c) = Some s) in Hs'.
      change (get_node g1 (to_node c) = Some d) in Hd'.
      by rewrite Hs', Hd'.
Qed.

(** Whenever [add_random_hidden_node] returns on a valid, consistent genome
    and the node it created carries an id that no node of the genome carried
    before, the genome it leaves is again valid and consistent. *)
Theorem add_random_hidden_node_keeps_valid
    (w w' : World) (new_node : NodeRef) :
  valid_genome (gen w) -> adjacency_consistent (gen w) ->
  add_random_hidden_node w = Ok new_node w' ->
  (forall x n, get_node (gen w') new_node = Some x ->
               n ∈ nodes (gen w) -> node_id n <> node_id x) ->
  valid_genome (gen w') /\ adjacency_consistent (gen w').
Proof.
  intros Hv Hc. unfold add_random_hidden_node.
  destruct (connections (gen w)) as [|c cs] eqn:Hcs; [done|].
  destruct (choice_index (length (c :: cs)) (random w)) as [k r].
  destruct ((c :: cs) !! k) as [c0|] eqn:Hk; [|done].
  rewrite <- Hcs in Hk |- *.
  destruct (flag_keeps_valid _ _ _ false Hv Hc Hk) as [Hv1 Hc1].
  set (g1 := with_connections _ (gen w)) in *.
  assert (Hget1 : forall r0, get_node g1 r0 = get_node (gen w) r0)
    by (intros; apply get_node_with_connections).
  destruct (get_node g1 (from_node c0)) as [src|] eqn:Hsrc; [|done].
  destruct (get_node g1 (to_node c0)) as [dest|] eqn:Hdest; [|done].
  unfold bind, on_handler. cbn [handler gen random].
  destruct (next_hidden_node_id_returns (node_id src) (node_id dest) (handler w))
    as (hid & h' & ->).
  cbn [gen with_gen handler random].
  set (x := new_NodeGene hid HIDDEN _ _).
  set (nr := HiddenRef (length (_hidden_nodes g1))).
  set (g3 := with_hidden_nodes (_hidden_nodes g1 ++ [x]) g1).
  set (w3 := with_gen g3 _).
  destruct (add_connection (from_node c0) nr true None (Some 1%Q) w3)
    as [[] w4|] eqn:H4; [|done].
  destruct (add_connection nr (to_node c0) true None (Some (weight c0)) w4)
    as [[] w5|] eqn:H5; [|done].
  unfold ret. intros [= <- <-] Hfresh.
  destruct (add_connection_return_inv _ _ _ _ _ _ _ H4)
    as (s1 & d1 & c1 & Hs1 & Hd1 & _ & Hk1 & Hg4 & Hf1 & Ht1 & _).
  destruct (add_connection_return_inv _ _ _ _ _ _ _ H5)
    as (s2 & d2 & c2 & Hs2 & Hd2 & _ & Hk2 & Hg5 & Hf2 & Ht2 & _).
  change (gen w3) with g3 in *.
  assert (Hnew : get_node g3 nr = Some x).
  { unfold g3, nr. simpl. by rewrite lookup_app_r, Nat.sub_diag. }
  (* the id of the new node is fresh *)
  assert (Hhid : forall n, n ∈ nodes (gen w) -> node_id n <> hid).
  { intros n Hn.
    assert (Hx : get_node (gen w5) nr
                 = Some (touch c2 (length (connections (gen w4))) nr
                           (touch c1 (length (connections g3)) nr x)))
      by (by rewrite Hg5, get_node_link, Hg4, get_node_link, Hnew).
    pose proof (Hfresh _ n Hx Hn) as Hne.
    by rewrite !node_id_touch in Hne. }
  assert (Hout : (node_id x < 0 \/ hidden_base g1 <= node_id x)%Z).
  { change (node_id x) with hid.
    destruct (decide (0 <= hid < hidden_base (gen w))%Z) as [Hin|Hin];
      [|change (hidden_base g1) with (hidden_base (gen w)); lia].
    destruct (valid_initial_id_taken _ _ Hv Hin) as (r0 & n & Hn & Hid).
    exfalso. apply (Hhid n); [|done]. apply elem_of_nodes. eauto. }
  destruct (hidden_node_keeps_valid g1 x Hv1 Hc1 eq_refl Hout eq_refl eq_refl)
    as [Hv3 Hc3].
  fold g3 in Hv3, Hc3.
  assert (Hv4 : valid_genome (gen w4)).
  { rewrite Hg4. apply (valid_genome_link c1 g3 d1); try done.
    - rewrite Hf1. apply ref_in_range_is_Some. eauto.
    - by rewrite Ht1. }
  assert (Hc4 : adjacency_consistent (gen w4)).
  { rewrite Hg4. apply adjacency_consistent_link; [done| |].
    - rewrite Hf1. eauto.
    - rewrite Ht1. eauto. }
  rewrite Hg5. split.
  - apply (valid_genome_link c2 (gen w4) d2); try done.
    + rewrite Hf2. apply ref_in_range_is_Some. eauto.
    + by rewrite Ht2.
  - apply adjacency_consistent_link; [done| |].
    + rewrite Hf2. eauto.
    + rewrite Ht2. eauto.
Qed.

Lemma add_random_hidden_node_keeps_valid_witness :
  valid_genome genome1 /\ adjacency_consistent genome1.
Proof.
  apply (add_random_hidden_node_keeps_valid world0 world1 (HiddenRef 0)).
  - apply valid_genome0.
  - apply valid_genome0.
  - vm_compute. reflexivity.
  - intros x n Hx Hn.
    assert (Hid : node_id x = 4%Z)
      by (vm_compute in Hx; by injection Hx as <-).
    rewrite Hid. revert n Hn. apply Forall_forall.
    apply (bool_decide_unpack
             (Forall (fun n => node_id n <> 4%Z) (nodes (gen world0)))).
    vm_compute. exact I.
Defined.

(** ** Deep copies *)

Lemma scan_out_connections_true_inv g outs nid :
  scan_out_connections g outs nid = Some true ->
  exists ci c n, ci ∈ outs /\ connections g !! ci = Some c
                 /\ get_node g (to_node c) = Some n /\ node_id n = nid.
Proof.
  induction outs as [|a outs IH]; simpl; [done|].
  destruct (connections g !! a) as [c|] eqn:Hc; simpl; [|done].
  destruct (get_node g (to_node c)) as [n|] eqn:Hn; simpl; [|done].
  case_decide as Hid.
  - intros _. exists a, c, n. split_and!; try done. apply list_elem_of_here.
  - intros H. destruct (IH H) as (ci & c' & n' & Hci & H').
    exists ci, c', n'. split; [by apply list_elem_of_further|done].
Qed.

Lemma copied_consistent (self : Genome) (gid : Z) :
  adjacency_consistent (copied self gid).
Proof.
  split; [|simpl; constructor].
  apply Forall_forall. intros r _.
  destruct (get_node (copied self gid) r) as [n|] eqn:Hr; [|done].
  assert (Hempty : out_connections n = [] /\ in_connections n = []).
  { destruct r as [i| |k|i]; simpl in Hr.
    - rewrite list_lookup_fmap in Hr.
      destruct (seq 0 (length (_input_nodes self)) !! i); simpl in Hr;
        by simplify_eq.
    - destruct (bias_value (config self)); simpl in Hr; by simplify_eq.
    - rewrite list_lookup_fmap in Hr.
      destruct (seq 0 (length (_output_nodes self)) !! k); simpl in Hr;
        by simplify_eq.
    - by rewrite lookup_nil in Hr. }
  destruct Hempty as [Ho Hi]. unfold lists_only. rewrite Ho, Hi.
  split; constructor.
Qed.

Lemma copy_inv_start (self : Genome) (gid : Z) :
  valid_genome self ->
  copy_inv self [] (index_nodes (copied self gid)) (copied self gid).
Proof.
  intros Hv. split.
  - by apply mate_inv_start.
  - apply valid_copied.
  - apply copied_consistent.
  - by destruct (copied_layout self gid Hv).
  - done.
  - done.
Qed.

(** Copying an endpoint keeps the invariant. *)
Lemma adopt_endpoint_copy_inv self done added g r node :
  valid_genome self ->
  copy_inv self done added g ->
  get_node self r = Some node ->
  exists added' g',
    adopt_endpoint self r added g = Some (added', g')
    /\ copy_inv self done added' g'
    /\ is_Some (added' !! node_id node)
    /\ (forall k, is_Some (added !! k) -> is_Some (added' !! k)).
Proof.
  intros Hv [Hm Hvg Hcg Hb Hgenes Hends] Hr.
  assert (Hrange : node_type node = HIDDEN
                   \/ (0 <= node_id node < hidden_base self)%Z).
  { pose proof (valid_initial_id _ _ _ Hv Hr) as H. destruct r; tauto. }
  destruct (adopt_endpoint_inv _ _ _ _ self _ _ Hm Hr Hrange)
    as (added' & g' & Had & Hm' & Hk & Hmono).
  exists added', g'. split_and!; try done.
  unfold adopt_endpoint in Had. rewrite Hr in Had. simpl in Had.
  case_decide as Hadopt; injection Had as <- <-; [|by split].
  destruct Hadopt as [Hty Hfresh].
  assert (Hid : (node_id (node_shallow_copy node) < 0
                 \/ hidden_base g <= node_id (node_shallow_copy node))%Z).
  { rewrite Hb. simpl.
    pose proof (valid_initial_id _ _ _ Hv Hr) as H.
    destruct r; try (by destruct H as (_ & Hn & _)). tauto. }
  destruct (hidden_node_keeps_valid g (node_shallow_copy node) Hvg Hcg
              Hty Hid eq_refl eq_refl) as [Hv' Hc'].
  split; try done.
  change (connections (with_hidden_nodes
            (_hidden_nodes g ++ [node_shallow_copy node]) g))
    with (connections g).
  rewrite <- Hends. apply endpoint_ids_ext.
  - intros r0 n Hn. exists n. split; [by apply get_node_push_hidden|done].
  - intros c Hc. by eapply mate_inv_endpoints.
Qed.

(** Copying a gene: when [copy_gene] returns, the invariant holds with the
    gene among the copied ones. *)
Lemma copy_gene_inv self done c added w added' w' :
  valid_genome self ->
  copy_inv self done added (gen w) ->
  c ∈ connections self ->
  copy_gene self c added w = Ok added' w' ->
  copy_inv self (done ++ [c]) added' (gen w') /\ random w' = random w.
Proof.
  intros Hv Hinv Hc.
  destruct (valid_parent_gene self c Hv Hc)
    as (src & dest & Hsrc & Hdest & _ & _ & Rsink).
  unfold copy_gene.
  destruct (adopt_endpoint_copy_inv _ _ _ _ _ _ Hv Hinv Hsrc)
    as (added1 & g1 & -> & Hinv1 & Hk1 & _).
  destruct (adopt_endpoint_copy_inv _ _ _ _ _ _ Hv Hinv1 Hdest)
    as (added2 & g2 & -> & Hinv2 & [dr Hdr] & Hmono).
  destruct (Hmono _ Hk1) as [sr Hsr].
  rewrite Hsrc, Hdest, Hsr, Hdr.
  destruct Hinv2 as [Hm Hvg Hcg Hb Hgenes Hends].
  set (w2 := with_gen g2 w).
  unfold bind.
  destruct (add_connection sr dr (enabled c) (Some (conn_id c))
              (Some (weight c)) w2) as [[] w3|e w3] eqn:Hw3; [|done].
  unfold ret. intros [= <- <-].
  destruct (add_connection_return_inv _ _ _ _ _ _ _ Hw3)
    as (s & d & c' & Hs & Hd & Hex & Hsink & Hg & Hf & Ht & Hen & Hcid & Hwt).
  destruct (Hcid _ eq_refl) as [Hcid' _].
  destruct (Hwt _ eq_refl) as [Hwt' Hr3].
  cbn [gen w2 with_gen random] in *.
  destruct (inv_sound _ _ _ _ Hm _ _ Hsr) as (s0 & Hs0 & Hids).
  destruct (inv_sound _ _ _ _ Hm _ _ Hdr) as (d0 & Hd0 & Hidd).
  rewrite Hs in Hs0. injection Hs0 as <-.
  rewrite Hd in Hd0. injection Hd0 as <-.
  split; [|done].
  rewrite Hg. split.
  - apply (mate_inv_link _ _ added2 g2 c' s d); try done.
    + by rewrite Hf.
    + by rewrite Ht.
  - apply (valid_genome_link c' g2 d); try done.
    + rewrite Hf. apply ref_in_range_is_Some. eauto.
    + by rewrite Ht.
  - apply adjacency_consistent_link; [done| |].
    + rewrite Hf. eauto.
    + rewrite Ht. eauto.
  - rewrite <- Hb. apply link_layout.
  - rewrite connections_link, !map_app, Hgenes. simpl.
    unfold gene_payload. by rewrite Hcid', Hwt', Hen.
  - rewrite connections_link, !map_app. f_equal.
    + rewrite <- Hends. apply endpoint_ids_ext.
      * intros r0 n Hn. rewrite get_node_link, Hn. simpl.
        eexists. split; [done|]. apply node_id_touch.
      * intros c0 Hc0. by eapply mate_inv_endpoints.
    + simpl. f_equal. unfold endpoint_ids.
      rewrite !get_node_link, Hf, Ht, Hs, Hd, Hsrc, Hdest. simpl.
      rewrite !node_id_touch. congruence.
Qed.

(** The loop of [deep_copy]. *)
Lemma deep_copy_loop_inv self rest :
  valid_genome self ->
  forall done added w added' w',
    copy_inv self done added (gen w) ->
    (forall c, c ∈ rest -> c ∈ connections self) ->
    deep_copy_loop self rest added w = Ok added' w' ->
    copy_inv self (done ++ rest) added' (gen w') /\ random w' = random w.
Proof.
  intros Hv. induction rest as [|c rest IH];
    intros done added w added' w' Hinv Hin.
  - simpl. unfold ret. intros [= <- <-]. by rewrite app_nil_r.
  - simpl. unfold bind.
    destruct (copy_gene self c added w) as [added1 w1|e w1] eqn:Hgene; [|done].
    intros Hloop.
    destruct (copy_gene_inv self done c added w added1 w1 Hv Hinv)
      as [Hinv1 Hr1]; [apply Hin, list_elem_of_here|done|].
    destruct (IH (done ++ [c]) added1 w1 added' w' Hinv1) as [Hinv2 Hr2].
    + intros c' Hc'. by apply Hin, list_elem_of_further.
    + done.
    + rewrite <- app_assoc in Hinv2. split; [done|congruence].
Qed.

(** Whenever [deep_copy] returns for a valid genome, the copy is a valid,
    consistent genome with the connection genes of the original in the same
    order: the same ids, weights and enabled flags, between nodes of the
    same ids.  The random source is not consumed. *)
Theorem deep_copy_copies_connections
    (self : Genome) (h : IdHandler.t) (r : Rng) (w' : World) :
  valid_genome self ->
  deep_copy self h r = Ok tt w' ->
  map gene_payload (connections (gen w'))
  = map gene_payload (connections self)
  /\ map (endpoint_ids (gen w')) (connections (gen w'))
     = map (endpoint_ids self) (connections self)
  /\ valid_genome (gen w') /\ adjacency_consistent (gen w')
  /\ random w' = r.
Proof.
  intros Hv. unfold deep_copy.
  destruct (shallow_copy_returns self h r) as [h' ->].
  set (w := {| gen := copied self (IdHandler._genome_counter h);
               handler := h'; random := r |}).
  destruct (deep_copy_loop self (connections self) (index_nodes (gen w)) w)
    as [added w1|e w1] eqn:Hloop; [|done].
  intros [= <-].
  destruct (deep_copy_loop_inv self (connections self) Hv []
              (index_nodes (gen w)) w added w1)
    as [[Hm Hvg Hcg Hb Hgenes Hends] Hr]; try done.
  by apply copy_inv_start.
Qed.

Lemma deep_copy_copies_connections_witness :
  map gene_payload
      (connections
         (gen (final_state (deep_copy genome1 handler0 (constant_rng 0)))))
  = map gene_payload (connections genome1)
  /\ map (endpoint_ids
            (gen (final_state (deep_copy genome1 handler0 (constant_rng 0)))))
         (connections
            (gen (final_state (deep_copy genome1 handler0 (constant_rng 0)))))
     = map (endpoint_ids genome1) (connections genome1)
  /\ valid_genome
       (gen (final_state (deep_copy genome1 handler0 (constant_rng 0))))
  /\ adjacency_consistent
       (gen (final_state (deep_copy genome1 handler0 (constant_rng 0))))
  /\ random (final_state (deep_copy genome1 handler0 (constant_rng 0)))
     = constant_rng 0.
Proof.
  apply (deep_copy_copies_connections genome1 handler0 (constant_rng 0)).
  - apply valid_genome1.
  - vm_compute. reflexivity.
Defined.

(** ** The distance to a copy *)


(** [copy_gene] appends one gene, with the id, weight and flag of the gene
    it copies; no hypothesis on the genome is needed for that. *)
Lemma copy_gene_connections self c added w added' w' :
  copy_gene self c added w = Ok added' w' ->
  exists c', connections (gen w') = connections (gen w) ++ [c']
             /\ gene_payload c' = gene_payload c.
Proof.
  unfold copy_gene.
  destruct (adopt_endpoint self (from_node c) added (gen w))
    as [[added1 g1]|] eqn:H1; [|done].
  destruct (adopt_endpoint self (to_node c) added1 g1)
    as [[added2 g2]|] eqn:H2; [|done].
  apply adopt_endpoint_connections in H1, H2.
  destruct (get_node self (from_node c)) as [src|]; [|done].
  destruct (get_node self (to_node c)) as [dest|]; [|done].
  destruct (added2 !! node_id src) as [sr|]; [|done].
  destruct (added2 !! node_id dest) as [dr|]; [|done].
  unfold bind.
  destruct (add_connection sr dr (enabled c) (Some (conn_id c))
              (Some (weight c)) (with_gen g2 w)) as [[] w3|e w3] eqn:Hw3;
    [|done].
  unfold ret. intros [= <- <-].
  destruct (add_connection_return_inv _ _ _ _ _ _ _ Hw3)
    as (_ & _ & c' & _ & _ & _ & _ & Hg & _ & _ & Hen & Hcid & Hwt).
  destruct (Hcid _ eq_refl) as [Hcid' _].
  destruct (Hwt _ eq_refl) as [Hwt' _].
  exists c'. split.
  - rewrite Hg, connections_link. cbn [gen with_gen]. by rewrite H2, H1.
  - unfold gene_payload. by rewrite Hcid', Hwt', Hen.
Qed.

Lemma deep_copy_loop_connections self rest :
  forall added w added' w',
    deep_copy_loop self rest added w = Ok added' w' ->
    map gene_payload (connections (gen w'))
    = map gene_payload (connections (gen w)) ++ map gene_payload rest.
Proof.
  induction rest as [|c rest IH]; intros added w added' w'.
  - simpl. unfold ret. intros [= <- <-]. by rewrite app_nil_r.
  - simpl. unfold bind.
    destruct (copy_gene self c added w) as [added1 w1|e w1] eqn:Hgene; [|done].
    intros Hloop. rewrite (IH _ _ _ _ Hloop).
    destruct (copy_gene_connections _ _ _ _ _ _ Hgene) as (c' & -> & Hpay).
    by rewrite map_app, <- app_assoc, <- Hpay.
Qed.

Lemma deep_copy_payload (self : Genome) (h : IdHandler.t) (r : Rng) w' :
  deep_copy self h r = Ok tt w' ->
  map gene_payload (connections (gen w'))
  = map gene_payload (connections self).
Proof.
  unfold deep_copy.
  destruct (shallow_copy_returns self h r) as [h' ->].
  destruct (deep_copy_loop _ _ _ _) as [added w1|e w1] eqn:Hloop; [|done].
  intros [= <-]. by rewrite (deep_copy_loop_connections _ _ _ _ _ _ Hloop).
Qed.


Lemma align_slots_same_ids (l l' : list ConnectionGene) :
  map conn_id l = map conn_id l' ->
  align_slots l l' = map (fun p => (Some p.1, Some p.2)) (zip l l').
Proof.
  revert l'. induction l as [|a l IH]; intros [|b l'] Hids; try done.
  injection Hids as Hab Hids.
  rewrite align_slots_cons, Hab, Z.ltb_irrefl. simpl. by rewrite IH.
Qed.

Lemma filter_matching_paired (ps : list (ConnectionGene * ConnectionGene)) :
  List.filter is_matching (map (fun p => (Some p.1, Some p.2)) ps)
  = map (fun p => (Some p.1, Some p.2)) ps.
Proof. induction ps as [|a l IH]; simpl; [done|]. by rewrite IH. Qed.

Lemma filter_excess_paired max1 max2
    (ps : list (ConnectionGene * ConnectionGene)) :
  List.filter (is_excess max1 max2) (map (fun p => (Some p.1, Some p.2)) ps)
  = [].
Proof. induction ps as [|a l IH]; simpl; done. Qed.

Lemma filter_disjoint_paired max1 max2
    (ps : list (ConnectionGene * ConnectionGene)) :
  List.filter (is_disjoint max1 max2) (map (fun p => (Some p.1, Some p.2)) ps)
  = [].
Proof. induction ps as [|a l IH]; simpl; done. Qed.

Lemma Qsum_paired_differences (ps : list (ConnectionGene * ConnectionGene)) :
  Forall (fun p => weight p.1 = weight p.2) ps ->
  (Qsum (map slot_weight_difference
           (map (fun p => (Some p.1, Some p.2)) ps)) == 0)%Q.
Proof.
  induction 1 as [|[a b] ps Hab _ IH]; [reflexivity|].
  cbn [map slot_weight_difference fst snd]. unfold Qsum in *. cbn [foldr].
  rewrite IH. simpl in Hab. rewrite Hab.
  assert (H0 : (weight b - weight b == 0)%Q)
    by (unfold Qminus; apply Qplus_opp_r).
  rewrite H0. reflexivity.
Qed.

Lemma zip_same_image {A B} (f : A -> B) (l l' : list A) :
  map f l = map f l' -> Forall (fun p => f p.1 = f p.2) (zip l l').
Proof.
  revert l'. induction l as [|a l IH]; intros [|b l'] H; simpl;
    try constructor; try done.
  - by injection H.
  - apply IH. by injection H.
Qed.

(** Genomes with the same connection ids and weights in the same order are
    at distance 0. *)
Lemma distance_same_genes (g g' : Genome) :
  map gene_payload (connections g) = map gene_payload (connections g') ->
  connections g <> [] ->
  exists d, distance g g' = inr d /\ (d == 0)%Q.
Proof.
  intros Hpay Hne.
  assert (Hids : map conn_id (connections g) = map conn_id (connections g')).
  { apply (f_equal (map (fun x : Z * Q * bool => x.1.1))) in Hpay.
    by rewrite !map_map in Hpay. }
  assert (Hwts : map weight (connections g) = map weight (connections g')).
  { apply (f_equal (map (fun x : Z * Q * bool => x.1.2))) in Hpay.
    by rewrite !map_map in Hpay. }
  assert (Hlen : length (connections g') = length (connections g)).
  { apply (f_equal length) in Hids. by rewrite !length_map in Hids. }
  assert (Hne' : connections g' <> []).
  { intros E. rewrite E in Hlen. by destruct (connections g). }
  unfold distance.
  rewrite zip_align_connections, (amax_max_id _ Hne), (amax_max_id _ Hne').
  destruct (tally_slots_counts (max_id (connections g)) (max_id (connections g'))
              (align_slots (connections g) (connections g'))
              (align_slots_inhabited _ _)
              {| excess := 0; disjoint := 0; weight_diff := 0;
                 num_matches := 0 |})
    as (t & -> & He & Hd & Hm & Hw).
  rewrite (align_slots_same_ids _ _ Hids) in He, Hd, Hm, Hw.
  rewrite filter_excess_paired in He. rewrite filter_disjoint_paired in Hd.
  rewrite filter_matching_paired in Hm, Hw.
  rewrite (Qsum_paired_differences _ (zip_same_image weight _ _ Hwts)) in Hw.
  simpl in He, Hd, Hm, Hw.
  rewrite length_map, length_zip, Hlen, Nat.min_id in Hm.
  rewrite Hlen, Nat.max_id.
  destruct (connections g) as [|c cs] eqn:Hc; [done|].
  simpl length in *. cbn [Nat.eqb]. rewrite Hm. cbn [Nat.eqb].
  eexists. split; [reflexivity|].
  rewrite He, Hd, Hw. unfold count_Q at 1 2. simpl inject_Z.
  unfold Qdiv. rewrite !Qmult_0_r, !Qmult_0_l, !Qplus_0_r. reflexivity.
Qed.

(** Whenever [deep_copy] returns for a genome with a connection gene, the
    genome is at distance 0 from the copy. *)
Theorem distance_to_deep_copy
    (self : Genome) (h : IdHandler.t) (r : Rng) (w' : World) :
  deep_copy self h r = Ok tt w' ->
  connections self <> [] ->
  exists d, distance self (gen w') = inr d /\ (d == 0)%Q.
Proof.
  intros Hcopy Hne.
  apply distance_same_genes; [|done].
  symmetry. by eapply deep_copy_payload.
Qed.

Lemma distance_to_deep_copy_witness :
  exists d,
    distance genome1
      (gen (final_state (deep_copy genome1 handler0 (constant_rng 0))))
    = inr d
    /\ (d == 0)%Q.
Proof.
  apply (distance_to_deep_copy genome1 handler0 (constant_rng 0)).
  - vm_compute. reflexivity.
  - vm_compute. discriminate.
Defined.

(** ** Adding a random connection *)

Lemma valid_connection_exists_decided g r s d :
  valid_genome g -> adjacency_consistent g -> get_node g r = Some s ->
  exists b, connection_exists g s d = Some b.
Proof.
  intros Hv Hc Hs. apply scan_out_connections_decided. intros ci Hci.
  destruct (out_connections_resolve _ _ _ _ Hv Hc Hs Hci)
    as (c & m & Hci' & _ & Hm & _). eauto.
Qed.

(** The inner loop: it ends with the first destination that is not yet
    connected, or after all of them. *)
Lemma try_dests_outcome src dests w sn :
  valid_genome (gen w) -> adjacency_consistent (gen w) ->
  get_node (gen w) src = Some sn ->
  Forall (fun d => can_receive (gen w) d = true) dests ->
  exists res w',
    try_dests src dests w = Ok res w'
    /\ match res with
       | Some (s, d) =>
           s = src /\ d ∈ dests
           /\ (s <> d \/ allow_self_connections (config (gen w)) = true)
           /\ add_connection s d true None None w = Ok tt w'
       | None =>
           w' = w
           /\ forall d dn, d ∈ dests -> get_node (gen w) d = Some dn ->
                (src <> d \/ allow_self_connections (config (gen w)) = true) ->
                connection_exists (gen w) sn dn = Some true
       end.
Proof.
  intros Hv Hc Hs. induction 1 as [|d dests Hd _ IH].
  - exists None, w. split; [done|]. split; [done|].
    intros d dn Hin. by apply elem_of_nil in Hin.
  - cbn [try_dests].
    assert (Hskip :
      (forall dn, get_node (gen w) d = Some dn ->
         (src <> d \/ allow_self_connections (config (gen w)) = true) ->
         connection_exists (gen w) sn dn = Some true) ->
      exists res w',
        try_dests src dests w = Ok res w'
        /\ match res with
           | Some (s, d0) =>
               s = src /\ d0 ∈ d :: dests
               /\ (s <> d0 \/ allow_self_connections (config (gen w)) = true)
               /\ add_connection s d0 true None None w = Ok tt w'
           | None =>
               w' = w
               /\ forall d0 dn, d0 ∈ d :: dests ->
                    get_node (gen w) d0 = Some dn ->
                    (src <> d0
                     \/ allow_self_connections (config (gen w)) = true) ->
                    connection_exists (gen w) sn dn = Some true
           end).
    { intros Hhere. destruct IH as (res & w' & Hrun & Hres).
      exists res, w'. split; [done|]. destruct res as [[s d0]|].
      - destruct Hres as (-> & Hin & Hne & Hadd).
        split_and!; try done. by apply list_elem_of_further.
      - destruct Hres as [-> Hall]. split; [done|].
        intros d0 dn Hin Hd0 Hne.
        apply elem_of_cons in Hin as [->|Hin]; eauto. }
    unfold can_receive in Hd.
    destruct (get_node (gen w) d) as [dn|] eqn:Hdn; [|done].
    apply negb_true_iff in Hd.
    destruct (bool_decide (src <> d) || allow_self_connections (config (gen w)))
      eqn:Hallowed.
    + destruct (valid_connection_exists_decided _ _ sn dn Hv Hc Hs)
        as [[] Hex].
      * (* already connected: the error is caught *)
        assert (Hraise : add_connection src d true None None w
                         = Raise ConnectionExistsError w).
        { unfold add_connection. by rewrite Hs, Hdn, Hex. }
        rewrite Hraise. apply Hskip. intros dn' Hdn' _. congruence.
      * destruct (add_connection_returns src d true None None w sn dn
                    Hs Hdn Hex Hd) as [w' Hadd].
        rewrite Hadd. exists (Some (src, d)), w'. split; [done|].
        split_and!; try done; [apply list_elem_of_here|].
        apply orb_true_iff in Hallowed as [H|H]; [left|by right].
        by apply bool_decide_eq_true in H.
    + apply Hskip. intros dn' _ Hne. exfalso.
      apply orb_false_iff in Hallowed as [H1 H2].
      apply bool_decide_eq_false in H1. destruct Hne; [done|congruence].
Qed.

(** The outer loop. *)
Lemma try_srcs_outcome srcs dests w :
  valid_genome (gen w) -> adjacency_consistent (gen w) ->
  Forall (fun s => is_Some (get_node (gen w) s)) srcs ->
  Forall (fun d => can_receive (gen w) d = true) dests ->
  exists res w',
    try_srcs srcs dests w = Ok res w'
    /\ match res with
       | Some (s, d) =>
           s ∈ srcs /\ d ∈ dests
           /\ (s <> d \/ allow_self_connections (config (gen w)) = true)
           /\ add_connection s d true None None w = Ok tt w'
       | None =>
           w' = w
           /\ forall s d sn dn, s ∈ srcs -> d ∈ dests ->
                get_node (gen w) s = Some sn -> get_node (gen w) d = Some dn ->
                (s <> d \/ allow_self_connections (config (gen w)) = true) ->
                connection_exists (gen w) sn dn = Some true
       end.
Proof.
  intros Hv Hc Hsrcs Hdests. induction Hsrcs as [|s srcs [sn Hs] _ IH].
  - exists None, w. split; [done|]. split; [done|].
    intros s d sn dn Hin. by apply elem_of_nil in Hin.
  - cbn [try_srcs].
    destruct (try_dests_outcome s dests w sn Hv Hc Hs Hdests)
      as ([[s0 d0]|] & w1 & -> & Hres).
    + destruct Hres as (-> & Hd0 & Hne & Hadd).
      exists (Some (s, d0)), w1. split; [done|].
      split_and!; try done. apply list_elem_of_here.
    + destruct Hres as [-> Hhere].
      destruct IH as (res & w' & -> & Hres).
      exists res, w'. split; [done|]. destruct res as [[s0 d0]|].
      * destruct Hres as (Hs0 & Hd0 & Hne & Hadd).
        split_and!; try done. by apply list_elem_of_further.
      * destruct Hres as [-> Hall]. split; [done|].
        intros s0 d0 sn0 dn0 Hin Hd0 Hsn0 Hdn0 Hne.
        apply elem_of_cons in Hin as [->|Hin]; [|eauto].
        rewrite Hs in Hsn0. injection Hsn0 as <-. eauto.
Qed.

Lemma rotate_permutes (l : list NodeRef) (r : Rng) : (rotate l r).1 ≡ₚ l.
Proof.
  unfold rotate. destruct (choice_index (length l) r) as [k r']. simpl.
  by rewrite Permutation_app_comm, take_drop.
Qed.

(** Nodes with distinct ids are told apart by their ids. *)
Lemma distinct_ids_inj g r1 r2 n1 n2 :
  NoDup (map node_id (nodes g)) ->
  get_node g r1 = Some n1 -> get_node g r2 = Some n2 ->
  node_id n1 = node_id n2 -> r1 = r2.
Proof.
  intros Hnd H1 H2 Hid.
  set (bias := match _bias_node g with Some b => [b] | None => [] end).
  set (pos := fun r => match r with
                       | InputRef i => i
                       | BiasRef => length (_input_nodes g)
                       | OutputRef k =>
                           (length (_input_nodes g) + length bias + k)%nat
                       | HiddenRef i =>
                           (length (_input_nodes g) + length bias
                            + length (_output_nodes g) + i)%nat
                       end).
  assert (Hpos : forall r n, get_node g r = Some n ->
                             nodes g !! pos r = Some n
                             /\ match r with
                                | InputRef i => (i < length (_input_nodes g))%nat
                                | BiasRef => length bias = 1%nat
                                | OutputRef k =>
                                    (k < length (_output_nodes g))%nat
                                | HiddenRef _ => True
                                end).
  { intros r n Hr. unfold nodes. fold bias.
    destruct r as [i| |k|i]; simpl in Hr |- *.
    - split; [by apply lookup_app_l_Some|by eapply lookup_lt_Some].
    - unfold bias. rewrite Hr. split; [|done].
      rewrite lookup_app_r by lia. by rewrite Nat.sub_diag.
    - split; [|by eapply lookup_lt_Some].
      rewrite lookup_app_r by lia. rewrite lookup_app_r by lia.
      apply lookup_app_l_Some.
      by replace (length (_input_nodes g) + length bias + k
                  - length (_input_nodes g) - length bias)%nat with k by lia.
    - split; [|done].
      rewrite lookup_app_r by lia. rewrite lookup_app_r by lia.
      rewrite lookup_app_r by lia.
      by replace (length (_input_nodes g) + length bias
                  + length (_output_nodes g) + i - length (_input_nodes g)
                  - length bias - length (_output_nodes g))%nat with i by lia. }
  destruct (Hpos _ _ H1) as [Hp1 Hb1]. destruct (Hpos _ _ H2) as [Hp2 Hb2].
  assert (Heq : pos r1 = pos r2).
  { apply (NoDup_lookup _ _ _ (node_id n1) Hnd).
    - by rewrite list_lookup_fmap, Hp1.
    - by rewrite list_lookup_fmap, Hp2, Hid. }
  assert (Hlen : (length bias <= 1)%nat)
    by (unfold bias; destruct (_bias_node g); simpl; lia).
  destruct r1, r2; simpl in Heq, Hb1, Hb2; try (f_equal; lia); try lia.
Qed.

(** In a consistent genome with distinct node ids, what [connection_exists]
    finds is a connection gene between the two nodes. *)
Lemma connection_exists_gene g s d sn dn :
  valid_genome g -> adjacency_consistent g ->
  NoDup (map node_id (nodes g)) ->
  get_node g s = Some sn -> get_node g d = Some dn ->
  connection_exists g sn dn = Some true ->
  exists c, c ∈ connections g /\ from_node c = s /\ to_node c = d.
Proof.
  intros Hv Hc Hnd Hs Hd Hex.
  destruct (scan_out_connections_true_inv _ _ _ Hex)
    as (ci & c & n & Hci & Hlook & Hn & Hid).
  destruct (out_connections_resolve _ _ _ _ Hv Hc Hs Hci)
    as (c' & m & Hlook' & Hfrom & _).
  rewrite Hlook in Hlook'. injection Hlook' as <-.
  exists c. split_and!; [|done|].
  - apply list_elem_of_lookup. eauto.
  - by apply (distinct_ids_inj g _ _ n dn).
Qed.

(** What [connection_exists] does not find is not among the connection
    genes. *)
Lemma connection_exists_no_gene g s d sn dn c :
  adjacency_consistent g ->
  get_node g s = Some sn -> get_node g d = Some dn ->
  connection_exists g sn dn = Some false ->
  c ∈ connections g -> ~ (from_node c = s /\ to_node c = d).
Proof.
  intros [_ Hcomplete] Hs Hd Hex Hc [Hfrom Hto].
  apply list_elem_of_lookup in Hc as [ci Hci].
  assert (Hp : imap pair (connections g) !! ci = Some (ci, c))
    by (rewrite list_lookup_imap, Hci; done).
  pose proof (Forall_lookup_1 _ _ _ _ Hcomplete Hp) as Hl.
  unfold listed in Hl. simpl in Hl. rewrite Hfrom, Hto, Hs, Hd in Hl.
  destruct Hl as [Hout _].
  destruct (scan_out_connections_false_inv _ _ _ Hex ci Hout)
    as (c' & n & Hci' & Hn & Hne).
  rewrite Hci in Hci'. injection Hci' as <-.
  rewrite Hto, Hd in Hn. injection Hn as <-. done.
Qed.

(** Whenever [add_random_connection] returns on a valid, consistent genome
    whose nodes carry distinct ids, whatever permutations the shuffle
    produces: a returned pair was joined by no connection gene before, its
    destination is no input or bias node, it is a self-connection only if
    the configuration allows them, and the genome has gained exactly one
    enabled connection gene, between the pair, and is still valid and
    consistent; when the answer is [None], the genome and the id handler
    are unchanged and every admissible pair of nodes is joined by a
    connection gene already. *)
Theorem add_random_connection_outcome
    (shuffle : list NodeRef -> Rng -> list NodeRef * Rng) (w w' : World)
    (res : option (NodeRef * NodeRef)) :
  (forall l r, (shuffle l r).1 ≡ₚ l) ->
  valid_genome (gen w) -> adjacency_consistent (gen w) ->
  NoDup (map node_id (nodes (gen w))) ->
  add_random_connection shuffle w = Ok res w' ->
  match res with
  | Some (s, d) =>
      (s <> d \/ allow_self_connections (config (gen w)) = true)
      /\ is_Some (get_node (gen w) s)
      /\ (exists dn, get_node (gen w) d = Some dn
                     /\ is_sink (node_type dn) = false)
      /\ (forall c, c ∈ connections (gen w) ->
                    ~ (from_node c = s /\ to_node c = d))
      /\ (exists c,
             connections (gen w') = connections (gen w) ++ [c]
             /\ from_node c = s /\ to_node c = d /\ enabled c = true)
      /\ valid_genome (gen w') /\ adjacency_consistent (gen w')
  | None =>
      gen w' = gen w /\ handler w' = handler w
      /\ forall s d sn dn,
           get_node (gen w) s = Some sn -> get_node (gen w) d = Some dn ->
           is_sink (node_type dn) = false ->
           (s <> d \/ allow_self_connections (config (gen w)) = true) ->
           exists c, c ∈ connections (gen w)
                     /\ from_node c = s /\ to_node c = d
  end.
Proof.
  intros Hperm Hv Hc Hnd. unfold add_random_connection.
  pose proof (Hperm (node_refs (gen w)) (random w)) as Hp1.
  destruct (shuffle (node_refs (gen w)) (random w)) as [srcs r1].
  simpl in Hp1.
  pose proof (Hperm (List.filter (can_receive (gen w)) srcs) r1) as Hp2.
  destruct (shuffle (List.filter (can_receive (gen w)) srcs) r1) as [dests r2].
  simpl in Hp2.
  set (w2 := {| gen := gen w; handler := handler w; random := r2 |}).
  assert (Hsrc : forall s, s ∈ srcs <-> is_Some (get_node (gen w) s)).
  { intros s. by rewrite Hp1, elem_of_node_refs. }
  assert (Hdest : forall d, d ∈ dests
                            <-> can_receive (gen w) d = true).
  { intros d. rewrite Hp2, list_elem_of_In, filter_In, <- list_elem_of_In, Hsrc.
    split; [tauto|]. intros H. split; [|done].
    unfold can_receive in H. destruct (get_node (gen w) d); [eauto|done]. }
  destruct (try_srcs_outcome srcs dests w2 Hv Hc) as (res1 & w1 & -> & Hres).
  { apply Forall_forall. intros s. apply Hsrc. }
  { apply Forall_forall. intros d. apply Hdest. }
  intros [= <- <-]. destruct res1 as [[s d]|].
  - destruct Hres as (_ & _ & Hne & Hadd). cbn [gen w2] in Hne.
    destruct (add_connection_return_inv _ _ _ _ _ _ _ Hadd)
      as (sn & dn & c & Hs & Hd & Hex & Hsink & Hg & Hf & Ht & Hen & _).
    cbn [gen w2] in *.
    split_and!; [done|eauto|by exists dn| |..].
    + intros c0. by apply (connection_exists_no_gene (gen w) s d sn dn).
    + exists c. by rewrite Hg, connections_link.
    + rewrite Hg. apply (valid_genome_link c (gen w) dn); try done.
      * rewrite Hf. apply ref_in_range_is_Some. eauto.
      * by rewrite Ht.
    + rewrite Hg. apply adjacency_consistent_link; [done| |].
      * rewrite Hf. eauto.
      * rewrite Ht. eauto.
  - destruct Hres as [-> Hall]. split_and!; [done|done|].
    intros s d sn dn Hs Hd Hsink Hne.
    apply (connection_exists_gene (gen w) s d sn dn); try done.
    apply (Hall s d sn dn); try done.
    + apply Hsrc. eauto.
    + apply Hdest. unfold can_receive. by rewrite Hd, Hsink.
Qed.

Lemma add_random_connection_outcome_witness :
  gen (final_state (add_random_connection rotate full_world))
  = gen full_world
  /\ handler (final_state (add_random_connection rotate full_world))
     = handler full_world
  /\ forall s d sn dn,
       get_node (gen full_world) s = Some sn ->
       get_node (gen full_world) d = Some dn ->
       is_sink (node_type dn) = false ->
       (s <> d \/ allow_self_connections (config (gen full_world)) = true) ->
       exists c, c ∈ connections (gen full_world)
                 /\ from_node c = s /\ to_node c = d.
Proof.
  apply (add_random_connection_outcome rotate full_world
           (final_state (add_random_connection rotate full_world)) None).
  - exact rotate_permutes.
  - apply (bool_decide_unpack (valid_genome (gen full_world))).
    vm_compute. exact I.
  - apply (bool_decide_unpack (adjacency_consistent (gen full_world))).
    vm_compute. exact I.
  - apply (bool_decide_unpack
             (NoDup (map node_id (nodes (gen full_world))))).
    vm_compute. exact I.
  - vm_compute. reflexivity.
Defined.
